(** * ASTeX: tokenizer, tree builder, tree filter and macro expansion

    A shallow embedding of [astex/ast.py] and [astex/demacro.py].

    Text is a list of characters; a character is one of the code points
    0..255 ([ascii]), and the character classes of the regular expressions
    are the ones Python's [re] gives on that range.  Python exceptions are
    values of [error]; functions that can raise return [res]. *)

From Stdlib Require Import Ascii String DecimalString ZArith.
From stdpp Require Import base option list strings gmap.
From Stdlib Require Import Lia.

Local Open Scope char_scope.
Local Open Scope nat_scope.

(** ** Text *)

Abbreviation text := (list ascii).

(** A string literal of the source as a list of characters. *)
Definition lit (x : string) : text := list_ascii_of_string x.

Definition is_newline (c : ascii) : bool := bool_decide (c = "010").

(** [\s] on code points 0..255: TAB..CR, FS..US, SPACE, NEL, NBSP. *)
Definition is_space (c : ascii) : bool :=
  let n := nat_of_ascii c in
  ((9 <=? n) && (n <=? 13)) || ((28 <=? n) && (n <=? 32))
  || (n =? 133) || (n =? 160).

(** [\d] on code points 0..255: the ASCII digits. *)
Definition is_digit (c : ascii) : bool :=
  let n := nat_of_ascii c in (48 <=? n) && (n <=? 57).

Definition digit_value (c : ascii) : nat := nat_of_ascii c - 48.

(** The class [[a-zA-Z@]]. *)
Definition is_cmd_letter (c : ascii) : bool :=
  let n := nat_of_ascii c in
  ((97 <=? n) && (n <=? 122)) || ((65 <=? n) && (n <=? 90)) || (n =? 64).

Fixpoint take_while (f : ascii -> bool) (l : text) : text :=
  match l with
  | c :: l' => if f c then c :: take_while f l' else []
  | [] => []
  end.

(** ** Tokenizer *)

Inductive Pattern :=
| TOKEN_COMMENT | TOKEN_COMMAND | TOKEN_PARAMETER
| TOKEN_LCB | TOKEN_RCB | TOKEN_WHITESPACE.

Global Instance Pattern_eq_dec : EqDecision Pattern.
Proof. solve_decision. Defined.

(** [Token]; [NoMatch] is the token whose pattern is [None]. *)
Record Token := mkToken {
  pattern : option Pattern;
  start : nat;
  end_ : nat;
  groups : list text
}.

Definition NoMatch (st en : nat) : Token := mkToken None st en [].

Definition get_text (txt : text) (t : Token) : text :=
  take (end_ t - start t) (drop (start t) txt).

Definition not_backslash (prev : option ascii) : bool :=
  match prev with
  | Some c => negb (bool_decide (c = "\"))
  | None => true
  end.

(** [match_at p prev rest]: the match of the regular expression [p] that
    starts where [rest] starts ([prev] is the character before it, for the
    look-behind): its length and its captured groups. *)
Definition match_at (p : Pattern) (prev : option ascii) (rest : text)
  : option (nat * list text) :=
  match p with
  | TOKEN_COMMENT =>                       (* %(.*\n?) *)
      match rest with
      | "%" :: r =>
          let line := take_while (fun c => negb (is_newline c)) r in
          let g := match drop (length line) r with
                   | c :: _ => line ++ [c]  (* the newline that stopped .* *)
                   | [] => line
                   end in
          Some (1 + length g, [g])
      | _ => None
      end
  | TOKEN_COMMAND =>                       (* \\([a-zA-Z@]{2,}|.) *)
      match rest with
      | "\" :: r =>
          let name := take_while is_cmd_letter r in
          if 2 <=? length name then Some (1 + length name, [name])
          else match r with
               | c :: _ => if is_newline c then None else Some (2, [[c]])
               | [] => None
               end
      | _ => None
      end
  | TOKEN_PARAMETER =>                     (* (#+)(\d) *)
      let hashes := take_while (fun c => bool_decide (c = "#")) rest in
      if 1 <=? length hashes then
        match drop (length hashes) rest with
        | d :: _ => if is_digit d then Some (length hashes + 1, [hashes; [d]])
                    else None
        | [] => None
        end
      else None
  | TOKEN_LCB =>                           (* (?<!\\)\{ *)
      match rest with
      | "{" :: _ => if not_backslash prev then Some (1, []) else None
      | _ => None
      end
  | TOKEN_RCB =>                           (* (?<!\\)} *)
      match rest with
      | "}" :: _ => if not_backslash prev then Some (1, []) else None
      | _ => None
      end
  | TOKEN_WHITESPACE =>                    (* (?<!\\)\s+ *)
      let ws := take_while is_space rest in
      if (1 <=? length ws) && not_backslash prev then Some (length ws, [])
      else None
  end.

(** The leftmost match starting at or after the head of [rest], which is at
    offset [pos]. *)
Fixpoint search_from (p : Pattern) (prev : option ascii) (rest : text)
    (pos : nat) : option Token :=
  match match_at p prev rest with
  | Some (len, g) => Some (mkToken (Some p) pos (pos + len) g)
  | None =>
      match rest with
      | c :: rest' => search_from p (Some c) rest' (S pos)
      | [] => None
      end
  end.

(** [pattern.search(text, pos)]: the look-behind sees the character before
    [pos]. *)
Definition search (p : Pattern) (txt : text) (pos : nat) : option Token :=
  if pos <=? length txt
  then search_from p (last (take pos txt)) (drop pos txt) pos
  else None.

(** [_update_token]: keep a token that has not been reached, search again
    otherwise. *)
Definition _update_token (txt : text) (pos : nat) (t : Token)
  : option Token :=
  if pos <=? start t then Some t
  else match pattern t with
       | Some p => search p txt pos
       | None => None
       end.

(** [min(tokens, key=lambda t: t.start)]: the first token of least start. *)
Fixpoint min_start (best : Token) (l : list Token) : Token :=
  match l with
  | t :: l' => min_start (if start t <? start best then t else best) l'
  | [] => best
  end.

(** The [while] loop of [tokenize]; the tokens yielded from scan position
    [i] on.  [None] when [fuel] iterations do not end the loop. *)
Fixpoint tokenize_loop (fuel : nat) (txt : text) (i : nat)
    (tokens : list Token) : option (list Token) :=
  match tokens with
  | t0 :: ts =>
      if i <? length txt then
        match fuel with
        | 0 => None
        | S fuel' =>
            let token := min_start t0 ts in
            let gap := if i <? start token then [NoMatch i (start token)]
                       else [] in
            let i' := end_ token in
            rest ← tokenize_loop fuel' txt i'
                     (omap (_update_token txt i') tokens);
            Some (gap ++ token :: rest)
        end
      else Some []
  | [] => Some (if i <? length txt then [NoMatch i (length txt)] else [])
  end.

Definition tokenize (patterns : list Pattern) (txt : text)
  : option (list Token) :=
  tokenize_loop (S (length txt)) txt 0
    (omap (fun p => search p txt 0) patterns).

Definition def_tokenizer : list Pattern :=
  [TOKEN_COMMENT; TOKEN_COMMAND; TOKEN_PARAMETER;
   TOKEN_LCB; TOKEN_RCB; TOKEN_WHITESPACE].

(** ** Errors *)

(** The [ValueError]s of the source by their message, and the built-in
    exceptions a misuse raises. *)
Inductive error :=
| InvalidInput              (* file and text can't both be set or unset! *)
| UnbalancedBrackets        (* Number of {s and }s don't match ... *)
| InvalidTokenType          (* Invalid token type *)
| RecursionLimitExceeded    (* Max recursion level reached *)
| UnexpectedEndOfInput      (* Unexpected end of tokens *)
| MalformedMacroName        (* Incorrectly formatted command name *)
| MalformedArgumentCount    (* Incorrectly formatted number of arguments *)
| MalformedParameter        (* Number of hashes ... must be power of 2 *)
| DuplicateMacro            (* Newcommand used for existing command *)
| PyIndexError | PyAttributeError | PyTypeError
| PyRecursionError | PyOverflowError.

(** A result, an exception, or a loop cut off by the fuel of the model. *)
Inductive res (A : Type) :=
| Ok (a : A)
| Err (e : error)
| OutOfFuel.
Arguments Ok {A} a.
Arguments Err {A} e.
Arguments OutOfFuel {A}.

Global Instance res_ret : MRet res := fun _ a => Ok a.
Global Instance res_bind : MBind res := fun _ _ f m =>
  match m with
  | Ok a => f a
  | Err e => Err e
  | OutOfFuel => OutOfFuel
  end.

(** ** Numbers *)

(** [int(s)] for a string: surrounding whitespace, an optional sign, then
    decimal digits with single underscores between them.  The whitespace
    [int] strips is TAB..CR and SPACE, and NEL and NBSP, which the conversion
    turns into spaces; FS..US, whitespace for [\s], are not stripped. *)
Fixpoint drop_while (f : ascii -> bool) (l : text) : text :=
  match l with
  | c :: l' => if f c then drop_while f l' else l
  | [] => []
  end.

Fixpoint int_digits (acc : Z) (after_digit : bool) (l : text) : option Z :=
  match l with
  | [] => if after_digit then Some acc else None
  | c :: l' =>
      if is_digit c then
        int_digits (10 * acc + Z.of_nat (digit_value c))%Z true l'
      else if bool_decide (c = "_") && after_digit then
        int_digits acc false l'
      else None
  end.

Definition is_int_space (c : ascii) : bool :=
  let n := nat_of_ascii c in
  ((9 <=? n) && (n <=? 13)) || (n =? 32) || (n =? 133) || (n =? 160).

Definition py_int (x : text) : option Z :=
  let x := reverse (drop_while is_int_space
                      (reverse (drop_while is_int_space x))) in
  match x with
  | "-" :: ds => z ← int_digits 0 false ds; Some (- z)%Z
  | "+" :: ds => int_digits 0 false ds
  | ds => int_digits 0 false ds
  end.

(** [str(n)] for a natural number. *)
Definition str_nat (n : nat) : text :=
  list_ascii_of_string (DecimalString.NilZero.string_of_uint (Nat.to_uint n)).

(** The value of [num_hashes]: an [int], or after [/= 2] a [float]; only
    floats of integral value are ever stored. *)
Inductive pynum :=
| PyInt (n : nat)
| PyFloat (n : nat).

Definition pynum_val (h : pynum) : nat :=
  match h with PyInt n | PyFloat n => n end.

(** The float nearest to an [int], ties to even: an [int] of more than 53
    bits is rounded to its 53 leading bits. *)
Definition float_of_int (n : N) : N :=
  let sh := (N.size n - 53)%N in
  if (sh =? 0)%N then n
  else
    let q := N.shiftr n sh in
    let r := N.land n (N.ones sh) in
    let half := N.shiftl 1 (sh - 1) in
    let q' := if (half <? r)%N || ((r =? half)%N && N.odd q)
              then N.succ q else q in
    N.shiftl q' sh.

(** [num_hashes /= 2], then [int(num_hashes) != num_hashes].  The division
    is the one of floats: the half of an [int] is the nearest float of the
    exact half, an [OverflowError] from 2^1024 on; the half of a float is
    exact.  A half that is not integral is the error of the source. *)
Definition halve (h : pynum) : res pynum :=
  match h with
  | PyInt n =>
      let x := float_of_int (N.of_nat n) in
      if (N.shiftl 1 1025 <=? x)%N then Err PyOverflowError
      else if N.even x then Ok (PyFloat (N.to_nat (N.div2 x)))
      else Err MalformedParameter
  | PyFloat v =>
      if Nat.even v then Ok (PyFloat (v / 2)) else Err MalformedParameter
  end.

Set Warnings "-register-all".

(** ** Nodes *)

(** What [GroupNode.data] holds during expansion: a reference to a macro
    table of the store, and the copy-on-write flag. *)
Record ScopeData := mkScope { macros : nat; copied : bool }.

Inductive Node :=
| TextNode (data : text)
| WhitespaceNode (data : text)
| CommandNode (data : text)
| CommentNode (data : text)
| ParameterNode (num_hashes : pynum) (param : nat)
| GroupNode (gdata : option ScopeData) (children : list Node)
| BracketNode (gdata : option ScopeData) (children : list Node).

(** [__str__]; ['#' * num_hashes] is a [TypeError] for a float. *)
Fixpoint Node_str (n : Node) : res text :=
  let join := fix join (l : list Node) : res text :=
    match l with
    | [] => Ok []
    | c :: l' => a ← Node_str c; b ← join l'; Ok (a ++ b)
    end in
  match n with
  | TextNode d | WhitespaceNode d => Ok d
  | CommandNode d => Ok ("\" :: d)
  | CommentNode d => Ok ("%" :: d)
  | ParameterNode (PyInt h) p => Ok (replicate h "#" ++ str_nat p)
  | ParameterNode (PyFloat _) _ => Err PyTypeError
  | GroupNode _ cs => join cs
  | BracketNode _ cs => x ← join cs; Ok ("{" :: x ++ ["}"])
  end.

(** [''.join(map(str, children))]. *)
Fixpoint join_str (l : list Node) : res text :=
  match l with
  | [] => Ok []
  | c :: l' => a ← Node_str c; b ← join_str l'; Ok (a ++ b)
  end.

Definition is_group (n : Node) : bool :=
  match n with GroupNode _ _ | BracketNode _ _ => true | _ => false end.

Definition is_bracket (n : Node) : bool :=
  match n with BracketNode _ _ => true | _ => false end.

Definition node_children (n : Node) : list Node :=
  match n with GroupNode _ cs | BracketNode _ cs => cs | _ => [] end.

Definition node_gdata (n : Node) : option ScopeData :=
  match n with GroupNode d _ | BracketNode d _ => d | _ => None end.

(** The group [n] with its data and children replaced. *)
Definition rebuild (n : Node) (d : option ScopeData) (cs : list Node)
  : Node :=
  match n with
  | BracketNode _ _ => BracketNode d cs
  | _ => GroupNode d cs
  end.

(** [GroupNode.copy] and [Node.copy]: a group is rebuilt by its class
    constructor (no data), a leaf is copied as it is.  There is no depth
    counter here. *)
Fixpoint copy (n : Node) : Node :=
  match n with
  | GroupNode _ cs => GroupNode None (map copy cs)
  | BracketNode _ cs => BracketNode None (map copy cs)
  | _ => n
  end.

(** The same copy as the interpreter makes it: the copy of a child is a
    call nested in the call that copies its group, no level is counted and
    nothing is checked, so the nesting of the tree is the nesting of the
    calls.  [room] is the number of nested calls of [copy] the stack still
    allows; a call beyond it is a [RecursionError].  What [copy.copy] calls
    for a leaf is the library's and is not counted. *)
Fixpoint copy_in (room : nat) (n : Node) : res Node :=
  match room with
  | 0 => Err PyRecursionError
  | S room' =>
      let copy_all := fix copy_all (l : list Node) : res (list Node) :=
        match l with
        | [] => Ok []
        | c :: l' => c' ← copy_in room' c; r ← copy_all l'; Ok (c' :: r)
        end in
      match n with
      | GroupNode _ cs => cs' ← copy_all cs; Ok (GroupNode None cs')
      | BracketNode _ cs => cs' ← copy_all cs; Ok (BracketNode None cs')
      | _ => Ok n
      end
  end.

(** [self.take(node)] on the child list of [self]. *)
Definition take_node (cs : list Node) (n : Node) : list Node :=
  if is_group n then cs ++ node_children n else cs ++ [n].

(** ** Tree builder *)

(** The cursor of [to_ast]: [cur] is the child list of [curr]; [up] holds,
    innermost first, the child lists of the groups above it, each without
    its last child, the open bracket group on the path to [curr].  [curr]
    is a [BracketNode] exactly when [up] is not empty. *)
Record Cursor := mkCursor { cur : list Node; up : list (list Node) }.

Definition cursor_add (c : Cursor) (n : Node) : Cursor :=
  mkCursor (cur c ++ [n]) (up c).

Definition to_ast_step (txt : text) (c : Cursor) (t : Token) : res Cursor :=
  match pattern t with
  | None => Ok (cursor_add c (TextNode (get_text txt t)))
  | Some TOKEN_WHITESPACE => Ok (cursor_add c (WhitespaceNode (get_text txt t)))
  | Some TOKEN_PARAMETER =>
      match groups t with
      | g0 :: g1 :: _ =>
          match py_int g1 with
          | Some z => Ok (cursor_add c (ParameterNode (PyInt (length g0))
                                                      (Z.to_nat z)))
          | None => Err InvalidTokenType
          end
      | _ => Err PyIndexError
      end
  | Some TOKEN_LCB => Ok (mkCursor [] (cur c :: up c))
  | Some TOKEN_RCB =>
      match up c with
      | [] => Err UnbalancedBrackets
      | p :: up' => Ok (mkCursor (p ++ [BracketNode None (cur c)]) up')
      end
  | Some TOKEN_COMMENT =>
      match groups t with
      | g0 :: _ => Ok (cursor_add c (CommentNode g0))
      | _ => Err PyIndexError
      end
  | Some TOKEN_COMMAND =>
      match groups t with
      | g0 :: _ => Ok (cursor_add c (CommandNode g0))
      | _ => Err PyIndexError
      end
  end.

Fixpoint to_ast_loop (txt : text) (c : Cursor) (l : list Token)
  : res Cursor :=
  match l with
  | [] => Ok c
  | t :: l' => c' ← to_ast_step txt c t; to_ast_loop txt c' l'
  end.

(** [to_ast(text, file, tokenizer)]; [file] stands for what reading it
    gives.  The result is [curr], the group the cursor ends on. *)
Definition to_ast (txt file : option text) (tokenizer : option (list Pattern))
  : res Node :=
  txt ← match txt, file with
        | Some x, None => Ok x
        | None, Some x => Ok x
        | _, _ => Err InvalidInput
        end;
  let tokenizer := default def_tokenizer tokenizer in
  match tokenize tokenizer txt with
  | None => OutOfFuel
  | Some toks =>
      c ← to_ast_loop txt (mkCursor [] []) toks;
      Ok (match up c with
          | [] => GroupNode None (cur c)
          | _ => BracketNode None (cur c)
          end)
  end.

Definition parse (x : string) : res Node := to_ast (Some (lit x)) None None.

(** ** The lookahead queue and [read_next] *)

(** An element of the queue of remaining siblings: the node, and whether
    its [parent] is set.  A node that has a parent has the group being
    filtered as its parent; a [TextNode] made by [read_next] has none. *)
Record QNode := mkQ { attached : bool; qnode : Node }.

Abbreviation Queue := (list QNode).

Definition enqueue (cs : list Node) : Queue := map (mkQ true) cs.

Definition is_skipped (n : Node) : bool :=
  match n with WhitespaceNode _ | CommentNode _ => true | _ => false end.

(** [read_next(it, error)]: the node returned ([None] at the end of the
    queue when [error] is off) and the queue left. *)
Fixpoint read_next (it : Queue) (error : bool) : res (option QNode * Queue) :=
  match it with
  | [] => if error then Err UnexpectedEndOfInput else Ok (None, [])
  | n :: it' =>
      if is_skipped (qnode n) then read_next it' error
      else
        match qnode n with
        | TextNode (c :: ((_ :: _) as rest)) =>
            Ok (Some (mkQ false (TextNode [c])),
                mkQ (attached n) (TextNode rest) :: it')
        | _ => Ok (Some n, it')
        end
  end.

(** ** The tree filter *)

Definition MAX_RECURSE_LEVEL : nat := 256.

(** What a rule can reach from the node [n] it is called on: the queue of
    remaining siblings, the children already added to [n.parent], the [data]
    of [n.parent], [n.parent.parent], ... ([chain]) and the store [S] of the
    objects the data refer to. *)
Record Ctx (S : Type) := mkCtx {
  queue : Queue;
  out : list Node;
  chain : list (option ScopeData);
  store : S
}.
Arguments mkCtx {S}.
Arguments queue {S}.
Arguments out {S}.
Arguments chain {S}.
Arguments store {S}.

Definition Rule (S : Type) : Type :=
  QNode -> Ctx S -> res (option Node * Ctx S).

(** The loop of [_do_filter] at [level]; the recursive call for a group the
    rule returns carries its level check.  One unit of [fuel] per
    iteration. *)
Fixpoint _do_filter_loop {S} (filter_func : Rule S) (fuel level : nat)
    (c : Ctx S) : res (Ctx S) :=
  match fuel with
  | 0 => OutOfFuel
  | Datatypes.S fuel' =>
      match queue c with
      | [] => Ok c
      | n :: children =>
          '(r, c1) ← filter_func n
                      (mkCtx children (out c) (chain c) (store c));
          match r with
          | None => _do_filter_loop filter_func fuel' level c1
          | Some n' =>
              if is_group n' then
                if MAX_RECURSE_LEVEL <? level + 1 then
                  Err RecursionLimitExceeded
                else
                  c2 ← _do_filter_loop filter_func fuel' (level + 1)
                         (mkCtx (enqueue (node_children n')) []
                                (node_gdata n' :: chain c1) (store c1));
                  _do_filter_loop filter_func fuel' level
                    (mkCtx (queue c1)
                           (out c1 ++ [rebuild n' (mjoin (head (chain c2)))
                                                  (out c2)])
                           (tail (chain c2)) (store c2))
              else
                _do_filter_loop filter_func fuel' level
                  (mkCtx (queue c1) (out c1 ++ [n']) (chain c1) (store c1))
          end
      end
  end.

(** [self.filter(filter_func, should_copy)] for a [self] without parent:
    the rule is called on the root with an empty queue, then [_do_filter]
    runs at level 0. *)
Definition filter {S} (filter_func : Rule S) (fuel : nat) (self : Node)
    (should_copy : bool) (st : S) : res (Node * S) :=
  '(r, c0) ← filter_func (mkQ false (if should_copy then copy self else self))
               (mkCtx [] [] [] st);
  match r with
  | Some obj =>
      if is_group obj then
        c ← _do_filter_loop filter_func fuel 0
              (mkCtx (enqueue (node_children obj)) [] [node_gdata obj]
                     (store c0));
        Ok (rebuild obj (mjoin (head (chain c))) (out c), store c)
      else Err PyAttributeError
  | None => Err PyAttributeError
  end.

(** [self.filter] with the copy as the interpreter makes it, on a stack
    with room for [room] nested calls of [copy]: the copy is made before
    [_do_filter] checks any level.  The calls of [_do_filter] nest as deep
    as its level check lets them, 257 at most. *)
Definition filter_in {S} (room : nat) (filter_func : Rule S) (fuel : nat)
    (self : Node) (should_copy : bool) (st : S) : res (Node * S) :=
  if should_copy then
    c ← copy_in room self; filter filter_func fuel c false st
  else filter filter_func fuel self false st.

(** [self.filter] for a [self] that has parents, whose data are [parents],
    innermost first: the rule is called on a node with a parent. *)
Definition filter_at {S} (parents : list (option ScopeData))
    (filter_func : Rule S) (fuel : nat) (self : Node) (should_copy : bool)
    (st : S) : res (Node * S) :=
  '(r, c0) ← filter_func
               (if should_copy then mkQ false (copy self)
                else mkQ (match parents with [] => false | _ => true end)
                         self)
               (mkCtx [] [] (if should_copy then [] else parents) st);
  match r with
  | Some obj =>
      if is_group obj then
        c ← _do_filter_loop filter_func fuel 0
              (mkCtx (enqueue (node_children obj)) []
                     (node_gdata obj :: chain c0) (store c0));
        Ok (rebuild obj (mjoin (head (chain c))) (out c), store c)
      else Err PyAttributeError
  | None => Err PyAttributeError
  end.

(** The number of nodes of a tree: the iterations a filter that keeps the
    tree as it is needs, at most. *)
Fixpoint node_size (n : Node) : nat :=
  let sum := fix sum (l : list Node) : nat :=
    match l with
    | [] => 0
    | c :: l' => node_size c + sum l'
    end in
  match n with
  | GroupNode _ cs | BracketNode _ cs => Datatypes.S (sum cs)
  | _ => 1
  end.

Fixpoint nodes_size (l : list Node) : nat :=
  match l with
  | [] => 0
  | c :: l' => node_size c + nodes_size l'
  end.

(** The nesting of groups below a node: 0 for a leaf and for a group
    without groups among its children. *)
Fixpoint depth (n : Node) : nat :=
  let deepest := fix deepest (l : list Node) : nat :=
    match l with
    | [] => 0
    | c :: l' => (if is_group c then Datatypes.S (depth c) else 0)
                   `max` deepest l'
    end in
  match n with
  | GroupNode _ cs | BracketNode _ cs => deepest cs
  | _ => 0
  end.

(** [clear_data]: the rule resets the data of every group. *)
Definition _clear_data {S} : Rule S := fun n c =>
  Ok (Some (if is_group (qnode n)
            then rebuild (qnode n) None (node_children (qnode n))
            else qnode n), c).

Definition clear_data (root : Node) : res Node :=
  '(r, _) ← filter _clear_data (Datatypes.S (node_size root)) root false tt;
  Ok r.

(** The rule that keeps every node. *)
Definition keep_all {S} : Rule S := fun n c => Ok (Some (qnode n), c).

(** ** Macro expansion: reading definitions and arguments *)

(** [read_next(it)] with the error on: a node, or the exception. *)
Definition read_next1 (it : Queue) : res (QNode * Queue) :=
  '(n, it') ← read_next it true;
  match n with
  | Some q => Ok (q, it')
  | None => Err UnexpectedEndOfInput
  end.

Definition is_text (n : Node) (x : string) : bool :=
  match n with
  | TextNode d => bool_decide (d = lit x)
  | _ => false
  end.

Definition _filter_children (node : Node) (filter_ws : bool) : option Node :=
  if is_group node then
    match List.filter
            (fun n => negb (match n with CommentNode _ => true | _ => false end)
                      && (negb (match n with WhitespaceNode _ => true
                                        | _ => false end)
                          || negb filter_ws))
            (node_children node) with
    | [c] => Some c
    | _ => None
    end
  else None.

(** What one [read_next] with the error on takes off the queue at least:
    a node, or a character of a text node. *)
Definition queue_measure (it : Queue) : nat :=
  foldr (fun q acc =>
           match qnode q with
           | TextNode d => Datatypes.S (length d) + acc
           | _ => 1 + acc
           end) 0 it.

Fixpoint _read_until_end_bracket_loop (fuel : nat) (it : Queue)
    (acc : list Node) : res (Node * Queue) :=
  match fuel with
  | 0 => OutOfFuel
  | Datatypes.S fuel' =>
      '(n, it') ← read_next1 it;
      if is_text (qnode n) "]" then Ok (GroupNode None acc, it')
      else _read_until_end_bracket_loop fuel' it' (acc ++ [qnode n])
  end.

Definition _read_until_end_bracket (it : Queue) : res (Node * Queue) :=
  _read_until_end_bracket_loop (Datatypes.S (queue_measure it)) it [].

Definition _read_command_name (it : Queue) : res (text * Queue) :=
  '(n, it) ← read_next1 it;
  '(n, it) ← (if is_text (qnode n) "*" then read_next1 it else Ok (n, it));
  match default (qnode n) (_filter_children (qnode n) true) with
  | CommandNode d => Ok (d, it)
  | _ => Err MalformedMacroName
  end.

Definition _extract_arguments (node : Node) : res nat :=
  match default node (_filter_children node true) with
  | TextNode d =>
      match py_int d with
      | Some z => if ((0 <=? z) && (z <? 10))%Z then Ok (Z.to_nat z)
                  else Err MalformedArgumentCount
      | None => Err MalformedArgumentCount
      end
  | _ => Err MalformedArgumentCount
  end.

Definition _extract_optional_argument (node : Node) : Node :=
  let node := match _filter_children node false with
              | Some n => if is_bracket n then n else node
              | None => node
              end in
  GroupNode None (take_node [] node).

Definition _get_bracket_args (it : Queue)
  : res (nat * option Node * QNode * Queue) :=
  '(temp, it) ← read_next1 it;
  '(args, temp, it) ←
    (if is_text (qnode temp) "[" then
       '(g, it) ← _read_until_end_bracket it;
       args ← _extract_arguments g;
       '(temp, it) ← read_next1 it;
       Ok (args, temp, it)
     else Ok (0, temp, it));
  '(dflt, temp, it) ←
    (if is_text (qnode temp) "[" then
       '(g, it) ← _read_until_end_bracket it;
       '(temp, it) ← read_next1 it;
       Ok (Some (_extract_optional_argument g), temp, it)
     else Ok (None, temp, it));
  Ok (args, dflt, temp, it).

(** ** Macro expansion: tables, substitution, the rule *)

(** The body of a macro: a tree, or a callable. *)
Inductive Body :=
| Template (g : Node)
| Native (f : list Node -> res Node).

(** An entry of a macro table: the keys ['args'], ['default'], ['body']. *)
Record Macro := mkMacro {
  m_args : nat;
  m_default : option Node;
  m_body : Body
}.

Abbreviation Table := (gmap text Macro).

(** The store: the macro tables ([dict] objects) made so far; a reference
    is an index.  [macros.copy()] adds a table. *)
Abbreviation Heap := (list Table).

Definition deref (h : Heap) (l : nat) : Table := default ∅ (h !! l).

(** [params[param - 1]]: index [-1] is the last element. *)
Definition params_at (params : list Node) (param : nat) : option Node :=
  match param with
  | 0 => last params
  | Datatypes.S k => params !! k
  end.

Definition _do_replace {S} (params : list Node) : Rule S := fun n c =>
  match qnode n with
  | ParameterNode h p =>
      if pynum_val h =? 1 then
        if attached n then
          match params_at params p with
          | Some a => Ok (None, mkCtx (queue c) (take_node (out c) (copy a))
                                      (chain c) (store c))
          | None => Err PyIndexError
          end
        else Err PyAttributeError
      else
        h' ← halve h; Ok (Some (ParameterNode h' p), c)
  | m => Ok (Some m, c)
  end.

Definition _replace_parameters (root : Node) (params : list Node)
  : res Node :=
  '(r, _) ← filter (_do_replace params) (Datatypes.S (node_size root))
              root true tt;
  Ok r.

Fixpoint read_args (n : nat) (it : Queue) (tokens : list Node)
  : res (list Node * Queue) :=
  match n with
  | 0 => Ok (tokens, it)
  | Datatypes.S n' =>
      '(a, it') ← read_next1 it;
      read_args n' it' (tokens ++ [qnode a])
  end.

(** [_expand_macro(it, data, parent)]: the queue after the arguments are
    read and the expansion is put in front. *)
Definition _expand_macro (it : Queue) (data : Macro) : res Queue :=
  '(tokens, it) ←
    (if 0 <? m_args data then
       '(tokens, args, it) ←
         match m_default data with
         | Some dflt =>
             '(temp, it) ← read_next it false;
             match temp with
             | Some q =>
                 if is_text (qnode q) "[" then
                   '(g, it) ← _read_until_end_bracket it;
                   let g := match _filter_children g false with
                            | Some g2 => if is_bracket g2 then g2 else g
                            | None => g
                            end in
                   Ok ([g], m_args data - 1, it)
                 else Ok ([dflt], m_args data - 1, q :: it)
             | None => Ok ([dflt], m_args data - 1, it)
             end
         | None => Ok ([], m_args data, it)
         end;
       read_args args it tokens
     else Ok ([], it));
  temp ← match m_body data with
         | Native f => f tokens
         | Template g => _replace_parameters g tokens
         end;
  if is_group temp then Ok (enqueue (node_children temp) ++ it)
  else Err PyAttributeError.

(** [n.parent.data], set from [n.parent.parent.data] when it is [None]. *)
Definition parent_scope (ch : list (option ScopeData))
  : res (ScopeData * list (option ScopeData)) :=
  match ch with
  | Some d :: up => Ok (d, up)
  | None :: (Some pd :: _) as up => Ok (mkScope (macros pd) false, up)
  | None :: (None :: _) => Err PyTypeError
  | None :: [] => Err PyAttributeError
  | [] => Err PyAttributeError
  end.

(** [_check_macros]: the first definition of a level copies the table. *)
Definition _check_macros (d : ScopeData) (h : Heap) : ScopeData * Heap :=
  if copied d then (d, h)
  else (mkScope (length h) true, h ++ [deref h (macros d)]).

(** [macros[name] = data] on the table the level owns. *)
Definition define (name : text) (data : Macro) (d : ScopeData) (h : Heap)
  : Heap :=
  <[macros d := <[name := data]> (deref h (macros d))]> h.

Definition name_in (x : text) (l : list string) : bool :=
  bool_decide (x ∈ map lit l).

(** The name after [\begin] or [\end]: [str(temp)], without its braces
    for a bracket group. *)
Definition env_name (temp : Node) : res text :=
  name ← Node_str temp;
  Ok (if is_bracket temp then take (length name - 2) (drop 1 name)
      else name).

Definition _process : Rule Heap := fun n c =>
  if negb (attached n) then Ok (Some (qnode n), c) else
  '(d, up) ← parent_scope (chain c);
  let c := mkCtx (queue c) (out c) (Some d :: up) (store c) in
  let table := deref (store c) (macros d) in
  match qnode n with
  | CommandNode cmd =>
      if name_in cmd ["newcommand"; "renewcommand";
                      "providecommand"]%string then
        '(name, it) ← _read_command_name (queue c);
        '(args, dflt, temp, it) ← _get_bracket_args it;
        let body := GroupNode None (take_node [] (qnode temp)) in
        let data := mkMacro args dflt (Template body) in
        if name_in cmd ["newcommand"]%string
           && bool_decide (is_Some (table !! name))
        then Err DuplicateMacro
        else if negb (name_in cmd ["providecommand"]%string)
                || negb (bool_decide (is_Some (table !! name))) then
          let '(d', h') := _check_macros d (store c) in
          Ok (None, mkCtx it (out c) (Some d' :: up) (define name data d' h'))
        else Ok (None, mkCtx it (out c) (chain c) (store c))
      else if name_in cmd ["newenvironment"; "renewenvironment"]%string then
        '(temp, it) ← read_next1 (queue c);
        name ← env_name (qnode temp);
        '(args, dflt, temp, it) ← _get_bracket_args it;
        let begin_body := GroupNode None (take_node [] (qnode temp)) in
        '(temp, it) ← read_next1 it;
        let end_body := GroupNode None (take_node [] (qnode temp)) in
        if name_in cmd ["newenvironment"]%string
           && bool_decide (is_Some (table !! name))
        then Err DuplicateMacro
        else
          let '(d', h') := _check_macros d (store c) in
          let h' := define name (mkMacro args dflt (Template begin_body))
                      d' h' in
          let h' := define (lit "end" ++ name)
                      (mkMacro 0 None (Template end_body)) d' h' in
          Ok (None, mkCtx it (out c) (Some d' :: up) h')
      else
        match table !! cmd with
        | Some data =>
            it ← _expand_macro (queue c) data;
            Ok (None, mkCtx it (out c) (chain c) (store c))
        | None =>
            if name_in cmd ["begin"; "end"]%string then
              '(temp, it) ← read_next1 (queue c);
              name ← env_name (qnode temp);
              let name := if name_in cmd ["end"]%string then lit "end" ++ name
                          else name in
              match table !! name with
              | Some data =>
                  it ← _expand_macro it data;
                  Ok (None, mkCtx it (out c) (chain c) (store c))
              | None =>
                  Ok (Some (qnode n),
                      mkCtx (temp :: it) (out c) (chain c) (store c))
              end
            else Ok (Some (qnode n), c)
        end
  | m => Ok (Some m, c)
  end.

(** [Demacro.demacro(root)] on an engine whose table is [self_macros], for
    a [root] without parent: the tree returned and the table the engine
    holds afterwards. *)
Definition demacro (fuel : nat) (self_macros : Table) (root : Node)
  : res (Node * Table) :=
  if is_group root then
    let root := rebuild root (Some (mkScope 0 false)) (node_children root) in
    '(root, h) ← filter _process fuel root false [self_macros];
    let self_macros := deref h (default 0 (macros <$> node_gdata root)) in
    root ← clear_data root;
    Ok (root, self_macros)
  else Err PyAttributeError.

(** [Demacro.demacro(root)] for a [root] whose parents have the data
    [parents], innermost first. *)
Definition demacro_at (parents : list (option ScopeData)) (fuel : nat)
    (self_macros : Table) (root : Node) : res (Node * Table) :=
  if is_group root then
    let root := rebuild root (Some (mkScope 0 false)) (node_children root) in
    '(root, h) ← filter_at parents _process fuel root false [self_macros];
    let self_macros := deref h (default 0 (macros <$> node_gdata root)) in
    root ← clear_data root;
    Ok (root, self_macros)
  else Err PyAttributeError.

(** The parents of the node [to_ast] returns for a text: none for the root
    group, and for a bracket group left open the groups it is nested in,
    none of which has data. *)
Definition to_ast_parents (txt : text) : list (option ScopeData) :=
  match tokenize def_tokenizer txt with
  | Some toks =>
      match to_ast_loop txt (mkCursor [] []) toks with
      | Ok c => map (fun _ => None) (up c)
      | _ => []
      end
  | None => []
  end.

(** Parsing, expanding with an empty table and printing. *)
Definition expand_text (fuel : nat) (x : string) : res text :=
  root ← parse x;
  '(root, _) ← demacro_at (to_ast_parents (lit x)) fuel ∅ root;
  Node_str root.

(** * Specifications *)

(** ** Tokenizer *)

(** The spans of [toks] follow one another from [i] to [n], none empty. *)
Fixpoint covers (i : nat) (toks : list Token) (n : nat) : Prop :=
  match toks with
  | [] => i = n
  | t :: r => start t = i /\ i < end_ t /\ covers (end_ t) r n
  end.

(** The token sequence from scan position [i], as the selection rule gives
    it: every scan searches every pattern again from [i]. *)
Inductive Scan (patterns : list Pattern) (txt : text)
  : nat -> list Token -> Prop :=
| Scan_done i :
    length txt <= i \/ (forall p, p ∈ patterns -> search p txt i = None) ->
    Scan patterns txt i
      (if i <? length txt then [NoMatch i (length txt)] else [])
| Scan_match i l1 p l2 t rest :
    i < length txt ->
    patterns = l1 ++ p :: l2 ->
    search p txt i = Some t ->
    (forall q t', q ∈ l1 -> search q txt i = Some t' -> start t < start t') ->
    (forall q t', q ∈ l2 -> search q txt i = Some t' ->
                  start t <= start t') ->
    Scan patterns txt (end_ t) rest ->
    Scan patterns txt i
      ((if i <? start t then [NoMatch i (start t)] else []) ++ t :: rest).

(** ** Tree builder *)

(** The braces of a text as the text shows them: a brace counts when no
    backslash stands before it.  [unescaped_depth prev d l] is the nesting
    depth after [l], starting at depth [d]; [None] when a closing brace has
    no opening brace left to match. *)
Fixpoint unescaped_depth (prev : option ascii) (d : nat) (l : text)
  : option nat :=
  match l with
  | [] => Some d
  | c :: l' =>
      if not_backslash prev && bool_decide (c = "{") then
        unescaped_depth (Some c) (S d) l'
      else if not_backslash prev && bool_decide (c = "}") then
        match d with
        | 0 => None
        | S d' => unescaped_depth (Some c) d' l'
        end
      else unescaped_depth (Some c) d l'
  end.

(** Equal counts of unescaped braces in valid nesting. *)
Definition unescaped_balanced (txt : text) : Prop :=
  unescaped_depth None 0 txt = Some 0.

(** An unescaped closing brace that matches no opening brace. *)
Definition unescaped_extra_close (txt : text) : Prop :=
  unescaped_depth None 0 txt = None.

(** The braces of a text as the tokenizer gives them: the left-brace and
    right-brace tokens. *)
Definition brace_step (d : nat) (t : Token) : option nat :=
  match pattern t with
  | Some TOKEN_LCB => Some (S d)
  | Some TOKEN_RCB => match d with 0 => None | S d' => Some d' end
  | _ => Some d
  end.

Fixpoint brace_depth (d : nat) (toks : list Token) : option nat :=
  match toks with
  | [] => Some d
  | t :: r => d' ← brace_step d t; brace_depth d' r
  end.

(** The brace tokens of [txt] are in valid nesting and all closed. *)
Definition brace_tokens_balanced (txt : text) : Prop :=
  exists toks, tokenize def_tokenizer txt = Some toks
               /\ brace_depth 0 toks = Some 0.

(** The text of the tree under construction: the groups above the cursor,
    each up to its open bracket, then the children of the cursor. *)
Fixpoint up_text (u : list (list Node)) : res text :=
  match u with
  | [] => Ok []
  | p :: u' => a ← up_text u'; b ← join_str p; Ok (a ++ b ++ ["{"])
  end.

(** What a match of pattern [p] with groups [g] and text [x] looks like. *)
Definition token_shape (p : Pattern) (g : list text) (x : text) : Prop :=
  match p with
  | TOKEN_COMMENT => exists g0, g = [g0] /\ x = "%" :: g0
  | TOKEN_COMMAND => exists g0, g = [g0] /\ x = "\" :: g0
  | TOKEN_PARAMETER =>
      exists h d, g = [replicate h "#"; [d]] /\ is_digit d = true
                  /\ x = replicate h "#" ++ [d]
  | TOKEN_LCB => x = ["{"]
  | TOKEN_RCB => x = ["}"]
  | TOKEN_WHITESPACE => True
  end.

(** A token of the text: a no-match token, or a match some search gave. *)
Definition genuine (txt : text) (t : Token) : Prop :=
  match pattern t with
  | None => True
  | Some p => exists j, search p txt j = Some t
  end.

(** ** Tree filter *)

(** The deepest nesting of groups in a list of nodes, the list's own level
    counted. *)
Fixpoint depth_list (l : list Node) : nat :=
  match l with
  | [] => 0
  | c :: l' => (if is_group c then S (depth c) else 0) `max` depth_list l'
  end.

(** The nesting of the calls a copy of the tree makes: one call for a
    leaf, and for a group one call around the calls for its children. *)
Fixpoint copy_calls (n : Node) : nat :=
  let deepest := fix deepest (l : list Node) : nat :=
    match l with
    | [] => 0
    | c :: l' => copy_calls c `max` deepest l'
    end in
  match n with
  | GroupNode _ cs | BracketNode _ cs => S (deepest cs)
  | _ => 1
  end.

Fixpoint copy_calls_list (l : list Node) : nat :=
  match l with
  | [] => 0
  | c :: l' => copy_calls c `max` copy_calls_list l'
  end.

(** [k + 1] bracket groups, one inside the other. *)
Fixpoint nest (k : nat) : Node :=
  match k with
  | 0 => BracketNode None []
  | S k' => BracketNode None [nest k']
  end.

(** ** Parameter substitution *)

(** What stands between the brackets of a default or an override: the
    nodes read, or the children of a brace group that is the only one. *)
Definition bracket_content (cs : list Node) : list Node :=
  match cs with
  | [BracketNode _ inner] => inner
  | _ => cs
  end.

(** The positional argument a parameter index stands for. *)
Definition positional (params : list Node) (p : nat) : option Node :=
  match p with
  | 0 => None
  | S k => params !! k
  end.

(** The nodes that take the place of a node of a macro body: the argument
    (its children, when it is a group) for a parameter of hash count 1; the
    parameter with half the hash count for another hash count, or the error
    of [halve]; a group with its children substituted. *)
Fixpoint subst_node (params : list Node) (n : Node) : res (list Node) :=
  let subst_all := fix subst_all (l : list Node) : res (list Node) :=
    match l with
    | [] => Ok []
    | c :: l' => a ← subst_node params c; b ← subst_all l'; Ok (a ++ b)
    end in
  match n with
  | ParameterNode h p =>
      if pynum_val h =? 1 then
        match positional params p with
        | Some a => Ok (if is_group a then node_children (copy a)
                        else [copy a])
        | None => Err PyIndexError
        end
      else h' ← halve h; Ok [ParameterNode h' p]
  | GroupNode d cs => cs' ← subst_all cs; Ok [GroupNode d cs']
  | BracketNode d cs => cs' ← subst_all cs; Ok [BracketNode d cs']
  | _ => Ok [n]
  end.

Fixpoint subst_list (params : list Node) (l : list Node)
  : res (list Node) :=
  match l with
  | [] => Ok []
  | c :: l' =>
      a ← subst_node params c; b ← subst_list params l'; Ok (a ++ b)
  end.

(** Every parameter of the tree has an index of 1 or more. *)
Fixpoint params_positive (n : Node) : bool :=
  match n with
  | ParameterNode _ p => 1 <=? p
  | GroupNode _ cs | BracketNode _ cs => forallb params_positive cs
  | _ => true
  end.

(** ** Macro tables *)

(** The table the group being filtered consults: the one its data refer
    to. *)
Definition scope_table (c : Ctx Heap) : option Table :=
  match chain c with
  | Some d :: _ => Some (deref (store c) (macros d))
  | _ => None
  end.

(** The outcome [r] of a definition command: the command is dropped, the
    queue is left at [it], the table of the level holds [data] under [name],
    and a later command of that name at this level, unless it is a definition
    command itself, is expanded with [data]. *)
Definition registered (r : res (option Node * Ctx Heap)) (name : text)
    (data : Macro) (it : Queue) : Prop :=
  exists c',
    r = Ok (None, c') /\ queue c' = it
    /\ (exists t, scope_table c' = Some t /\ t !! name = Some data)
    /\ (name_in name ["newcommand"; "renewcommand"; "providecommand";
                      "newenvironment"; "renewenvironment"]%string = false ->
        forall q o,
          _process (mkQ true (CommandNode name))
                   (mkCtx q o (chain c') (store c'))
          = it' ← _expand_macro q data;
            Ok (None, mkCtx it' o (chain c') (store c'))).

(** ** Scopes *)

(** No group of the tree carries data: the state of a tree that [to_ast]
    or [copy] has made. *)
Fixpoint clean (n : Node) : bool :=
  match n with
  | GroupNode d cs | BracketNode d cs =>
      match d with None => forallb clean cs | Some _ => false end
  | _ => true
  end.

Definition clean_queue (q : Queue) : Prop :=
  Forall (fun x => clean (qnode x) = true) q.

Definition is_template (m : Macro) : Prop :=
  match m_body m with Template _ => True | Native _ => False end.

(** Every macro of every table has a tree as its body, as the definition
    commands make them. *)
Definition templates_only (h : Heap) : Prop :=
  Forall (map_Forall (fun _ m => is_template m)) h.

(** The table a level has made for itself, if it has. *)
Definition own (d : option ScopeData) : option nat :=
  match d with
  | Some d => if copied d then Some (macros d) else None
  | None => None
  end.

(** What processing at a level whose data go from [hd] to [hd1] does to
    the store: no table is removed, the tables there were are as they
    were, the level's own table apart, and a table the level makes for
    itself is a new one. *)
Definition frame (hd hd1 : option ScopeData) (h h1 : Heap) : Prop :=
  length h <= length h1
  /\ (forall l, l < length h -> own hd <> Some l -> h1 !! l = h !! l)
  /\ (own hd1 = own hd \/ exists l, own hd1 = Some l /\ length h <= l).

(** ** Expansion without macros *)

(** The tree without the data of its groups: what [clear_data] returns. *)
Fixpoint strip (n : Node) : Node :=
  match n with
  | GroupNode _ cs => GroupNode None (map strip cs)
  | BracketNode _ cs => BracketNode None (map strip cs)
  | _ => n
  end.

Definition is_definition_command (n : Node) : bool :=
  match n with
  | CommandNode c =>
      name_in c ["newcommand"; "renewcommand"; "providecommand";
                 "newenvironment"; "renewenvironment"]%string
  | _ => false
  end.

Definition is_begin_end (n : Node) : bool :=
  match n with
  | CommandNode c => name_in c ["begin"; "end"]%string
  | _ => false
  end.

(** A tree that defines nothing: no definition command in it, and after
    every [\begin] and [\end] the node that follows at once is neither
    whitespace nor a comment. *)
Fixpoint plain (n : Node) : bool :=
  let plain_all := fix plain_all (l : list Node) : bool :=
    match l with
    | [] => true
    | c :: l' =>
        plain c
        && (if is_begin_end c
            then match l' with m :: _ => negb (is_skipped m) | [] => false end
            else true)
        && plain_all l'
    end in
  match n with
  | GroupNode _ cs | BracketNode _ cs => plain_all cs
  | _ => negb (is_definition_command n)
  end.

Fixpoint plain_list (l : list Node) : bool :=
  match l with
  | [] => true
  | c :: l' =>
      plain c
      && (if is_begin_end c
          then match l' with m :: _ => negb (is_skipped m) | [] => false end
          else true)
      && plain_list l'
  end.

(** A bound on the iterations of the filter under [_process] on a plain
    tree: a text node counts its characters, since [\begin] and [\end] split
    the text after them. *)
Fixpoint weight (n : Node) : nat :=
  let weight_all := fix weight_all (l : list Node) : nat :=
    match l with
    | [] => 0
    | c :: l' => weight c + weight_all l'
    end in
  match n with
  | TextNode d => 1 + length d
  | CommandNode _ => 3
  | GroupNode _ cs | BracketNode _ cs => 1 + weight_all cs
  | _ => 1
  end.

Fixpoint weight_list (l : list Node) : nat :=
  match l with
  | [] => 0
  | c :: l' => weight c + weight_list l'
  end.

(** The data of every level of an expansion that defines nothing: the
    table of the engine, never copied. *)
Definition s0 : ScopeData := mkScope 0 false.

(** The data of the group being filtered are set, or are still to be set
    from the data of the group above. *)
Definition chain_ok (ch : list (option ScopeData)) : Prop :=
  match ch with
  | Some d :: _ => d = s0
  | None :: Some d :: _ => d = s0
  | _ => False
  end.

(** Every group of the queue has its parent set and carries no data. *)
Definition queue_ok (q : Queue) : Prop :=
  Forall (fun y => (attached y = true \/ is_group (qnode y) = false)
                   /\ clean (qnode y) = true) q.

(** * Further functions of the source *)

(** ** [fix_whitespace] *)

(** [str.isalpha] on code points 0..255: the ASCII letters, the ordinal
    indicators, the micro sign and the letters of 192..255. *)
Definition is_alpha (c : ascii) : bool :=
  let n := nat_of_ascii c in
  ((65 <=? n) && (n <=? 90)) || ((97 <=? n) && (n <=? 122))
  || (n =? 170) || (n =? 181) || (n =? 186)
  || ((192 <=? n) && (n <=? 214)) || ((216 <=? n) && (n <=? 246))
  || ((248 <=? n) && (n <=? 255)).

(** [data[0].isalpha()]; an [IndexError] on empty data. *)
Definition first_alpha (d : text) : res bool :=
  match d with
  | c :: _ => Ok (is_alpha c)
  | [] => Err PyIndexError
  end.

Definition _fix_whitespace {S} : Rule S := fun n c =>
  match queue c return res (option Node * Ctx S) with
  | m :: _ =>
      match qnode n with
      | CommandNode d =>
          a ← first_alpha d;
          if (a : bool) then
            match qnode m with
            | TextNode d' =>
                b ← first_alpha d';
                if (b : bool) then
                  Ok (Some (qnode n),
                      mkCtx (mkQ (attached n) (WhitespaceNode (lit " "))
                               :: queue c)
                            (out c) (chain c) (store c))
                else Ok (Some (qnode n), c)
            | _ => Ok (Some (qnode n), c)
            end
          else Ok (Some (qnode n), c)
      | _ => Ok (Some (qnode n), c)
      end
  | [] => Ok (Some (qnode n), c)
  end.

(** [fix_whitespace(root)]: every node gives one iteration and at most one
    more for the space put after it. *)
Definition fix_whitespace (root : Node) : res Node :=
  '(r, _) ← filter _fix_whitespace (S (weight root)) root true tt;
  Ok r.

(** ** [Demacro.add_macros] *)

(** The ['body'] of a macro given to [add_macros]: LaTeX text, or a callable
    with the number of its parameters. *)
Inductive SpecBody :=
| BodyText (b : text)
| BodyCallable (arity : nat) (f : list Node -> res Node).

(** A value of the dictionary given to [add_macros]: ['body'], and the
    optional ['args'] and ['default']. *)
Record MacroSpec := mkSpec {
  sp_body : SpecBody;
  sp_args : option nat;
  sp_default : option text
}.

(** One turn of the loop of [add_macros]. *)
Definition add_macro (replace : bool) (tbl : Table) (k : text)
    (v : MacroSpec) : res Table :=
  '(args, body) ←
    match sp_body v with
    | BodyCallable arity f => Ok (arity, Native f)
    | BodyText b =>
        temp ← to_ast (Some b) None None;
        Ok (0, Template (GroupNode None (take_node [] temp)))
    end;
  let args := default args (sp_args v) in
  dflt ← match sp_default v with
         | Some x =>
             r ← to_ast (Some x) None None;
             Ok (Some (_extract_optional_argument r))
         | None => Ok None
         end;
  Ok (if replace || negb (bool_decide (is_Some (tbl !! k)))
      then <[k := mkMacro args dflt body]> tbl
      else tbl).

(** [add_macros(macros, replace)] on the table of the engine; [macros] in
    the order of its items. *)
Fixpoint add_macros (replace : bool) (tbl : Table)
    (l : list (text * MacroSpec)) : res Table :=
  match l with
  | [] => Ok tbl
  | (k, v) :: l' => tbl' ← add_macro replace tbl k v; add_macros replace tbl' l'
  end.

(** * Further specifications *)

(** No parameter of the tree has a float as its hash count. *)
Fixpoint no_float (n : Node) : bool :=
  match n with
  | ParameterNode (PyFloat _) _ => false
  | GroupNode _ cs | BracketNode _ cs => forallb no_float cs
  | _ => true
  end.

(** Some parameter of the tree has a hash count other than 1. *)
Fixpoint has_kept_parameter (n : Node) : bool :=
  match n with
  | ParameterNode h _ => negb (pynum_val h =? 1)
  | GroupNode _ cs | BracketNode _ cs => existsb has_kept_parameter cs
  | _ => false
  end.

(** No pattern has a match that starts inside a no-match token, and no two
    no-match tokens follow one another. *)
Fixpoint literal_gaps (patterns : list Pattern) (txt : text)
    (toks : list Token) : Prop :=
  match toks with
  | [] => True
  | t :: r =>
      match pattern t with
      | None =>
          (forall p t', p ∈ patterns -> search p txt (start t) = Some t' ->
                        end_ t <= start t')
          /\ match r with
             | t2 :: _ => pattern t2 <> None
             | [] => True
             end
      | Some p => p ∈ patterns
      end
      /\ literal_gaps patterns txt r
  end.

(** The nodes the builder holds carry no data and no float. *)
Definition built (l : list Node) : Prop :=
  forallb clean l = true /\ forallb no_float l = true.

(** What [read_next] returns: a node that is neither whitespace nor
    comment, a text of one character at most. *)
Definition unit_node (n : Node) : bool :=
  negb (is_skipped n)
  && match n with TextNode d => length d <=? 1 | _ => true end.

(** The outcome [r] of an environment definition: the command is dropped,
    the queue is left at [it], and the table of the level holds the begin
    code under the name and the end code under [end] and the name. *)
Definition env_registered (r : res (option Node * Ctx Heap)) (name : text)
    (begin_m end_m : Macro) (it : Queue) : Prop :=
  exists c' t,
    r = Ok (None, c') /\ queue c' = it /\ scope_table c' = Some t
    /\ t !! name = Some begin_m /\ t !! (lit "end" ++ name) = Some end_m.

(** Where [fix_whitespace] puts a space: between a command and a text
    that both begin with a letter. *)
Definition needs_space (n : Node) (l : list Node) : bool :=
  match n, l with
  | CommandNode (c :: _), TextNode (c' :: _) :: _ => is_alpha c && is_alpha c'
  | _, _ => false
  end.

(** The tree with the spaces of [fix_whitespace]. *)
Fixpoint fix_node (n : Node) : Node :=
  let fix_all := fix fix_all (l : list Node) : list Node :=
    match l with
    | [] => []
    | c :: l' =>
        fix_node c :: (if needs_space c l'
                       then WhitespaceNode (lit " ") :: fix_all l'
                       else fix_all l')
    end in
  match n with
  | GroupNode d cs => GroupNode d (fix_all cs)
  | BracketNode d cs => BracketNode d (fix_all cs)
  | _ => n
  end.

Fixpoint fix_list (l : list Node) : list Node :=
  match l with
  | [] => []
  | c :: l' =>
      fix_node c :: (if needs_space c l'
                     then WhitespaceNode (lit " ") :: fix_list l'
                     else fix_list l')
  end.

(** No command and no text of the tree has empty data. *)
Fixpoint nonempty_data (n : Node) : bool :=
  match n with
  | CommandNode [] | TextNode [] => false
  | GroupNode _ cs | BracketNode _ cs => forallb nonempty_data cs
  | _ => true
  end.

(** No place of the tree needs a space. *)
Fixpoint spaced (n : Node) : bool :=
  let spaced_all := fix spaced_all (l : list Node) : bool :=
    match l with
    | [] => true
    | c :: l' => spaced c && negb (needs_space c l') && spaced_all l'
    end in
  match n with
  | GroupNode _ cs | BracketNode _ cs => spaced_all cs
  | _ => true
  end.

Fixpoint spaced_list (l : list Node) : bool :=
  match l with
  | [] => true
  | c :: l' => spaced c && negb (needs_space c l') && spaced_list l'
  end.

(** The table a level reads: the one its data refer to, or the one of the
    level above while its data are not set. *)
Definition scope_ref (ch : list (option ScopeData)) : option nat :=
  match ch with
  | Some d :: _ => Some (macros d)
  | None :: Some pd :: _ => Some (macros pd)
  | _ => None
  end.

(** The nodes [read_next] can still return from a queue, one call after
    the other: a text counts its characters, an empty text and every other
    node that is neither whitespace nor comment count once. *)
Fixpoint units (it : Queue) : nat :=
  match it with
  | [] => 0
  | q :: it' =>
      (if is_skipped (qnode q) then 0
       else match qnode q with
            | TextNode d => length d `max` 1
            | _ => 1
            end) + units it'
  end.

(** The node [t] at the front of a queue once [read_next] has returned
    from it and the caller has put the returned node back: a text of more
    than one character is in two pieces. *)
Definition put_back (t : QNode) : Queue :=
  match qnode t with
  | TextNode (c :: ((_ :: _) as rest)) =>
      [mkQ false (TextNode [c]); mkQ (attached t) (TextNode rest)]
  | _ => [t]
  end.

(** The queue after a lookahead: the whitespace and comments at its front
    are gone, and the first other node is as [put_back] leaves it. *)
Fixpoint after_lookahead (it : Queue) : Queue :=
  match it with
  | [] => []
  | q :: it' =>
      if is_skipped (qnode q) then after_lookahead it'
      else put_back q ++ it'
  end.

(** The next character of the queue, past whitespace and comments, is the
    text [ch]. *)
Fixpoint next_is (ch : ascii) (it : Queue) : bool :=
  match it with
  | [] => false
  | q :: it' =>
      if is_skipped (qnode q) then next_is ch it'
      else match qnode q with
           | TextNode (c :: _) => bool_decide (c = ch)
           | _ => false
           end
  end.

(** What may stand before the name in a definition: whitespace and
    comments, with one text [*] among them at most. *)
Definition name_prefix (pre : Queue) : Prop :=
  exists ws1 star ws2,
    pre = ws1 ++ star ++ ws2 /\ units ws1 = 0 /\ units ws2 = 0
    /\ (star = [] \/ exists a, star = [mkQ a (TextNode (lit "*"))]).

(** The body of a macro applied to the arguments read, and the expansion
    put in front of the queue. *)
Definition instantiate (data : Macro) (tokens : list Node) (it : Queue)
  : res Queue :=
  temp ← match m_body data with
         | Native f => f tokens
         | Template g => _replace_parameters g tokens
         end;
  if is_group temp then Ok (enqueue (node_children temp) ++ it)
  else Err PyAttributeError.

(** The forms of a command name in a definition: the command, or a group
    whose only child apart from whitespace and comments is the command. *)
Definition names (n : Node) (d : text) : Prop :=
  n = CommandNode d
  \/ (is_group n = true
      /\ List.filter (fun m => negb (is_skipped m)) (node_children n)
         = [CommandNode d]).

(** * Proofs *)

(** ** Tokenizer *)

Lemma take_while_length f l : length (take_while f l) <= length l.
Proof. induction l as [|c l IH]; simpl; [lia|]. destruct (f c); simpl; lia. Qed.

Lemma drop_cons_length {A} (l : list A) n c r :
  drop n l = c :: r -> n < length l.
Proof.
  intros H. destruct (decide (n < length l)) as [|Hn]; [done|].
  rewrite drop_ge in H by lia. done.
Qed.

Lemma match_at_len p prev rest len g :
  match_at p prev rest = Some (len, g) -> 0 < len <= length rest.
Proof.
  destruct p; unfold match_at.
  - destruct rest as [|c r]; [done|].
    destruct (decide (c = "%")) as [->|];
      [cbv beta iota|by destruct c as [[] [] [] [] [] [] [] []]].
    set (line := take_while _ r).
    pose proof (take_while_length (fun c => negb (is_newline c)) r) as Hl.
    fold line in Hl.
    destruct (drop (length line) r) as [|c' t] eqn:Hd.
    + intros [= <- <-]. simpl. lia.
    + apply drop_cons_length in Hd. intros [= <- <-].
      rewrite length_app. simpl. lia.
  - destruct rest as [|c r]; [done|].
    destruct (decide (c = "\")) as [->|];
      [cbv beta iota|by destruct c as [[] [] [] [] [] [] [] []]].
    pose proof (take_while_length is_cmd_letter r) as Hl.
    destruct (2 <=? _) eqn:E.
    + intros [= <- <-]. simpl. lia.
    + destruct r as [|c' r']; [done|]. destruct (is_newline c'); [done|].
      intros [= <- <-]. simpl. lia.
  - set (hs := take_while _ rest).
    destruct (1 <=? length hs) eqn:E; [|done].
    destruct (drop (length hs) rest) as [|d t] eqn:Hd; [done|].
    apply drop_cons_length in Hd. destruct (is_digit d); [|done].
    intros [= <- <-]. lia.
  - destruct rest as [|c r]; [done|].
    destruct c as [[] [] [] [] [] [] [] []]; try done.
    destruct (not_backslash prev); [|done]. intros [= <- <-]. simpl. lia.
  - destruct rest as [|c r]; [done|].
    destruct c as [[] [] [] [] [] [] [] []]; try done.
    destruct (not_backslash prev); [|done]. intros [= <- <-]. simpl. lia.
  - pose proof (take_while_length is_space rest) as Hl.
    destruct (1 <=? _) eqn:E; simpl; [|done].
    destruct (not_backslash prev); [|done].
    intros [= <- <-]. apply Nat.leb_le in E. lia.
Qed.

Lemma search_from_bounds p prev rest pos t :
  search_from p prev rest pos = Some t ->
  pattern t = Some p /\ pos <= start t /\ start t < end_ t
  /\ end_ t <= pos + length rest.
Proof.
  revert prev pos. induction rest as [|c rest IH]; intros prev pos; simpl.
  - destruct (match_at p prev []) as [[len g]|] eqn:E; [|done].
    apply match_at_len in E. simpl in E. lia.
  - destruct (match_at p prev (c :: rest)) as [[len g]|] eqn:E.
    + apply match_at_len in E. simpl in E. intros [= <-]. simpl.
      split; [done|lia].
    + intros H. apply IH in H. destruct H as [? ?]. split; [done|lia].
Qed.

Lemma search_bounds p txt i t :
  search p txt i = Some t ->
  pattern t = Some p /\ i <= start t /\ start t < end_ t
  /\ end_ t <= length txt.
Proof.
  unfold search. destruct (i <=? length txt) eqn:E; [|done].
  apply Nat.leb_le in E. intros H. apply search_from_bounds in H.
  rewrite length_drop in H. destruct H as [? ?]. split; [done|lia].
Qed.

(** One step of the search: a match at [i], or the search from [i + 1]. *)
Lemma search_step p txt i :
  i < length txt ->
  search p txt i =
    match match_at p (last (take i txt)) (drop i txt) with
    | Some (len, g) => Some (mkToken (Some p) i (i + len) g)
    | None => search p txt (S i)
    end.
Proof.
  intros Hi. unfold search.
  destruct (i <=? length txt) eqn:E1; [|apply Nat.leb_gt in E1; lia].
  destruct (S i <=? length txt) eqn:E2; [|apply Nat.leb_gt in E2; lia].
  destruct (lookup_lt_is_Some_2 txt i Hi) as [c Hc].
  rewrite (drop_S _ _ _ Hc). simpl.
  destruct (match_at _ _ _) as [[len g]|]; [done|].
  by rewrite (take_S_r _ _ _ Hc), last_snoc.
Qed.

Lemma search_end p txt i : length txt <= i -> search p txt i = None.
Proof.
  intros Hi. destruct (search p txt i) as [t|] eqn:E; [|done].
  apply search_bounds in E. lia.
Qed.

(** A match found from [i] is the match found from any position up to its
    start; without a match from [i] there is none later. *)
Lemma search_later p txt i j :
  i <= j ->
  match search p txt i with
  | Some t => j <= start t -> search p txt j = Some t
  | None => search p txt j = None
  end.
Proof.
  intros Hij. induction Hij as [|j Hij IH].
  - by destruct (search p txt i).
  - destruct (decide (j < length txt)) as [Hj|Hj].
    + rewrite (search_step p txt j Hj) in IH.
      destruct (search p txt i) as [t|].
      * intros Ht. destruct (match_at _ _ _) as [[len g]|].
        -- assert (j <= start t) as H by lia. apply IH in H.
           injection H as <-. simpl in Ht. lia.
        -- apply IH. lia.
      * by destruct (match_at _ _ _) as [[len g]|].
    + rewrite (search_end p txt (S j)) by lia.
      destruct (search p txt i) as [t|] eqn:E; [|done].
      apply search_bounds in E. lia.
Qed.

Lemma min_start_split pre best mid ts :
  (forall x, x ∈ pre -> start best < start x) ->
  (forall x, x ∈ mid -> start best <= start x) ->
  exists a b,
    pre ++ best :: mid ++ ts = a ++ min_start best ts :: b
    /\ (forall x, x ∈ a -> start (min_start best ts) < start x)
    /\ (forall x, x ∈ b -> start (min_start best ts) <= start x).
Proof.
  revert pre best mid. induction ts as [|t ts IH]; intros pre best mid Hp Hm.
  - exists pre, mid. by rewrite app_nil_r.
  - simpl. destruct (start t <? start best) eqn:E.
    + apply Nat.ltb_lt in E.
      destruct (IH (pre ++ best :: mid) t []) as (a & b & Heq & Ha & Hb).
      * intros x [Hx|Hx]%elem_of_app; [specialize (Hp x Hx); lia|].
        apply elem_of_cons in Hx as [->|Hx]; [lia|].
        specialize (Hm x Hx). lia.
      * intros x Hx. by apply elem_of_nil in Hx.
      * exists a, b. split; [|done]. rewrite <- Heq.
        by rewrite <- !app_assoc.
    + apply Nat.ltb_ge in E.
      destruct (IH pre best (mid ++ [t])) as (a & b & Heq & Ha & Hb).
      * done.
      * intros x [Hx|Hx]%elem_of_app; [by apply Hm|].
        apply list_elem_of_singleton in Hx as ->. lia.
      * exists a, b. split; [|done]. rewrite <- Heq.
        by rewrite <- !app_assoc.
Qed.

Lemma omap_split {A B} (f : A -> option B) (l : list A) a m b :
  omap f l = a ++ m :: b ->
  exists l1 p l2, l = l1 ++ p :: l2 /\ f p = Some m
                  /\ omap f l1 = a /\ omap f l2 = b.
Proof.
  revert a. induction l as [|x l IH]; intros a; simpl.
  - by destruct a.
  - destruct (f x) as [y|] eqn:E.
    + destruct a as [|a0 a]; simpl.
      * intros [= -> <-]. exists [], x, l. by rewrite E.
      * intros [= -> H]. apply IH in H as (l1 & p & l2 & -> & ? & ? & ?).
        exists (x :: l1), p, l2. simpl. rewrite E. by subst.
    + intros H. apply IH in H as (l1 & p & l2 & -> & ? & ? & ?).
      exists (x :: l1), p, l2. simpl. by rewrite E.
Qed.

Lemma omap_elem {A B} (f : A -> option B) (l : list A) x y :
  x ∈ l -> f x = Some y -> y ∈ omap f l.
Proof. intros. apply list_elem_of_omap. eauto. Qed.

(** The cached matches, brought to a later scan position, are what a fresh
    search from there gives. *)
Lemma omap_cons {A B} (f : A -> option B) x (l : list A) :
  omap f (x :: l)
  = match f x with Some y => y :: omap f l | None => omap f l end.
Proof. done. Qed.

Lemma update_tokens txt (patterns : list Pattern) i j :
  i <= j ->
  omap (_update_token txt j) (omap (fun p => search p txt i) patterns)
  = omap (fun p => search p txt j) patterns.
Proof.
  intros Hij. induction patterns as [|p ps IH]; [done|].
  rewrite !omap_cons.
  pose proof (search_later p txt i j Hij) as Hl.
  destruct (search p txt i) as [t|] eqn:E.
  - rewrite omap_cons, IH. unfold _update_token.
    destruct (j <=? start t) eqn:Ej.
    + apply Nat.leb_le in Ej. by rewrite (Hl Ej).
    + apply search_bounds in E as [-> _].
      by destruct (search p txt j).
  - by rewrite Hl, IH.
Qed.

Lemma tokenize_loop_scan (patterns : list Pattern) txt fuel i :
  length txt - i < fuel ->
  exists toks,
    tokenize_loop fuel txt i (omap (fun p => search p txt i) patterns)
    = Some toks
    /\ Scan patterns txt i toks.
Proof.
  revert i. induction fuel as [|fuel IH]; intros i Hf; [lia|].
  destruct (omap (fun p => search p txt i) patterns) as [|t0 ts] eqn:Hts.
  - simpl. eexists; split; [done|]. apply Scan_done. right. intros p Hp.
    destruct (search p txt i) as [t|] eqn:E; [|done].
    pose proof (omap_elem (fun p => search p txt i) _ _ _ Hp E) as Hin.
    rewrite Hts in Hin.
    by apply elem_of_nil in Hin.
  - cbn [tokenize_loop]. destruct (i <? length txt) eqn:Ei.
    + apply Nat.ltb_lt in Ei.
      destruct (min_start_split [] t0 [] ts) as (a & b & Heq & Ha & Hb);
        [by intros x Hx%elem_of_nil..|].
      simpl in Heq. rewrite <- Hts in Heq at 1.
      apply omap_split in Heq as (l1 & p & l2 & -> & Hp & <- & <-).
      set (token := min_start t0 ts) in *.
      pose proof (search_bounds _ _ _ _ Hp) as (_ & Hs1 & Hs2 & Hs3).
      rewrite <- Hts, (update_tokens txt _ i (end_ token)) by lia.
      destruct (IH (end_ token)) as (rest & -> & Hrest); [lia|].
      simpl. eexists; split; [done|].
      eapply Scan_match; eauto.
      * intros q t' Hq Ht'. apply Ha.
        by apply (omap_elem (fun p => search p txt i) _ q).
      * intros q t' Hq Ht'. apply Hb.
        by apply (omap_elem (fun p => search p txt i) _ q).
    + eexists; split; [done|].
      pose proof (Scan_done patterns txt i) as H. rewrite Ei in H.
      apply H. left. apply Nat.ltb_ge in Ei. lia.
Qed.

Lemma get_text_span txt i j :
  i <= j <= length txt ->
  get_text txt (mkToken None i j []) ++ drop j txt = drop i txt.
Proof.
  intros Hij. unfold get_text. simpl.
  rewrite <- (take_drop (j - i) (drop i txt)) at 2.
  f_equal. rewrite drop_drop. f_equal. lia.
Qed.

Lemma get_text_drop txt t :
  start t <= end_ t <= length txt ->
  get_text txt t ++ drop (end_ t) txt = drop (start t) txt.
Proof.
  intros H. rewrite <- (get_text_span txt (start t) (end_ t) H).
  done.
Qed.

Lemma Scan_covers patterns txt i toks :
  Scan patterns txt i toks -> i <= length txt ->
  covers i toks (length txt)
  /\ concat (map (get_text txt) toks) = drop i txt.
Proof.
  induction 1 as [i Hd|i l1 p l2 t rest Hi -> Hp H1 H2 Hr IH]; intros Hle.
  - destruct (i <? length txt) eqn:Ei.
    + apply Nat.ltb_lt in Ei. simpl. split; [lia|].
      rewrite app_nil_r. unfold get_text. simpl.
      rewrite take_ge; [done|]. rewrite length_drop. lia.
    + apply Nat.ltb_ge in Ei. simpl. split; [lia|].
      by rewrite drop_ge.
  - pose proof (search_bounds _ _ _ _ Hp) as (_ & Hs1 & Hs2 & Hs3).
    destruct (IH Hs3) as [Hc Hcat].
    destruct (i <? start t) eqn:Ei; simpl.
    + apply Nat.ltb_lt in Ei. split; [repeat split; [lia..|done]|].
      rewrite Hcat, get_text_drop by lia.
      apply (get_text_span txt i (start t)). lia.
    + apply Nat.ltb_ge in Ei. assert (start t = i) as Hst by lia.
      split; [repeat split; [lia..|done]|].
      rewrite Hcat, get_text_drop by lia. by rewrite Hst.
Qed.

(** The tokenizer ends on every text, follows the selection rule and
    covers the text. *)
Lemma tokenize_scan (patterns : list Pattern) (txt : text) :
  exists toks,
    tokenize patterns txt = Some toks
    /\ covers 0 toks (length txt)
    /\ concat (map (get_text txt) toks) = txt
    /\ Scan patterns txt 0 toks.
Proof.
  destruct (tokenize_loop_scan patterns txt (S (length txt)) 0)
    as (toks & Ht & Hs); [lia|].
  exists toks. destruct (Scan_covers _ _ _ _ Hs) as [Hc Hcat]; [lia|].
  by rewrite drop_0 in Hcat.
Qed.

(** C2: on every text and every list of patterns [tokenize] ends; the spans
    of its tokens, no-match tokens included, follow one another from 0 to the
    end of the text and their texts concatenate to the text; and every
    matched token is the match of least start at or after the scan position,
    the first listed pattern winning a tie. *)
Theorem tokenize_covers_and_selects (patterns : list Pattern) (txt : text) :
  exists toks,
    tokenize patterns txt = Some toks
    /\ covers 0 toks (length txt)
    /\ concat (map (get_text txt) toks) = txt
    /\ Scan patterns txt 0 toks.
Proof. apply tokenize_scan. Qed.

(** ** Tree builder *)

Lemma take_while_split f l :
  l = take_while f l ++ drop (length (take_while f l)) l.
Proof.
  induction l as [|c l IH]; simpl; [done|].
  destruct (f c); simpl; congruence.
Qed.

Lemma take_while_hashes l :
  take_while (fun c => bool_decide (c = "#")) l
  = replicate (length (take_while (fun c => bool_decide (c = "#")) l)) "#".
Proof.
  induction l as [|c l IH]; simpl; [done|].
  case_bool_decide as Hc; simpl; [|done]. by rewrite <- IH, Hc.
Qed.

Lemma match_at_shape p prev rest len g :
  match_at p prev rest = Some (len, g) -> token_shape p g (take len rest).
Proof.
  destruct p; unfold match_at, token_shape.
  - destruct rest as [|c r]; [done|].
    destruct (decide (c = "%")) as [->|];
      [cbv beta iota|by destruct c as [[] [] [] [] [] [] [] []]].
    set (line := take_while _ r).
    pose proof (take_while_split (fun c => negb (is_newline c)) r) as Hs.
    fold line in Hs.
    destruct (drop (length line) r) as [|c' t] eqn:Hd; intros [= <- <-];
      eexists; (split; [done|]); simpl; f_equal; rewrite Hs.
    + rewrite app_nil_r. by rewrite take_ge.
    + rewrite length_app. simpl.
      rewrite take_app_add'; [|done]. simpl. by rewrite take_0.
  - destruct rest as [|c r]; [done|].
    destruct (decide (c = "\")) as [->|];
      [cbv beta iota|by destruct c as [[] [] [] [] [] [] [] []]].
    pose proof (take_while_split is_cmd_letter r) as Hs.
    destruct (2 <=? _) eqn:E.
    + intros [= <- <-]. eexists; split; [done|]. simpl. f_equal.
      rewrite Hs at 2. by rewrite take_app_length.
    + destruct r as [|c' r']; [done|]. destruct (is_newline c'); [done|].
      intros [= <- <-]. eexists; split; [done|]. simpl. by rewrite take_0.
  - pose proof (take_while_split (fun c => bool_decide (c = "#")) rest) as Hs.
    pose proof (take_while_hashes rest) as Hh.
    set (hs := take_while _ rest) in *.
    destruct (1 <=? length hs) eqn:E; [|done].
    destruct (drop (length hs) rest) as [|d t] eqn:Hd; [done|].
    destruct (is_digit d) eqn:Ed; [|done].
    intros [= <- <-]. exists (length hs), d. rewrite <- Hh.
    split; [done|]. split; [done|].
    rewrite Hs. rewrite take_app_add'; [|done]. simpl. by rewrite take_0.
  - destruct rest as [|c r]; [done|].
    destruct (decide (c = "{")) as [->|];
      [cbv beta iota|by destruct c as [[] [] [] [] [] [] [] []]].
    destruct (not_backslash prev); [|done]. intros [= <- <-].
    simpl. by rewrite take_0.
  - destruct rest as [|c r]; [done|].
    destruct (decide (c = "}")) as [->|];
      [cbv beta iota|by destruct c as [[] [] [] [] [] [] [] []]].
    destruct (not_backslash prev); [|done]. intros [= <- <-].
    simpl. by rewrite take_0.
  - done.
Qed.

Lemma search_shape p txt j t :
  search p txt j = Some t -> token_shape p (groups t) (get_text txt t).
Proof.
  intros Hs. pose proof (search_bounds _ _ _ _ Hs) as (_ & H1 & H2 & H3).
  pose proof (search_later p txt j (start t) H1) as Hl. rewrite Hs in Hl.
  specialize (Hl (Nat.le_refl _)).
  rewrite search_step in Hl by lia.
  destruct (match_at _ _ _) as [[len g]|] eqn:E.
  - apply match_at_shape in E. injection Hl as Hl. rewrite <- Hl at 1 2.
    unfold get_text. rewrite <- Hl at 1. simpl.
    by replace (start t + len - start t) with len by lia.
  - apply search_bounds in Hl. lia.
Qed.

Lemma Scan_genuine patterns txt i toks :
  Scan patterns txt i toks -> Forall (genuine txt) toks.
Proof.
  induction 1 as [i Hd|i l1 p l2 t rest Hi -> Hp H1 H2 Hr IH].
  - destruct (i <? length txt); by repeat constructor.
  - assert (genuine txt t) as Hg.
    { unfold genuine. apply search_bounds in Hp as Hb.
      destruct Hb as [-> _]. by exists i. }
    destruct (i <? start t); simpl; repeat constructor; done.
Qed.

Lemma Node_str_group d cs : Node_str (GroupNode d cs) = join_str cs.
Proof. simpl. induction cs as [|c cs IH]; simpl; [done|]. by rewrite IH. Qed.

Lemma Node_str_bracket d cs :
  Node_str (BracketNode d cs) = x ← join_str cs; Ok ("{" :: x ++ ["}"]).
Proof.
  assert (forall l, (fix join (l : list Node) : res text :=
                       match l with
                       | [] => Ok []
                       | c :: l' => a ← Node_str c; b ← join l'; Ok (a ++ b)
                       end) l = join_str l) as H.
  { induction l as [|c l IH]; simpl; [done|]. by rewrite IH. }
  simpl. by rewrite H.
Qed.

Lemma join_str_snoc l n a b :
  join_str l = Ok a -> Node_str n = Ok b -> join_str (l ++ [n]) = Ok (a ++ b).
Proof.
  revert a. induction l as [|c l IH]; intros a; simpl.
  - intros [= <-] ->. simpl. by rewrite app_nil_r.
  - destruct (Node_str c) as [x| |]; simpl; [|done..].
    destruct (join_str l) as [y| |] eqn:E; simpl; [|done..].
    intros [= <-] Hn. rewrite (IH y eq_refl Hn). simpl.
    by rewrite app_assoc.
Qed.

Lemma digit_roundtrip d :
  is_digit d = true ->
  py_int [d] = Some (Z.of_nat (digit_value d))
  /\ str_nat (digit_value d) = [d].
Proof. destruct d as [[] [] [] [] [] [] [] []]; by vm_compute. Qed.

Lemma take_get_text txt t :
  start t <= end_ t ->
  take (start t) txt ++ get_text txt t = take (end_ t) txt.
Proof.
  intros H. unfold get_text. rewrite take_take_drop. f_equal. lia.
Qed.

(** One token: the builder fails exactly on a right brace at the root, and
    otherwise the text of the tree grows by the text of the token. *)
Lemma to_ast_step_text txt c t a b :
  genuine txt t -> start t <= end_ t ->
  up_text (up c) = Ok a -> join_str (cur c) = Ok b ->
  a ++ b = take (start t) txt ->
  match brace_step (length (up c)) t with
  | None => to_ast_step txt c t = Err UnbalancedBrackets
  | Some d' =>
      exists c' a' b',
        to_ast_step txt c t = Ok c' /\ length (up c') = d'
        /\ up_text (up c') = Ok a' /\ join_str (cur c') = Ok b'
        /\ a' ++ b' = take (end_ t) txt
  end.
Proof.
  intros Hg Hse Ha Hb Hab. pose proof (take_get_text txt t Hse) as Ht.
  rewrite <- Hab in Ht. unfold genuine in Hg.
  unfold brace_step, to_ast_step. destruct (pattern t) as [p|] eqn:Hp.
  - destruct Hg as [j Hj]. apply search_shape in Hj as Hsh.
    destruct p; simpl in Hsh.
    + destruct Hsh as (g0 & Hg0 & Hx). rewrite Hg0.
      eexists _, a, _. split; [done|]. split; [done|]. split; [done|].
      split; [by apply (join_str_snoc _ (CommentNode g0)) |].
      simpl. by rewrite <- Hx, app_assoc.
    + destruct Hsh as (g0 & Hg0 & Hx). rewrite Hg0.
      eexists _, a, _. split; [done|]. split; [done|]. split; [done|].
      split; [by apply (join_str_snoc _ (CommandNode g0)) |].
      simpl. by rewrite <- Hx, app_assoc.
    + destruct Hsh as (h & d & Hg0 & Hd & Hx). rewrite Hg0.
      destruct (digit_roundtrip d Hd) as [-> Hstr].
      rewrite Nat2Z.id, length_replicate.
      eexists _, a, _. split; [done|]. split; [done|]. split; [done|].
      split; [by apply (join_str_snoc _ (ParameterNode (PyInt h) _)) |].
      simpl. by rewrite Hstr, <- Hx, app_assoc.
    + eexists _, _, []. split; [done|]. split; [done|]. simpl.
      rewrite Ha, Hb. simpl. split; [done|]. split; [done|].
      by rewrite app_nil_r, <- Ht, Hsh, app_assoc.
    + destruct (up c) as [|pa u] eqn:Hu; simpl; [done|].
      simpl in Ha.
      destruct (up_text u) as [a0| |] eqn:Hup; simpl in Ha; [|done..].
      destruct (join_str pa) as [b0| |] eqn:Hpa; simpl in Ha; [|done..].
      injection Ha as <-.
      eexists _, a0, _. split; [done|]. split; [done|]. split; [done|].
      split.
      * apply (join_str_snoc _ (BracketNode None (cur c))); [done|].
        rewrite Node_str_bracket, Hb. done.
      * simpl. rewrite <- Ht, Hsh. by rewrite <- !app_assoc.
    + eexists _, a, _. split; [done|]. split; [done|]. split; [done|].
      split; [by apply (join_str_snoc _ (WhitespaceNode _)) |].
      by rewrite app_assoc.
  - eexists _, a, _. split; [done|]. split; [done|]. split; [done|].
    split; [by apply (join_str_snoc _ (TextNode _)) |].
    by rewrite app_assoc.
Qed.

Lemma to_ast_loop_text txt n toks : forall c a b i,
  Forall (genuine txt) toks -> covers i toks n ->
  up_text (up c) = Ok a -> join_str (cur c) = Ok b ->
  a ++ b = take i txt ->
  match brace_depth (length (up c)) toks with
  | None => to_ast_loop txt c toks = Err UnbalancedBrackets
  | Some d' =>
      exists c' a' b',
        to_ast_loop txt c toks = Ok c' /\ length (up c') = d'
        /\ up_text (up c') = Ok a' /\ join_str (cur c') = Ok b'
        /\ a' ++ b' = take n txt
  end.
Proof.
  induction toks as [|t toks IH]; intros c a b i Hg Hc Ha Hb Hab.
  - simpl in *. subst i. by exists c, a, b.
  - apply Forall_cons in Hg as [Hg Hgs]. destruct Hc as (Hst & Hlt & Hc).
    subst i. simpl.
    pose proof (to_ast_step_text txt c t a b Hg ltac:(lia) Ha Hb Hab) as Hs.
    destruct (brace_step (length (up c)) t) as [d1|]; simpl.
    + destruct Hs as (c1 & a1 & b1 & -> & <- & Ha1 & Hb1 & Hab1). simpl.
      by apply (IH c1 a1 b1 (end_ t)).
    + by rewrite Hs.
Qed.

(** The builder on a text, by the brace tokens of the text. *)
Lemma to_ast_by_brace_depth txt :
  exists toks,
    tokenize def_tokenizer txt = Some toks
    /\ match brace_depth 0 toks with
       | None => to_ast (Some txt) None None = Err UnbalancedBrackets
       | Some d =>
           exists cs,
             to_ast (Some txt) None None
             = Ok (if d =? 0 then GroupNode None cs else BracketNode None cs)
             /\ (d = 0 -> join_str cs = Ok txt)
       end.
Proof.
  destruct (tokenize_scan def_tokenizer txt)
    as (toks & Ht & Hc & _ & Hs).
  exists toks. split; [done|].
  apply Scan_genuine in Hs.
  pose proof (to_ast_loop_text txt (length txt) toks (mkCursor [] []) [] [] 0
                Hs Hc eq_refl eq_refl eq_refl) as H.
  unfold to_ast. simpl in *. rewrite Ht.
  destruct (brace_depth 0 toks) as [d|].
  - destruct H as (c & a & b & -> & Hd & Ha & Hb & Hab). simpl.
    exists (cur c). destruct (up c) as [|pa u]; simpl in *; subst d.
    + split; [done|]. intros _. injection Ha as <-.
      simpl in Hab. rewrite take_ge in Hab by done. by rewrite Hb, Hab.
    + split; [done|]. lia.
  - by rewrite H.
Qed.

(** C1, as stated, fails: in [{%}] both braces are unescaped and nest, but
    the closing one is part of the comment; the tree returned is the open
    bracket group, whose text has one more brace. *)
Lemma roundtrip_counterexample :
  unescaped_balanced (lit "{%}")
  /\ ~ (exists root, to_ast (Some (lit "{%}")) None None = Ok root
                    /\ Node_str root = Ok (lit "{%}")).
Proof.
  split; [by vm_compute|]. intros (root & Hr & Hs).
  vm_compute in Hr. injection Hr as <-. by vm_compute in Hs.
Qed.

(** C1, amended: for every text whose brace tokens are balanced in valid
    nesting, [to_ast] returns a tree and the string of the tree is the
    text. *)
Theorem to_ast_roundtrip (txt : text) :
  brace_tokens_balanced txt ->
  exists root, to_ast (Some txt) None None = Ok root
               /\ Node_str root = Ok txt.
Proof.
  intros (toks & Ht & Hd).
  destruct (to_ast_by_brace_depth txt) as (toks' & Ht' & H).
  rewrite Ht in Ht'. injection Ht' as <-. rewrite Hd in H.
  destruct H as (cs & Hr & Hs). simpl in Hr.
  exists (GroupNode None cs). split; [done|].
  rewrite Node_str_group. by apply Hs.
Qed.

Lemma to_ast_roundtrip_witness :
  brace_tokens_balanced (lit "\foo{a {\}#2}}%c}
 \\ ##1")
  /\ exists root,
       to_ast (Some (lit "\foo{a {\}#2}}%c}
 \\ ##1")) None None = Ok root
       /\ Node_str root = Ok (lit "\foo{a {\}#2}}%c}
 \\ ##1").
Proof.
  assert (brace_tokens_balanced (lit "\foo{a {\}#2}}%c}
 \\ ##1")) as H.
  { eexists. split; vm_compute; reflexivity. }
  split; [exact H|]. exact (to_ast_roundtrip _ H).
Defined.

(** C3, as stated, fails in both halves: the braces of [%{], newline, [}]
    are unescaped and nest, but the opening one is part of the comment and
    [to_ast] raises; the brace of [%}] is unescaped and unmatched, but it is
    part of the comment and [to_ast] returns. *)
Lemma unbalanced_counterexample :
  (unescaped_balanced (lit "%{
}")
   /\ to_ast (Some (lit "%{
}")) None None = Err UnbalancedBrackets)
  /\ (unescaped_extra_close (lit "%}")
      /\ to_ast (Some (lit "%}")) None None
         = Ok (GroupNode None [CommentNode (lit "}")])).
Proof. by vm_compute. Qed.

(** C3, amended: [to_ast] raises [UnbalancedBrackets] when a right-brace
    token has no open left-brace token before it, and returns a tree when
    the brace tokens are in valid nesting. *)
Theorem to_ast_unbalanced (txt : text) :
  exists toks,
    tokenize def_tokenizer txt = Some toks
    /\ match brace_depth 0 toks with
       | None => to_ast (Some txt) None None = Err UnbalancedBrackets
       | Some _ => exists root, to_ast (Some txt) None None = Ok root
       end.
Proof.
  destruct (to_ast_by_brace_depth txt) as (toks & Ht & H).
  exists toks. split; [done|].
  destruct (brace_depth 0 toks) as [d|]; [|done].
  destruct H as (cs & Hr & _). eauto.
Qed.

(** ** Tree filter *)

(** Induction on trees. *)
Lemma Node_induction (P : Node -> Prop) :
  (forall d, P (TextNode d)) ->
  (forall d, P (WhitespaceNode d)) ->
  (forall d, P (CommandNode d)) ->
  (forall d, P (CommentNode d)) ->
  (forall h p, P (ParameterNode h p)) ->
  (forall d cs, Forall P cs -> P (GroupNode d cs)) ->
  (forall d cs, Forall P cs -> P (BracketNode d cs)) ->
  forall n, P n.
Proof.
  intros H1 H2 H3 H4 H5 H6 H7.
  fix IH 1. intros [d|d|d|d|h p|d cs|d cs].
  - apply H1.
  - apply H2.
  - apply H3.
  - apply H4.
  - apply H5.
  - apply H6. induction cs as [|c cs IHcs]; constructor;
      [apply IH|exact IHcs].
  - apply H7. induction cs as [|c cs IHcs]; constructor;
      [apply IH|exact IHcs].
Qed.

Lemma depth_group n :
  is_group n = true -> depth n = depth_list (node_children n).
Proof.
  destruct n as [| | | | |d cs|d cs]; try done; intros _; simpl;
    induction cs as [|c cs IH]; simpl; congruence.
Qed.

Lemma node_size_group n :
  is_group n = true -> node_size n = S (nodes_size (node_children n)).
Proof.
  destruct n as [| | | | |d cs|d cs]; try done; intros _; simpl; f_equal;
    induction cs as [|c cs IH]; simpl; congruence.
Qed.

Lemma node_size_pos n : 0 < node_size n.
Proof. destruct n; simpl; lia. Qed.

Lemma rebuild_same n :
  is_group n = true -> rebuild n (node_gdata n) (node_children n) = n.
Proof. by destruct n. Qed.

Lemma qnode_enqueue l : map qnode (enqueue l) = l.
Proof. unfold enqueue. rewrite <- list_fmap_compose. apply list_fmap_id. Qed.

(** The loop of the filter under the rule that keeps every node: it fails
    when a group lies more than [MAX_RECURSE_LEVEL] levels down, and adds
    the queue to the output otherwise. *)
Lemma _do_filter_loop_keep_all fuel : forall level q o ch,
  nodes_size (map qnode q) < fuel ->
  level <= MAX_RECURSE_LEVEL ->
  _do_filter_loop keep_all fuel level (mkCtx q o ch tt)
  = if MAX_RECURSE_LEVEL <? level + depth_list (map qnode q)
    then Err RecursionLimitExceeded
    else Ok (mkCtx [] (o ++ map qnode q) ch tt).
Proof.
  induction fuel as [|fuel IH]; intros level q o ch Hf Hl; [lia|].
  destruct q as [|[at_ n] q].
  - simpl. rewrite app_nil_r, Nat.add_0_r.
    destruct (MAX_RECURSE_LEVEL <? level) eqn:E; [|done].
    apply Nat.ltb_lt in E. lia.
  - cbn [_do_filter_loop queue keep_all qnode mbind res_bind out chain store].
    cbn [map qnode depth_list nodes_size] in *.
    destruct (is_group n) eqn:Hg.
    + rewrite (node_size_group n Hg) in Hf.
      destruct (MAX_RECURSE_LEVEL <? level + 1) eqn:E1.
      * apply Nat.ltb_lt in E1.
        destruct (MAX_RECURSE_LEVEL <? _) eqn:E2; [done|].
        apply Nat.ltb_ge in E2. lia.
      * apply Nat.ltb_ge in E1.
        rewrite IH; rewrite ?qnode_enqueue; [|lia..].
        rewrite <- (depth_group n Hg).
        destruct (MAX_RECURSE_LEVEL <? level + 1 + depth n) eqn:E2.
        -- apply Nat.ltb_lt in E2. simpl.
           destruct (MAX_RECURSE_LEVEL <? _) eqn:E3; [done|].
           apply Nat.ltb_ge in E3. lia.
        -- apply Nat.ltb_ge in E2. simpl.
           rewrite (rebuild_same n Hg), IH by lia.
           destruct (MAX_RECURSE_LEVEL <? level + depth_list _) eqn:E3.
           ++ apply Nat.ltb_lt in E3.
              destruct (MAX_RECURSE_LEVEL <? _) eqn:E4; [done|].
              apply Nat.ltb_ge in E4. lia.
           ++ apply Nat.ltb_ge in E3.
              destruct (MAX_RECURSE_LEVEL <? _) eqn:E4.
              ** apply Nat.ltb_lt in E4. lia.
              ** by rewrite <- app_assoc.
    + pose proof (node_size_pos n).
      rewrite IH by lia. rewrite Nat.max_0_l. simpl.
      destruct (MAX_RECURSE_LEVEL <? _); [done|]. by rewrite <- app_assoc.
Qed.

Lemma copy_measures n :
  node_size (copy n) = node_size n /\ depth (copy n) = depth n
  /\ is_group (copy n) = is_group n.
Proof.
  induction n as [d|d|d|d|h p|d cs IH|d cs IH] using Node_induction;
    try done.
  - rewrite (node_size_group (copy _)), (node_size_group (GroupNode d cs)),
      (depth_group (copy _)), (depth_group (GroupNode d cs)) by done.
    simpl. induction IH as [|c cs (H1 & H2 & H3) _ (IH1 & IH2 & _)];
      [done|].
    simpl. rewrite H1, H2, H3. injection IH1 as ->. by rewrite IH2.
  - rewrite (node_size_group (copy _)), (node_size_group (BracketNode d cs)),
      (depth_group (copy _)), (depth_group (BracketNode d cs)) by done.
    simpl. induction IH as [|c cs (H1 & H2 & H3) _ (IH1 & IH2 & _)];
      [done|].
    simpl. rewrite H1, H2, H3. injection IH1 as ->. by rewrite IH2.
Qed.

(** The filter that keeps every node, on a group. *)
Lemma filter_keep_all root should_copy :
  is_group root = true ->
  filter keep_all (S (node_size root)) root should_copy tt
  = if MAX_RECURSE_LEVEL <? depth root then Err RecursionLimitExceeded
    else Ok (if should_copy then copy root else root, tt).
Proof.
  intros Hg. unfold filter. cbn [keep_all qnode mbind res_bind store].
  set (obj := if should_copy then copy root else root).
  destruct (copy_measures root) as (Hs & Hd & Hc).
  assert (node_size obj = node_size root /\ depth obj = depth root
          /\ is_group obj = true) as (Hs' & Hd' & Hg').
  { unfold obj. destruct should_copy; [|done]. by rewrite Hs, Hd, Hc. }
  rewrite Hg', _do_filter_loop_keep_all; rewrite ?qnode_enqueue.
  - rewrite <- (depth_group obj Hg'), Hd'. simpl.
    destruct (MAX_RECURSE_LEVEL <? depth root); [done|].
    simpl. by rewrite (rebuild_same obj Hg').
  - rewrite <- Hs', (node_size_group obj Hg'). lia.
  - unfold MAX_RECURSE_LEVEL. lia.
Qed.

Lemma depth_nest k : depth (nest k) = k.
Proof.
  induction k as [|k IH]; [done|].
  rewrite (depth_group (nest (S k))) by done.
  simpl. rewrite IH. replace (is_group (nest k)) with true by by destruct k.
  lia.
Qed.

Lemma depth_root_nest k : depth (GroupNode None [nest k]) = S k.
Proof.
  rewrite (depth_group (GroupNode None [nest k])) by done.
  cbn [node_children depth_list]. rewrite depth_nest.
  replace (is_group (nest k)) with true by by destruct k. lia.
Qed.

Lemma copy_nest k : copy (nest k) = nest k.
Proof. induction k as [|k IH]; simpl; [done|]. by rewrite IH. Qed.

Lemma copy_calls_group n :
  is_group n = true -> copy_calls n = S (copy_calls_list (node_children n)).
Proof.
  assert (forall l, (fix deepest (l : list Node) : nat :=
                       match l with
                       | [] => 0
                       | c :: l' => copy_calls c `max` deepest l'
                       end) l = copy_calls_list l) as H.
  { induction l as [|c l IH]; simpl; [done|]. by rewrite IH. }
  destruct n; try done; intros _; simpl; by rewrite H.
Qed.

(** The copy as the interpreter makes it: the copy, when the stack has
    room for the nesting of the tree, and a [RecursionError] otherwise;
    never another error. *)
Lemma copy_in_spec room : forall n,
  copy_in room n
  = if copy_calls n <=? room then Ok (copy n) else Err PyRecursionError.
Proof.
  induction room as [|room IH]; intros n.
  - simpl. by destruct n.
  - assert (forall l,
              (fix copy_all (l : list Node) : res (list Node) :=
                 match l with
                 | [] => Ok []
                 | c :: l' => c' ← copy_in room c; r ← copy_all l';
                              Ok (c' :: r)
                 end) l
              = if copy_calls_list l <=? room then Ok (map copy l)
                else Err PyRecursionError) as Hl.
    { induction l as [|c l IHl]; [done|].
      rewrite IH, IHl. cbn [copy_calls_list map].
      destruct (copy_calls c <=? room) eqn:E1;
        destruct (copy_calls_list l <=? room) eqn:E2; simpl.
      - rewrite (proj2 (Nat.leb_le _ _)); [done|].
        apply Nat.leb_le in E1, E2. lia.
      - rewrite (proj2 (Nat.leb_gt _ _)); [done|].
        apply Nat.leb_le in E1. apply Nat.leb_gt in E2. lia.
      - rewrite (proj2 (Nat.leb_gt _ _)); [done|].
        apply Nat.leb_gt in E1. lia.
      - rewrite (proj2 (Nat.leb_gt _ _)); [done|].
        apply Nat.leb_gt in E1. lia. }
    destruct n as [d|d|d|d|h p|d cs|d cs]; try done.
    + rewrite (copy_calls_group (GroupNode d cs)) by done.
      cbn [copy_in node_children copy]. rewrite Hl.
      change (S (copy_calls_list cs) <=? S room)
        with (copy_calls_list cs <=? room).
      by destruct (copy_calls_list cs <=? room).
    + rewrite (copy_calls_group (BracketNode d cs)) by done.
      cbn [copy_in node_children copy]. rewrite Hl.
      change (S (copy_calls_list cs) <=? S room)
        with (copy_calls_list cs <=? room).
      by destruct (copy_calls_list cs <=? room).
Qed.

Lemma copy_calls_depth_list l :
  Forall (fun n => if is_group n
                   then depth n < copy_calls n <= depth n + 2
                   else copy_calls n = 1) l ->
  depth_list l <= copy_calls_list l <= S (depth_list l).
Proof.
  induction 1 as [|c l Hc _ IH]; simpl; [lia|].
  destruct (is_group c); lia.
Qed.

(** The nesting of the calls of a copy is the nesting of the groups: one
    or two calls more than the levels below the root. *)
Lemma copy_calls_depth n :
  if is_group n then depth n < copy_calls n <= depth n + 2
  else copy_calls n = 1.
Proof.
  induction n as [d|d|d|d|h p|d cs IH|d cs IH] using Node_induction;
    try done.
  - rewrite (copy_calls_group (GroupNode d cs)),
      (depth_group (GroupNode d cs)) by done.
    cbn [is_group node_children].
    pose proof (copy_calls_depth_list cs IH). lia.
  - rewrite (copy_calls_group (BracketNode d cs)),
      (depth_group (BracketNode d cs)) by done.
    cbn [is_group node_children].
    pose proof (copy_calls_depth_list cs IH). lia.
Qed.

(** C4, as stated, fails for the copy, which counts no level: a tree
    nested 257 levels deep is copied when the stack has room for the calls,
    and overflows the stack when it has not; the filter that keeps every
    node raises [RecursionLimitExceeded] on it, in place and on the copy. *)
Lemma copy_depth_counterexample :
  MAX_RECURSE_LEVEL < depth (GroupNode None [nest 256])
  /\ copy_in 300 (GroupNode None [nest 256])
     = Ok (GroupNode None [nest 256])
  /\ copy_in 200 (GroupNode None [nest 256]) = Err PyRecursionError
  /\ filter_in 300 keep_all (S (node_size (GroupNode None [nest 256])))
       (GroupNode None [nest 256]) false tt
     = Err RecursionLimitExceeded
  /\ filter_in 300 keep_all (S (node_size (GroupNode None [nest 256])))
       (GroupNode None [nest 256]) true tt
     = Err RecursionLimitExceeded.
Proof.
  pose proof (depth_root_nest 256) as Hd.
  assert (copy (GroupNode None [nest 256]) = GroupNode None [nest 256])
    as Hc by (cbn [copy map]; by rewrite copy_nest).
  assert (copy_calls (GroupNode None [nest 256]) = 258) as Hn
    by by vm_compute.
  split; [rewrite Hd; unfold MAX_RECURSE_LEVEL; lia|].
  split; [by rewrite copy_in_spec, Hn, Hc|].
  split; [by rewrite copy_in_spec, Hn|].
  unfold filter_in. rewrite copy_in_spec, Hn. cbn [Nat.leb mbind res_bind].
  rewrite Hc, filter_keep_all by done. by rewrite Hd.
Qed.

(** C4, amended.  The filter is bounded to 256 levels of group nesting
    below the root: in place, under the rule that keeps every node, it
    raises [RecursionLimitExceeded] exactly on the trees nested deeper, and
    returns the tree otherwise.  The copy has no bound of its own and never
    raises [RecursionLimitExceeded]: its calls nest as the groups do, one or
    two calls more than the levels of the tree, and it returns a copy of
    the same depth when the stack has room for them and overflows the stack
    with [RecursionError] otherwise, at whatever depth.  The filter that
    copies first inherits both: [RecursionError] without room for the copy,
    and with the copy made the outcome of the filter in place. *)
Theorem filter_depth_bounded (d : option ScopeData) (cs : list Node)
    (room : nat) :
  filter_in room keep_all (S (node_size (GroupNode d cs))) (GroupNode d cs)
    false tt
  = (if MAX_RECURSE_LEVEL <? depth (GroupNode d cs)
     then Err RecursionLimitExceeded else Ok (GroupNode d cs, tt))
  /\ copy_in room (GroupNode d cs)
     = (if copy_calls (GroupNode d cs) <=? room
        then Ok (copy (GroupNode d cs)) else Err PyRecursionError)
  /\ depth (copy (GroupNode d cs)) = depth (GroupNode d cs)
  /\ depth (GroupNode d cs) < copy_calls (GroupNode d cs)
     <= depth (GroupNode d cs) + 2
  /\ filter_in room keep_all (S (node_size (GroupNode d cs)))
       (GroupNode d cs) true tt
     = (if copy_calls (GroupNode d cs) <=? room
        then if MAX_RECURSE_LEVEL <? depth (GroupNode d cs)
             then Err RecursionLimitExceeded
             else Ok (copy (GroupNode d cs), tt)
        else Err PyRecursionError).
Proof.
  destruct (copy_measures (GroupNode d cs)) as (Hs & Hd & Hg).
  split; [by apply (filter_keep_all (GroupNode d cs) false)|].
  split; [apply copy_in_spec|]. split; [done|].
  split; [apply (copy_calls_depth (GroupNode d cs))|].
  unfold filter_in. rewrite copy_in_spec.
  destruct (copy_calls (GroupNode d cs) <=? room); [|done].
  cbn [mbind res_bind].
  pose proof (filter_keep_all (copy (GroupNode d cs)) false Hg) as H.
  rewrite Hs, Hd in H. exact H.
Qed.

(** ** [read_next] *)

Lemma read_next_skips skipped it error :
  Forall (fun q => is_skipped (qnode q) = true) skipped ->
  read_next (skipped ++ it) error = read_next it error.
Proof.
  induction 1 as [|q skipped Hq _ IH]; simpl; [done|]. by rewrite Hq.
Qed.

(** C6: [read_next] passes over the whitespace and comment nodes at the
    front of the queue and returns the first other node [n], leaving the
    nodes after it; when [n] is a text node of more than one character it
    returns a text node of the first character and puts a text node of the
    remaining characters at the front of the queue; and when only
    whitespace and comments are left, it raises [UnexpectedEndOfInput] if
    the error is on. *)
Theorem read_next_first_significant (skipped : Queue) (n : QNode)
    (rest : Queue) (error : bool) :
  Forall (fun q => is_skipped (qnode q) = true) skipped ->
  is_skipped (qnode n) = false ->
  read_next (skipped ++ n :: rest) error
  = match qnode n with
    | TextNode d =>
        if 1 <? length d then
          Ok (Some (mkQ false (TextNode (take 1 d))),
              mkQ (attached n) (TextNode (drop 1 d)) :: rest)
        else Ok (Some n, rest)
    | _ => Ok (Some n, rest)
    end
  /\ read_next skipped true = Err UnexpectedEndOfInput
  /\ read_next skipped false = Ok (None, []).
Proof.
  intros Hs Hn. split; [|split].
  - rewrite read_next_skips by done. simpl. rewrite Hn.
    destruct (qnode n) as [d| | | | | |]; try done.
    by destruct d as [|c [|c' d]].
  - rewrite <- (app_nil_r skipped). by rewrite read_next_skips.
  - rewrite <- (app_nil_r skipped). by rewrite read_next_skips.
Qed.

Lemma read_next_first_significant_witness :
  let skipped := [mkQ true (WhitespaceNode (lit " "));
                  mkQ true (CommentNode (lit "c"))] in
  let n := mkQ true (TextNode (lit "abc")) in
  let rest := [mkQ true (CommandNode (lit "x"))] in
  read_next (skipped ++ n :: rest) true
  = Ok (Some (mkQ false (TextNode (lit "a"))),
        mkQ true (TextNode (lit "bc")) :: rest)
  /\ read_next skipped true = Err UnexpectedEndOfInput
  /\ read_next skipped false = Ok (None, []).
Proof.
  intros skipped n rest.
  apply (read_next_first_significant skipped n rest true).
  - repeat constructor.
  - reflexivity.
Defined.

Lemma read_next_result it error n it' :
  read_next it error = Ok (Some n, it') ->
  is_skipped (qnode n) = false /\ queue_measure it' < queue_measure it.
Proof.
  induction it as [|q it IH]; simpl; [by destruct error|].
  destruct (is_skipped (qnode q)) eqn:Hq.
  - intros H. apply IH in H as [? ?]. split; [done|].
    destruct (qnode q); simpl; lia.
  - destruct (qnode q) as [d| | | | | |] eqn:E;
      try (intros [= <- <-]; rewrite ?E; split; [done|lia]).
    destruct d as [|c [|c' d]]; intros [= <- <-]; simpl; rewrite ?E;
      (split; [done|simpl; lia]).
Qed.

Lemma read_next1_result it n it' :
  read_next1 it = Ok (n, it') ->
  is_skipped (qnode n) = false /\ queue_measure it' < queue_measure it.
Proof.
  unfold read_next1. destruct (read_next it true) as [[[q|] r]| |] eqn:E;
    simpl; try done.
  intros [= <- <-]. by apply read_next_result in E.
Qed.

Lemma read_next1_error it e : read_next1 it = Err e -> e = UnexpectedEndOfInput.
Proof.
  unfold read_next1. destruct (read_next it true) as [[[q|] r]| |] eqn:E;
    simpl; try done; [congruence|].
  intros [= <-]. clear -E. induction it as [|q it IH]; simpl in E.
  - congruence.
  - destruct (is_skipped (qnode q)); [by apply IH|].
    destruct (qnode q) as [[|c [|c' d]]| | | | | |]; done.
Qed.

Lemma read_next1_fuel it : read_next1 it <> OutOfFuel.
Proof.
  unfold read_next1. destruct (read_next it true) as [[[q|] r]| |] eqn:E;
    simpl; try done.
  clear -E. induction it as [|q it IH]; simpl in E; [done|].
  destruct (is_skipped (qnode q)); [by apply IH|].
  destruct (qnode q) as [[|c [|c' d]]| | | | | |]; done.
Qed.

(** The loop of [_read_until_end_bracket]: it ends within the measure of
    the queue, adds only nodes that are neither whitespace nor comment, and
    fails only at the end of the queue. *)
Lemma _read_until_end_bracket_loop_spec fuel : forall it acc,
  queue_measure it < fuel ->
  Forall (fun c => is_skipped c = false) acc ->
  match _read_until_end_bracket_loop fuel it acc with
  | Ok (g, it') =>
      exists cs, g = GroupNode None cs
                 /\ Forall (fun c => is_skipped c = false) cs
                 /\ queue_measure it' < queue_measure it
  | Err e => e = UnexpectedEndOfInput
  | OutOfFuel => False
  end.
Proof.
  induction fuel as [|fuel IH]; intros it acc Hf Hacc; [lia|].
  simpl. destruct (read_next1 it) as [[n it']|e|] eqn:E; simpl.
  - apply read_next1_result in E as [Hn Hm].
    destruct (is_text (qnode n) "]").
    + eauto.
    + specialize (IH it' (acc ++ [qnode n]) ltac:(lia)).
      destruct (_read_until_end_bracket_loop fuel it' (acc ++ [qnode n]))
        as [[g it'']|e|]; [| |].
      * destruct IH as (cs & -> & Hcs & Hm');
          [|eexists; repeat split; [done|lia]].
        apply Forall_app. split; [done|]. by repeat constructor.
      * apply IH. apply Forall_app. split; [done|]. by repeat constructor.
      * apply IH. apply Forall_app. split; [done|]. by repeat constructor.
  - by apply read_next1_error in E.
  - by apply read_next1_fuel in E.
Qed.

Lemma filter_all {A} (f : A -> bool) (l : list A) :
  forallb f l = true -> List.filter f l = l.
Proof.
  induction l as [|c l IH]; simpl; [done|].
  intros [Hc Hl]%andb_prop. by rewrite Hc, IH.
Qed.

Lemma _filter_children_comments d cs :
  Forall (fun c => is_skipped c = false) cs ->
  _filter_children (GroupNode d cs) false
  = match cs with [c] => Some c | _ => None end.
Proof.
  intros H. unfold _filter_children. cbn [is_group node_children].
  rewrite filter_all; [done|].
  apply forallb_forall. intros x Hx. rewrite Forall_forall in H.
  specialize (H x (proj2 (list_elem_of_In _ _) Hx)). by destruct x.
Qed.

(** C10, as stated, fails: a brace group that stands alone between the
    brackets is unwrapped, and the whitespace and comments in it are part of
    the argument, for the default and for the override. *)
Lemma bracket_argument_counterexample :
  let it := enqueue [BracketNode None [TextNode (lit "a");
                                       WhitespaceNode (lit " ");
                                       TextNode (lit "b")];
                     TextNode (lit "]")] in
  (exists g, _read_until_end_bracket it = Ok (g, [])
             /\ _extract_optional_argument g
                = GroupNode None [TextNode (lit "a");
                                  WhitespaceNode (lit " ");
                                  TextNode (lit "b")])
  /\ expand_text 100 "\newcommand{\f}[1][x]{<#1>}\f[{a b}]"
     = Ok (lit "<a b>")
  /\ expand_text 100 "\newcommand{\f}[1][{a b}]{<#1>}\f"
     = Ok (lit "<a b>").
Proof.
  intros it. split; [|by vm_compute]. eexists. split; by vm_compute.
Qed.

(** C10, amended: reading from [[] to the closing []] always ends, with a
    group or with [UnexpectedEndOfInput] when no []] is left, and the group
    has no whitespace node and no comment node among its children: those
    that stand between the brackets are dropped, for the argument count, the
    default and the override alike.  The default and the override are the
    children of that group, or, when a brace group is its only child, the
    children of the brace group as they are, whitespace and comments
    included.  So [[a b]] is substituted as [ab], and [[{a b}]] as [a b]. *)
Theorem bracket_argument_whitespace (it : Queue) :
  match _read_until_end_bracket it with
  | Ok (g, it') =>
      exists cs,
        g = GroupNode None cs
        /\ Forall (fun c => is_skipped c = false) cs
        /\ (bracket_content cs = cs
            \/ exists d, cs = [BracketNode d (bracket_content cs)])
        /\ _extract_optional_argument g = GroupNode None (bracket_content cs)
        /\ forall (it0 : Queue) (q : QNode) (data : Macro) (dflt : Node),
             read_next it0 false = Ok (Some q, it) ->
             is_text (qnode q) "[" = true ->
             m_default data = Some dflt -> 0 < m_args data ->
             exists tok,
               is_group tok = true
               /\ node_children tok = bracket_content cs
               /\ _expand_macro it0 data
                  = '(tokens, it2) ← read_args (m_args data - 1) it' [tok];
                    instantiate data tokens it2
  | Err e => e = UnexpectedEndOfInput
  | OutOfFuel => False
  end
  /\ expand_text 100 "\newcommand{\f}[1][x]{<#1>}\f[a b]\f[%c
 [ ]\f[{a %c
 b}]"
     = Ok (lit "<ab><[><a %c
 b>")
  /\ expand_text 100 "\newcommand{\f}[1][a %c
 b]{<#1>}\f"
     = Ok (lit "<ab>")
  /\ expand_text 100 "\newcommand{\f}[ 1 %c
 ][{ a}]{<#1>}\f"
     = Ok (lit "< a>").
Proof.
  split; [|by vm_compute].
  pose proof (_read_until_end_bracket_loop_spec (S (queue_measure it)) it []
                ltac:(lia) ltac:(constructor)) as H.
  destruct (_read_until_end_bracket it) as [[g it']|e|] eqn:Er;
    unfold _read_until_end_bracket in Er; rewrite Er in H; [|done..].
  destruct H as (cs & -> & Hcs & _). exists cs.
  split; [done|]. split; [done|].
  pose proof (_filter_children_comments None cs Hcs) as Hf.
  set (tok := match _filter_children (GroupNode None cs) false with
              | Some g2 => if is_bracket g2 then g2 else GroupNode None cs
              | None => GroupNode None cs
              end).
  assert (is_group tok = true /\ node_children tok = bracket_content cs)
    as [Hg Hc].
  { unfold tok. rewrite Hf.
    destruct cs as [|c [|c2 cs]]; [done|by destruct c..]. }
  split; [|split].
  - destruct cs as [|c [|c2 cs]]; [by left| |by destruct c; left].
    destruct c; try (by left). right. by eexists.
  - unfold _extract_optional_argument. fold tok.
    unfold take_node. by rewrite Hg, Hc.
  - intros it0 q data dflt Hr Hq Hd Ha. exists tok.
    split; [done|]. split; [done|].
    unfold _expand_macro, instantiate. rewrite Hd.
    apply Nat.ltb_lt in Ha. rewrite Ha, Hr.
    cbn [mbind res_bind]. rewrite Hq.
    unfold _read_until_end_bracket. rewrite Er. cbn [mbind res_bind].
    by fold tok.
Qed.

Lemma bracket_argument_whitespace_witness :
  let it := enqueue [WhitespaceNode (lit " ");
                     BracketNode None [TextNode (lit "a");
                                       WhitespaceNode (lit " ");
                                       TextNode (lit "b")];
                     CommentNode (lit "c"); TextNode (lit "]")] in
  exists cs,
    _read_until_end_bracket it = Ok (GroupNode None cs, [])
    /\ Forall (fun c => is_skipped c = false) cs
    /\ _extract_optional_argument (GroupNode None cs)
       = GroupNode None [TextNode (lit "a"); WhitespaceNode (lit " ");
                         TextNode (lit "b")].
Proof.
  intros it.
  pose proof (proj1 (bracket_argument_whitespace it)) as H.
  change (_read_until_end_bracket it)
    with (Ok (A := Node * Queue)
            (GroupNode None [BracketNode None [TextNode (lit "a");
                                               WhitespaceNode (lit " ");
                                               TextNode (lit "b")]], []))
    in H.
  destruct H as (cs & Hg & Hcs & _ & He & _).
  exists cs. injection Hg as <-. split; [reflexivity|].
  split; [exact Hcs|exact He].
Defined.

(** ** Parameter substitution *)

Lemma subst_node_group params n :
  is_group n = true ->
  subst_node params n
  = cs' ← subst_list params (node_children n);
    Ok [rebuild n (node_gdata n) cs'].
Proof.
  assert (forall l, (fix subst_all (l : list Node) : res (list Node) :=
                       match l with
                       | [] => Ok []
                       | c :: l' => a ← subst_node params c;
                                    b ← subst_all l'; Ok (a ++ b)
                       end) l = subst_list params l) as H.
  { induction l as [|c l IH]; simpl; [done|]. by rewrite IH. }
  destruct n; try done; intros _; simpl; by rewrite H.
Qed.

(** What [halve] returns is a float. *)
Lemma halve_float h h' : halve h = Ok h' -> exists v, h' = PyFloat v.
Proof.
  destruct h as [n|v]; simpl.
  - destruct (_ <=? _)%N; [done|]. destruct (N.even _); [|done].
    intros [= <-]. eauto.
  - destruct (Nat.even v); [|done]. intros [= <-]. eauto.
Qed.

Lemma params_positive_copy n : params_positive (copy n) = params_positive n.
Proof.
  induction n as [d|d|d|d|h p|d cs IH|d cs IH] using Node_induction;
    try done; simpl; induction IH as [|c cs Hc _ IH]; simpl;
    try done; by rewrite Hc, IH.
Qed.

(** The loop of the filter under [_do_replace] is the substitution, on a
    queue whose groups lie within the recursion cap. *)
Lemma _do_filter_loop_replace params fuel : forall level l o ch,
  nodes_size l < fuel ->
  level + depth_list l <= MAX_RECURSE_LEVEL ->
  forallb params_positive l = true ->
  _do_filter_loop (_do_replace params) fuel level (mkCtx (enqueue l) o ch tt)
  = r ← subst_list params l; Ok (mkCtx [] (o ++ r) ch tt).
Proof.
  induction fuel as [|fuel IH]; intros level l o ch Hf Hl Hp; [lia|].
  destruct l as [|n l].
  - simpl. by rewrite app_nil_r.
  - cbn [enqueue map _do_filter_loop queue out chain store].
    fold (enqueue l).
    cbn [nodes_size depth_list forallb subst_list] in *.
    apply andb_prop in Hp as [Hpn Hpl].
    pose proof (node_size_pos n) as Hpos.
    destruct (is_group n) eqn:Hg.
    + rewrite (subst_node_group params n Hg).
      rewrite (node_size_group n Hg) in Hf.
      rewrite (depth_group n Hg) in Hl.
      assert (forallb params_positive (node_children n) = true) as Hpc.
      { destruct n; try done. }
      assert (_do_replace params (mkQ true n) (mkCtx (enqueue l) o ch tt)
              = Ok (Some n, mkCtx (enqueue l) o ch tt)) as ->.
      { by destruct n. }
      cbn [mbind res_bind queue out chain store]. rewrite Hg.
      destruct (MAX_RECURSE_LEVEL <? level + 1) eqn:E1;
        [apply Nat.ltb_lt in E1; lia|].
      rewrite IH by (done || lia).
      destruct (subst_list params (node_children n)) as [cs'| |];
        cbn [mbind res_bind queue out chain store head tail mjoin
             option_join]; [|done..].
      rewrite IH by (done || lia).
      destruct (subst_list params l) as [r| |]; simpl; [|done..].
      by rewrite <- app_assoc.
    + destruct n as [d|d|d|d|h p| |]; try done;
        try (cbn [_do_replace qnode subst_node mbind res_bind is_group
                  queue out chain store];
             rewrite IH by (done || lia);
             destruct (subst_list params l) as [r| |]; simpl; [|done..];
             by rewrite <- app_assoc).
      cbn [_do_replace qnode subst_node attached].
      simpl in Hpn.
      destruct (pynum_val h =? 1).
      * destruct p as [|k]; [done|]. cbn [params_at positional].
        destruct (params !! k) as [a|];
          cbn [mbind res_bind queue out chain store]; [|done].
        rewrite IH by (done || lia).
        destruct (subst_list params l) as [r| |]; simpl; [|done..].
        unfold take_node.
        destruct (copy_measures a) as (_ & _ & ->).
        destruct (is_group a); by rewrite <- app_assoc.
      * destruct (halve h) as [h'| |];
          cbn [mbind res_bind is_group queue out chain store]; [|done..].
        rewrite IH by (done || lia).
        destruct (subst_list params l) as [r| |]; simpl; [|done..].
        by rewrite <- app_assoc.
Qed.

(** C7: the code at the input on which it breaks the claim.  A parameter
    of hash count 6 in a macro body is kept with the count 3.0 and nothing
    is raised, although neither 6 nor 3 is a power of two and the message
    of the guard says the number of hashes must be one: the guard tests that
    the half is integral.  The count 12 passes twice, as 6.0 and as 3.0, and
    is rejected at the third substitution only.  The text [######1] is
    parsed to the count 6, and a macro with this body expands to the
    parameter of count 3.0. *)
Theorem replace_parameters_keeps_six :
  _replace_parameters (GroupNode None [ParameterNode (PyInt 6) 1]) []
  = Ok (GroupNode None [ParameterNode (PyFloat 3) 1])
  /\ ~ (exists k, 6 = 2 ^ k) /\ ~ (exists k, 3 = 2 ^ k)
  /\ _replace_parameters (GroupNode None [ParameterNode (PyInt 12) 1]) []
     = Ok (GroupNode None [ParameterNode (PyFloat 6) 1])
  /\ _replace_parameters (GroupNode None [ParameterNode (PyFloat 6) 1]) []
     = Ok (GroupNode None [ParameterNode (PyFloat 3) 1])
  /\ _replace_parameters (GroupNode None [ParameterNode (PyFloat 3) 1]) []
     = Err MalformedParameter
  /\ parse "######1" = Ok (GroupNode None [ParameterNode (PyInt 6) 1])
  /\ exists t,
       (root ← parse "\newcommand{\f}[1]{######1}\f{x}"; demacro 100 ∅ root)
       = Ok (GroupNode None [ParameterNode (PyFloat 3) 1], t).
Proof.
  split; [by vm_compute|]. split; [|split].
  - intros [k Hk]. destruct k as [|[|[|k]]]; simpl in Hk; lia.
  - intros [k Hk]. destruct k as [|[|k]]; simpl in Hk; lia.
  - repeat (split; [by vm_compute|]). eexists. by vm_compute.
Qed.

(** ** Macro tables *)

Lemma deref_define name data d h :
  macros d < length h ->
  deref (define name data d h) (macros d)
  = <[name := data]> (deref h (macros d)).
Proof.
  intros Hl. unfold deref at 1, define.
  by rewrite list_lookup_insert_eq.
Qed.

Lemma _check_macros_valid d h d' h' :
  macros d < length h -> _check_macros d h = (d', h') ->
  macros d' < length h' /\ copied d' = true
  /\ deref h' (macros d') = deref h (macros d).
Proof.
  intros Hl. unfold _check_macros. destruct (copied d) eqn:Hc.
  - by intros [= <- <-].
  - intros [= <- <-]. simpl. rewrite length_app. simpl.
    split; [lia|]. split; [done|].
    unfold deref at 1. by rewrite lookup_app_r, Nat.sub_diag.
Qed.

(** An invocation at a level whose table holds [data] under [name]. *)
Lemma _process_invocation name data d up h q o :
  name_in name ["newcommand"; "renewcommand"; "providecommand";
                "newenvironment"; "renewenvironment"]%string = false ->
  deref h (macros d) !! name = Some data ->
  _process (mkQ true (CommandNode name)) (mkCtx q o (Some d :: up) h)
  = it' ← _expand_macro q data; Ok (None, mkCtx it' o (Some d :: up) h).
Proof.
  intros Hn Hd. unfold _process.
  cbn [attached negb chain parent_scope mbind res_bind qnode queue out
       store].
  assert (name_in name ["newcommand"; "renewcommand"; "providecommand"]%string
          = false) as ->.
  { unfold name_in in *. apply bool_decide_eq_false.
    apply bool_decide_eq_false in Hn. intros H. apply Hn.
    simpl in *. rewrite !elem_of_cons in *. tauto. }
  assert (name_in name ["newenvironment"; "renewenvironment"]%string
          = false) as ->.
  { unfold name_in in *. apply bool_decide_eq_false.
    apply bool_decide_eq_false in Hn. intros H. apply Hn.
    simpl in *. rewrite !elem_of_cons in *. tauto. }
  by rewrite Hd.
Qed.

Lemma _process_define (cmd : string) c d up name args dflt temp it0 it :
  List.In cmd ["newcommand"; "renewcommand"; "providecommand"]%string ->
  chain c = Some d :: up ->
  macros d < length (store c) ->
  _read_command_name (queue c) = Ok (name, it0) ->
  _get_bracket_args it0 = Ok (args, dflt, temp, it) ->
  let table := deref (store c) (macros d) in
  let data := mkMacro args dflt
                (Template (GroupNode None (take_node [] (qnode temp)))) in
  _process (mkQ true (CommandNode (lit cmd))) c
  = if String.eqb cmd "newcommand" && bool_decide (is_Some (table !! name))
    then Err DuplicateMacro
    else if negb (String.eqb cmd "providecommand")
            || negb (bool_decide (is_Some (table !! name)))
    then let '(d', h') := _check_macros d (store c) in
         Ok (None, mkCtx it (out c) (Some d' :: up) (define name data d' h'))
    else Ok (None, mkCtx it (out c) (chain c) (store c)).
Proof.
  intros Hcmd Hch Hl Hn Ha table data. unfold _process.
  cbn [attached negb qnode]. rewrite Hch.
  cbn [parent_scope mbind res_bind queue out chain store].
  rewrite Hn. cbn [mbind res_bind]. rewrite Ha. cbn [mbind res_bind].
  fold table. fold data.
  destruct Hcmd as [<-|[<-|[<-|[]]]]; done.
Qed.

Lemma registered_define name data d up h it o :
  macros d < length h ->
  registered (let '(d', h') := _check_macros d h in
              Ok (None, mkCtx it o (Some d' :: up) (define name data d' h')))
             name data it.
Proof.
  intros Hl. destruct (_check_macros d h) as [d' h'] eqn:E.
  destruct (_check_macros_valid _ _ _ _ Hl E) as (Hl' & _ & _).
  pose proof (deref_define name data d' h' Hl') as Hd.
  eexists. split; [done|]. split; [done|]. split.
  - exists (deref (define name data d' h') (macros d')). split; [done|].
    rewrite Hd. apply lookup_insert_eq.
  - intros Hn q o'. apply _process_invocation; [done|].
    cbn [store]. rewrite Hd. apply lookup_insert_eq.
Qed.

(** C5: a definition command whose name and body are read at a level of
    table [table].  On a name the table holds, [newcommand] raises
    [DuplicateMacro], [renewcommand] puts the new entry in the table of
    the level, so that later invocations expand the new body, and
    [providecommand] leaves tables and data as they are; on a name the
    table does not hold, each of the three registers the entry. *)
Theorem define_command_duplicates (c : Ctx Heap) (d : ScopeData)
    (up : list (option ScopeData)) (name : text) (args : nat)
    (dflt : option Node) (temp : QNode) (it0 it : Queue) :
  chain c = Some d :: up ->
  macros d < length (store c) ->
  _read_command_name (queue c) = Ok (name, it0) ->
  _get_bracket_args it0 = Ok (args, dflt, temp, it) ->
  let data := mkMacro args dflt
                (Template (GroupNode None (take_node [] (qnode temp)))) in
  let run := fun cmd : string =>
               _process (mkQ true (CommandNode (lit cmd))) c in
  match deref (store c) (macros d) !! name with
  | Some old =>
      run "newcommand"%string = Err DuplicateMacro
      /\ registered (run "renewcommand"%string) name data it
      /\ run "providecommand"%string
         = Ok (None, mkCtx it (out c) (chain c) (store c))
  | None =>
      registered (run "newcommand"%string) name data it
      /\ registered (run "renewcommand"%string) name data it
      /\ registered (run "providecommand"%string) name data it
  end.
Proof.
  intros Hch Hl Hn Ha data run.
  pose proof (fun cmd Hcmd =>
                _process_define cmd c d up name args dflt temp it0 it
                  Hcmd Hch Hl Hn Ha) as Hrun.
  cbv zeta in Hrun. fold data in Hrun. subst run. cbv beta.
  pose proof (registered_define name data d up (store c) it (out c) Hl) as Hr.
  rewrite !Hrun by (simpl; tauto).
  destruct (deref (store c) (macros d) !! name) as [old|] eqn:E.
  - rewrite (bool_decide_eq_true_2 (is_Some (Some old))) by eauto.
    simpl. done.
  - rewrite (bool_decide_eq_false_2 (is_Some None)) by (by intros [? ?]).
    simpl. done.
Qed.

Lemma define_command_duplicates_witness :
  let old := mkMacro 0 None
               (Template (GroupNode None [TextNode (lit "old")])) in
  let data := mkMacro 0 None
                (Template (GroupNode None [TextNode (lit "new")])) in
  let c := mkCtx (enqueue [BracketNode None [CommandNode (lit "f")];
                           BracketNode None [TextNode (lit "new")]])
                 [] [Some (mkScope 0 false)] [{[ lit "f" := old ]}] in
  _process (mkQ true (CommandNode (lit "newcommand"))) c = Err DuplicateMacro
  /\ registered (_process (mkQ true (CommandNode (lit "renewcommand"))) c)
                (lit "f") data []
  /\ _process (mkQ true (CommandNode (lit "providecommand"))) c
     = Ok (None, mkCtx [] (out c) (chain c) (store c)).
Proof.
  intros old data c.
  exact (define_command_duplicates c (mkScope 0 false) [] (lit "f") 0 None
           (mkQ true (BracketNode None [TextNode (lit "new")]))
           (enqueue [BracketNode None [TextNode (lit "new")]]) []
           eq_refl (Nat.lt_0_1) eq_refl eq_refl).
Defined.

(** ** Scopes *)

Lemma clean_group n :
  is_group n = true ->
  clean n = match node_gdata n with
            | None => forallb clean (node_children n)
            | Some _ => false
            end.
Proof. by destruct n. Qed.

Lemma clean_copy n : clean (copy n) = true.
Proof.
  induction n as [d|d|d|d|h p|d cs IH|d cs IH] using Node_induction;
    try done; simpl; induction IH as [|c cs Hc _ IH]; simpl;
    try done; by rewrite Hc, IH.
Qed.

Lemma forallb_clean l :
  forallb clean l = true <-> Forall (fun n => clean n = true) l.
Proof.
  induction l as [|c l IH]; simpl.
  - split; [constructor|done].
  - rewrite andb_true_iff, IH, Forall_cons. done.
Qed.

Lemma clean_enqueue l :
  Forall (fun n => clean n = true) l -> clean_queue (enqueue l).
Proof. unfold clean_queue, enqueue. by rewrite Forall_fmap. Qed.

Lemma read_next_clean it error r it' :
  read_next it error = Ok (r, it') -> clean_queue it ->
  clean_queue it' /\ (forall n, r = Some n -> clean (qnode n) = true).
Proof.
  unfold clean_queue.
  induction it as [|q it IH]; simpl.
  - destruct error; [done|]. intros [= <- <-] _. split; [constructor|done].
  - intros H Hc. apply Forall_cons in Hc as [Hq Hc].
    destruct (is_skipped (qnode q)); [by apply IH|].
    destruct (qnode q) as [d| | | | | |] eqn:E;
      try (injection H as <- <-; split; [done|];
           intros n [= <-]; by rewrite E).
    destruct d as [|c [|c' d]]; injection H as <- <-;
      (split; [|by intros n [= <-]; rewrite ?E]); try done.
    constructor; done.
Qed.

Lemma read_next1_clean it n it' :
  read_next1 it = Ok (n, it') -> clean_queue it ->
  clean_queue it' /\ clean (qnode n) = true.
Proof.
  unfold read_next1. destruct (read_next it true) as [[[q|] r]| |] eqn:E;
    simpl; try done.
  intros [= <- <-] Hc. apply read_next_clean in E as [? Hn]; [|done].
  split; [done|]. by apply Hn.
Qed.

Lemma _read_until_end_bracket_loop_clean fuel : forall it acc g it',
  _read_until_end_bracket_loop fuel it acc = Ok (g, it') ->
  clean_queue it -> Forall (fun n => clean n = true) acc ->
  clean_queue it' /\ clean g = true.
Proof.
  induction fuel as [|fuel IH]; intros it acc g it'; simpl; [done|].
  destruct (read_next1 it) as [[n it1]|e|] eqn:E; simpl; [|done..].
  intros H Hc Hacc. apply read_next1_clean in E as [Hc1 Hn]; [|done].
  destruct (is_text (qnode n) "]").
  - injection H as <- <-. split; [done|]. simpl. by apply forallb_clean.
  - eapply IH; [done..|]. apply Forall_app. split; [done|].
    by repeat constructor.
Qed.

Lemma _read_until_end_bracket_clean it g it' :
  _read_until_end_bracket it = Ok (g, it') -> clean_queue it ->
  clean_queue it' /\ clean g = true.
Proof.
  intros H Hc. eapply _read_until_end_bracket_loop_clean; [done..|constructor].
Qed.

Lemma _read_command_name_clean it name it' :
  _read_command_name it = Ok (name, it') -> clean_queue it -> clean_queue it'.
Proof.
  unfold _read_command_name.
  destruct (read_next1 it) as [[n it1]|e|] eqn:E; simpl; [|done..].
  intros H Hc. apply read_next1_clean in E as [Hc1 _]; [|done].
  destruct (is_text (qnode n) "*").
  - destruct (read_next1 it1) as [[n2 it2]|e|] eqn:E2; simpl in H; [|done..].
    apply read_next1_clean in E2 as [Hc2 _]; [|done].
    destruct (default _ _); try done. by injection H as _ <-.
  - simpl in H. destruct (default _ _); try done. by injection H as _ <-.
Qed.

Lemma _get_bracket_args_clean it args dflt temp it' :
  _get_bracket_args it = Ok (args, dflt, temp, it') -> clean_queue it ->
  clean_queue it' /\ clean (qnode temp) = true.
Proof.
  unfold _get_bracket_args.
  destruct (read_next1 it) as [[t0 it0]|e|] eqn:E0; simpl; [|done..].
  intros H Hc. apply read_next1_clean in E0 as [Hc0 Ht0]; [|done].
  assert (exists a t1 it1,
            clean_queue it1 /\ clean (qnode t1) = true
            /\ ('(dflt, temp, it) ←
                  (if is_text (qnode t1) "["
                   then '(g, it) ← _read_until_end_bracket it1;
                        '(temp, it) ← read_next1 it;
                        Ok (Some (_extract_optional_argument g), temp, it)
                   else Ok (None, t1, it1));
                Ok (a, dflt, temp, it)) = Ok (args, dflt, temp, it'))
    as (a & t1 & it1 & Hc1 & Ht1 & H1).
  { destruct (is_text (qnode t0) "[").
    - destruct (_read_until_end_bracket it0) as [[g itg]|e|] eqn:Eg;
        simpl in H; [|done..].
      apply _read_until_end_bracket_clean in Eg as [Hcg _]; [|done].
      destruct (_extract_arguments g) as [a|e|]; simpl in H; [|done..].
      destruct (read_next1 itg) as [[t1 it1]|e|] eqn:E1; simpl in H; [|done..].
      apply read_next1_clean in E1 as [Hc1 Ht1]; [|done].
      by exists a, t1, it1.
    - by exists 0, t0, it0. }
  clear H. destruct (is_text (qnode t1) "[").
  - destruct (_read_until_end_bracket it1) as [[g itg]|e|] eqn:Eg;
      simpl in H1; [|done..].
    apply _read_until_end_bracket_clean in Eg as [Hcg _]; [|done].
    destruct (read_next1 itg) as [[t2 it2]|e|] eqn:E2; simpl in H1; [|done..].
    apply read_next1_clean in E2 as [Hc2 Ht2]; [|done].
    by injection H1 as _ _ <- <-.
  - simpl in H1. by injection H1 as _ _ <- <-.
Qed.

Lemma read_args_clean n : forall it tokens tokens' it',
  read_args n it tokens = Ok (tokens', it') -> clean_queue it ->
  clean_queue it'.
Proof.
  induction n as [|n IH]; intros it tokens tokens' it'; simpl.
  - by intros [= _ <-].
  - destruct (read_next1 it) as [[a it1]|e|] eqn:E; simpl; [|done..].
    intros H Hc. apply read_next1_clean in E as [Hc1 _]; [|done].
    by eapply IH.
Qed.

Lemma clean_children n :
  clean n = true -> Forall (fun c => clean c = true) (node_children n).
Proof.
  destruct n as [| | | | |[d|] cs|[d|] cs]; simpl; try done;
    try (intros _; constructor); by intros ?%forallb_clean.
Qed.

Lemma clean_rebuild n cs :
  Forall (fun c => clean c = true) cs -> clean (rebuild n None cs) = true.
Proof. intros H%forallb_clean. by destruct n. Qed.

Lemma clean_take_node cs n :
  Forall (fun c => clean c = true) cs -> clean n = true ->
  Forall (fun c => clean c = true) (take_node cs n).
Proof.
  intros Hcs Hn. unfold take_node. destruct (is_group n); apply Forall_app.
  - split; [done|]. by apply clean_children.
  - split; [done|]. by repeat constructor.
Qed.

(** Substitution leaves the data of the groups alone: its result is a
    clean tree. *)
Lemma _do_filter_loop_replace_clean {S} params fuel :
  forall level (c c' : Ctx S),
  _do_filter_loop (_do_replace params) fuel level c = Ok c' ->
  clean_queue (queue c) -> Forall (fun n => clean n = true) (out c) ->
  chain c' = chain c /\ Forall (fun n => clean n = true) (out c').
Proof.
  induction fuel as [|fuel IH]; intros level c c'; [done|].
  destruct c as [q o ch st]. cbn [_do_filter_loop queue out chain store].
  destruct q as [|[at_ n] q]; [by intros [= <-]|].
  intros H [Hn Hq]%Forall_cons Ho. simpl in Hn.
  destruct (_do_replace params (mkQ at_ n) (mkCtx q o ch st))
    as [[r c1]|e|] eqn:E; simpl in H; [|done..].
  assert (queue c1 = q /\ chain c1 = ch
          /\ Forall (fun n => clean n = true) (out c1)
          /\ (forall n', r = Some n' -> n' = n \/ is_group n' = false))
    as (Hq1 & Hch1 & Ho1 & Hr).
  { unfold _do_replace in E. cbn [qnode attached queue out chain store] in E.
    destruct n as [d|d|d|d|h p|d cs|d cs];
      try (injection E as <- <-; repeat split; try done;
           intros n' [= <-]; by left).
    destruct (pynum_val h =? 1).
    - destruct at_; [|done]. destruct (params_at params p) as [a|]; [|done].
      injection E as <- <-. repeat split; try done.
      apply clean_take_node; [done|apply clean_copy].
    - destruct (halve h) as [h'| |]; [|done..]. injection E as <- <-.
      repeat split; try done. intros n' [= <-]. by right. }
  destruct c1 as [q1 o1 ch1 st1]. simpl in Hq1, Hch1, Ho1. subst q1 ch1.
  cbn [queue out chain store] in H.
  destruct r as [n'|]; [|by eapply (IH _ _ _ H)].
  destruct (is_group n') eqn:Hg.
  - destruct (Hr n' eq_refl) as [->|Hng]; [|congruence].
    destruct (MAX_RECURSE_LEVEL <? level + 1); [done|].
    destruct (_do_filter_loop _ fuel (level + 1) _) as [c2| |] eqn:E2;
      simpl in H; [|done..].
    apply IH in E2 as [Hch2 Ho2]; simpl;
      [|by apply clean_enqueue, clean_children|constructor].
    simpl in Hch2. rewrite Hch2 in H. simpl in H.
    apply IH in H as [Hch' Ho']; simpl; [done|done|].
    apply Forall_app. split; [done|]. repeat constructor.
    rewrite (clean_group n Hg) in Hn.
    destruct (node_gdata n); [done|]. by apply clean_rebuild.
  - apply IH in H as [Hch' Ho']; simpl; [done|done|].
    apply Forall_app. split; [done|]. repeat constructor.
    destruct (Hr n' eq_refl) as [->|Hng]; [done|]. by destruct n'.
Qed.

Lemma _replace_parameters_clean root params r :
  _replace_parameters root params = Ok r -> clean r = true /\ is_group r = true.
Proof.
  unfold _replace_parameters, filter.
  destruct (_do_replace params (mkQ false (copy root)) (mkCtx [] [] [] tt))
    as [[o c0]|e|] eqn:E; cbn [mbind res_bind]; [|done..].
  assert (o = Some (copy root) \/ exists n, o = Some n /\ is_group n = false)
    as Ho.
  { unfold _do_replace in E. cbn [qnode attached] in E.
    destruct (copy root) as [d|d|d|d|h p|d cs|d cs] eqn:Ec;
      try (injection E as <- <-; by left).
    destruct (pynum_val h =? 1); [done|].
    destruct (halve h) as [h'| |]; [|done..]. injection E as <- <-.
    right. eauto. }
  destruct Ho as [->|(n & -> & Hn)]; [|by rewrite Hn].
  destruct (is_group (copy root)) eqn:Hg; [|done].
  match goal with
  | |- context [_do_filter_loop ?f ?fu 0 ?cx] =>
      destruct (_do_filter_loop f fu 0 cx) as [c| |] eqn:El
  end; cbn [mbind res_bind]; [|done..].
  intros [= <-].
  apply _do_filter_loop_replace_clean in El as [Hch Hout];
    cbn [queue out chain store];
    [| apply clean_enqueue, clean_children, clean_copy | constructor].
  cbn [chain] in Hch. rewrite Hch. cbn [head mjoin option_join].
  pose proof (clean_copy root) as Hc. rewrite (clean_group _ Hg) in Hc.
  destruct (node_gdata (copy root)); [done|]. cbn [mjoin option_join].
  split; [by apply clean_rebuild|]. by destruct (copy root).
Qed.

Lemma _expand_macro_clean it data it' :
  _expand_macro it data = Ok it' -> is_template data -> clean_queue it ->
  clean_queue it'.
Proof.
  unfold _expand_macro, is_template. intros H Ht Hc.
  destruct (m_body data) as [g|f]; [|done].
  match type of H with
  | (?rd ≫= _) = _ => destruct rd as [[tokens it1]|e|] eqn:E
  end; simpl in H; [|done..].
  assert (clean_queue it1) as Hc1.
  { destruct (0 <? m_args data); [|by injection E as _ <-].
    match type of E with
    | (?rd ≫= _) = _ => destruct rd as [[[tk a] it0]|e|] eqn:E0
    end; simpl in E; [|done..].
    apply read_args_clean in E; [done|].
    destruct (m_default data) as [dflt|]; [|by injection E0 as _ _ <-].
    destruct (read_next it false) as [[[q|] itq]|e|] eqn:Eq;
      simpl in E0; try done.
    - apply read_next_clean in Eq as [Hcq Hq]; [|done].
      destruct (is_text (qnode q) "[").
      + destruct (_read_until_end_bracket itq) as [[g0 itg]|e|] eqn:Eg;
          simpl in E0; [|done..].
        apply _read_until_end_bracket_clean in Eg as [Hcg _]; [|done].
        by injection E0 as _ _ <-.
      + injection E0 as _ _ <-. constructor; [by apply Hq|done].
    - apply read_next_clean in Eq as [Hcq _]; [|done].
      by injection E0 as _ _ <-. }
  destruct (_replace_parameters g tokens) as [temp|e|] eqn:Er;
    simpl in H; [|done..].
  apply _replace_parameters_clean in Er as [Hct Hgt]. rewrite Hgt in H.
  injection H as <-. apply Forall_app. split; [|done].
  by apply clean_enqueue, clean_children.
Qed.

Lemma frame_same hd hd1 h : own hd1 = own hd -> frame hd hd1 h h.
Proof. intros H. split; [done|]. split; [done|]. by left. Qed.

Lemma frame_trans hd hd1 hd2 h h1 h2 :
  frame hd hd1 h h1 -> frame hd1 hd2 h1 h2 -> frame hd hd2 h h2.
Proof.
  intros (L1 & P1 & O1) (L2 & P2 & O2). split; [lia|]. split.
  - intros l Hl Ho. rewrite P2; [by apply P1|lia|].
    destruct O1 as [->|(l1 & -> & Hl1)]; [done|].
    intros [= ->]. lia.
  - destruct O2 as [->|(l2 & -> & Hl2)]; [done|].
    right. exists l2. split; [done|lia].
Qed.

Lemma parent_scope_own hd rest d up :
  parent_scope (hd :: rest) = Ok (d, up) ->
  up = rest /\ own (Some d) = own hd.
Proof.
  destruct hd as [d0|]; simpl.
  - by intros [= <- <-].
  - destruct rest as [|[pd|] rest']; try done. by intros [= <- <-].
Qed.

Lemma define_length name data d h : length (define name data d h) = length h.
Proof. unfold define. by rewrite length_insert. Qed.

Lemma frame_define name data d h d' h' :
  _check_macros d h = (d', h') ->
  frame (Some d) (Some d') h (define name data d' h').
Proof.
  unfold _check_macros, frame, own. destruct (copied d) eqn:Hc.
  - intros [= <- <-]. rewrite Hc, define_length. split; [done|].
    split; [|by left]. intros l Hl Ho. unfold define.
    apply list_lookup_insert_ne. congruence.
  - intros [= <- <-]. rewrite define_length, length_app. simpl.
    split; [lia|]. split; [|right; eauto].
    intros l Hl _. unfold define. simpl.
    rewrite list_lookup_insert_ne by lia. by apply lookup_app_l.
Qed.

Lemma frame_define_own name data d h :
  copied d = true -> frame (Some d) (Some d) h (define name data d h).
Proof.
  intros Hc. apply (frame_define name data d h d h).
  unfold _check_macros. by rewrite Hc.
Qed.

Lemma _check_macros_copied d h d' h' :
  _check_macros d h = (d', h') -> copied d' = true.
Proof.
  unfold _check_macros. destruct (copied d) eqn:Hc; by intros [= <- <-].
Qed.

Lemma deref_template h l name data :
  templates_only h -> deref h l !! name = Some data -> is_template data.
Proof.
  unfold deref, templates_only. intros Ht.
  destruct (h !! l) as [t|] eqn:E; simpl; [|done].
  intros Hl. apply list_elem_of_lookup_2 in E.
  rewrite Forall_forall in Ht. by apply (Ht t E name).
Qed.

Lemma templates_deref h l :
  templates_only h -> map_Forall (fun _ m => is_template m) (deref h l).
Proof.
  intros Ht name data. by apply deref_template.
Qed.

Lemma templates_check_macros d h d' h' :
  _check_macros d h = (d', h') -> templates_only h -> templates_only h'.
Proof.
  unfold _check_macros. destruct (copied d); intros [= <- <-] Ht; [done|].
  apply Forall_app. split; [done|]. repeat constructor.
  by apply templates_deref.
Qed.

Lemma templates_define name data d h :
  is_template data -> templates_only h -> templates_only (define name data d h).
Proof.
  intros Hd Ht. unfold define, templates_only.
  apply Forall_insert; [done|].
  apply map_Forall_insert_2; [done|]. by apply templates_deref.
Qed.

Lemma frame_keep (c : Ctx Heap) hd rest d m :
  own (Some d) = own hd -> clean m = true -> clean_queue (queue c) ->
  templates_only (store c) ->
  exists hd1,
    chain (mkCtx (queue c) (out c) (Some d :: rest) (store c)) = hd1 :: rest
    /\ out (mkCtx (queue c) (out c) (Some d :: rest) (store c)) = out c
    /\ clean_queue (queue (mkCtx (queue c) (out c) (Some d :: rest) (store c)))
    /\ (forall n', Some m = Some n' -> clean n' = true)
    /\ templates_only (store (mkCtx (queue c) (out c) (Some d :: rest)
                                    (store c)))
    /\ frame hd hd1 (store c)
         (store (mkCtx (queue c) (out c) (Some d :: rest) (store c))).
Proof.
  intros Ho Hm Hq Ht. exists (Some d). repeat split; try done.
  - by intros n' [= <-].
  - by left.
Qed.

(** One call of the rule at a level: the data of the levels above are left
    as they are, the queue and the node returned stay clean, and the store
    changes by the level's own table only. *)
Lemma _process_frame n c r c1 hd rest :
  _process n c = Ok (r, c1) ->
  chain c = hd :: rest ->
  clean (qnode n) = true -> clean_queue (queue c) ->
  templates_only (store c) ->
  exists hd1,
    chain c1 = hd1 :: rest /\ out c1 = out c /\ clean_queue (queue c1)
    /\ (forall n', r = Some n' -> clean n' = true)
    /\ templates_only (store c1)
    /\ frame hd hd1 (store c) (store c1).
Proof.
  intros H Hch Hn Hq Ht. unfold _process in H.
  destruct (attached n); cbn [negb] in H.
  2: { injection H as <- <-. exists hd. repeat split; try done.
       - by intros n' [= <-].
       - by left. }
  rewrite Hch in H.
  destruct (parent_scope (hd :: rest)) as [[d up]|e|] eqn:Ep;
    cbn [mbind res_bind] in H; [|done..].
  apply parent_scope_own in Ep as [-> Hown].
  cbn [queue out chain store] in H.
  cbv zeta in H.
  destruct (qnode n) as [x|x|cmd|x|h p|dd cs|dd cs] eqn:En;
    try (injection H as <- <-; by apply frame_keep).
  destruct (name_in cmd ["newcommand"; "renewcommand";
                         "providecommand"]%string).
  { destruct (_read_command_name (queue c)) as [[name it]|e|] eqn:E1;
      cbn [mbind res_bind] in H; [|done..].
    apply _read_command_name_clean in E1; [|done].
    destruct (_get_bracket_args it) as [[[[args dflt] temp] it2]|e|] eqn:E2;
      cbn [mbind res_bind] in H; [|done..].
    apply _get_bracket_args_clean in E2 as [Hc2 _]; [|done].
    destruct (_ && _); [done|].
    destruct (_ || _).
    - destruct (_check_macros d (store c)) as [d' h'] eqn:Ec.
      injection H as <- <-. exists (Some d'). repeat split; try done.
      + apply templates_define; [done|].
        by eapply templates_check_macros.
      + by apply (frame_define _ _ d).
      + intros l Hl Ho. apply (frame_define _ _ d _ _ _ Ec); [done|].
        by rewrite Hown.
      + destruct (frame_define name
                    (mkMacro args dflt
                       (Template (GroupNode None (take_node [] (qnode temp)))))
                    d _ _ _ Ec) as (_ & _ & [->|Hf]); [by left|by right].
    - injection H as <- <-. exists (Some d). repeat split; try done.
      by left. }
  destruct (name_in cmd ["newenvironment"; "renewenvironment"]%string).
  { destruct (read_next1 (queue c)) as [[t0 it0]|e|] eqn:E0;
      cbn [mbind res_bind] in H; [|done..].
    apply read_next1_clean in E0 as [Hc0 _]; [|done].
    destruct (env_name (qnode t0)) as [name|e|];
      cbn [mbind res_bind] in H; [|done..].
    destruct (_get_bracket_args it0) as [[[[args dflt] temp] it2]|e|] eqn:E2;
      cbn [mbind res_bind] in H; [|done..].
    apply _get_bracket_args_clean in E2 as [Hc2 _]; [|done].
    destruct (read_next1 it2) as [[t3 it3]|e|] eqn:E3;
      cbn [mbind res_bind] in H; [|done..].
    apply read_next1_clean in E3 as [Hc3 _]; [|done].
    destruct (_ && _); [done|].
    destruct (_check_macros d (store c)) as [d' h'] eqn:Ec.
    injection H as <- <-. exists (Some d').
    pose proof (_check_macros_copied _ _ _ _ Ec) as Hcp.
    assert (frame hd (Some d') (store c)
              (define (lit "end" ++ name)
                 (mkMacro 0 None
                    (Template (GroupNode None (take_node [] (qnode t3)))))
                 d'
                 (define name
                    (mkMacro args dflt
                       (Template (GroupNode None (take_node [] (qnode temp)))))
                    d' h'))) as Hf.
    { eapply frame_trans; [|by apply frame_define_own].
      destruct (frame_define name
                    (mkMacro args dflt
                       (Template (GroupNode None (take_node [] (qnode temp)))))
                    d _ _ _ Ec) as (F1 & F2 & F3).
      split; [done|]. split; [|by rewrite <- Hown].
      intros l Hl Ho. apply F2; [done|]. by rewrite Hown. }
    cbn [chain out queue store]. split; [done|]. split; [done|].
    split; [done|]. split; [done|]. split; [|done].
    apply templates_define; [done|]. apply templates_define; [done|].
    by eapply templates_check_macros. }
  destruct (deref (store c) (macros d) !! cmd) as [data|] eqn:El.
  { pose proof (deref_template _ _ _ _ Ht El) as Hd.
    destruct (_expand_macro (queue c) data) as [it|e|] eqn:Ee;
      cbn [mbind res_bind] in H; [|done..].
    apply _expand_macro_clean in Ee; [|done..].
    injection H as <- <-. exists (Some d). repeat split; try done.
    by left. }
  destruct (name_in cmd ["begin"; "end"]%string).
  2: { injection H as <- <-. by apply frame_keep. }
  destruct (read_next1 (queue c)) as [[t0 it0]|e|] eqn:E0;
    cbn [mbind res_bind] in H; [|done..].
  apply read_next1_clean in E0 as [Hc0 Ht0]; [|done].
  destruct (env_name (qnode t0)) as [name|e|];
    cbn [mbind res_bind] in H; [|done..].
  match type of H with
  | context [deref ?hh ?ll !! ?nm] =>
      destruct (deref hh ll !! nm) as [data|] eqn:El2
  end.
  - pose proof (deref_template _ _ _ _ Ht El2) as Hd.
    destruct (_expand_macro it0 data) as [it|e|] eqn:Ee;
      cbn [mbind res_bind] in H; [|done..].
    apply _expand_macro_clean in Ee; [|done..].
    injection H as <- <-. exists (Some d). repeat split; try done.
    by left.
  - injection H as <- <-. exists (Some d). repeat split; try done.
    + by constructor.
    + by intros n' [= <-].
    + by left.
Qed.

Lemma frame_nested hd1 hd2 h1 h2 :
  frame None hd2 h1 h2 -> frame hd1 hd1 h1 h2.
Proof.
  intros (L & P & _). split; [done|]. split; [|by left].
  intros l Hl _. by apply P.
Qed.

(** The loop of the filter under [_process], at any level: the data of the
    levels above stay, and the store changes by the level's own table and
    by new tables only. *)
Lemma _do_filter_loop_frame fuel : forall level c c' hd rest,
  _do_filter_loop _process fuel level c = Ok c' ->
  chain c = hd :: rest -> clean_queue (queue c) ->
  templates_only (store c) ->
  exists hd',
    chain c' = hd' :: rest /\ templates_only (store c')
    /\ frame hd hd' (store c) (store c').
Proof.
  induction fuel as [|fuel IH]; intros level c c' hd rest; [done|].
  destruct c as [q o ch st]. cbn [_do_filter_loop queue out chain store].
  destruct q as [|n q].
  { intros [= <-] -> _ Ht. exists hd. repeat split; try done. by left. }
  intros H -> [Hn Hq]%Forall_cons Ht.
  destruct (_process n (mkCtx q o (hd :: rest) st)) as [[r c1]|e|] eqn:E;
    cbn [mbind res_bind] in H; [|done..].
  apply (_process_frame _ _ _ _ hd rest) in E
    as (hd1 & Hch1 & _ & Hq1 & Hr & Ht1 & Hf1); try done.
  destruct c1 as [q1 o1 ch1 st1]. cbn [queue out chain store] in *.
  subst ch1.
  destruct r as [n'|].
  2: { apply (IH _ _ _ hd1 rest) in H as (hd' & Hch' & Ht' & Hf');
         try done.
       exists hd'. repeat split; try done; by eapply frame_trans. }
  specialize (Hr n' eq_refl).
  destruct (is_group n') eqn:Hg.
  - destruct (MAX_RECURSE_LEVEL <? level + 1); [done|].
    destruct (_do_filter_loop _process fuel (level + 1) _)
      as [c2| |] eqn:E2; cbn [mbind res_bind] in H; [|done..].
    rewrite (clean_group n' Hg) in Hr.
    destruct (node_gdata n') eqn:Hgd; [done|].
    apply (IH _ _ _ None (hd1 :: rest)) in E2
      as (hd2 & Hch2 & Ht2 & Hf2); cbn [queue out chain store]; try done.
    2: { by apply clean_enqueue, forallb_clean. }
    cbn [store] in *. rewrite Hch2 in H. cbn [tail] in H.
    apply (IH _ _ _ hd1 rest) in H as (hd' & Hch' & Ht' & Hf'); try done.
    exists hd'. repeat split; try done.
    + eapply frame_trans; [done|].
      eapply frame_trans; [by eapply frame_nested|done].
    + eapply frame_trans; [done|].
      eapply frame_trans; [by eapply frame_nested|done].
    + eapply frame_trans; [done|].
      eapply frame_trans; [by eapply frame_nested|done].
  - apply (IH _ _ _ hd1 rest) in H as (hd' & Hch' & Ht' & Hf'); try done.
    exists hd'. repeat split; try done; by eapply frame_trans.
Qed.

(** C9: scoping of definitions.  A definition at a level puts the entry
    in the table of that level, where later commands of the level find it,
    and a group nested in the level reads that same table as long as it has
    made no definition of its own.  When the filter has run through a
    bracket group, every table that was there when the group was entered
    is as it was, and so is the table the level around the group consults:
    what the group defined is absent from it. *)
Theorem group_scope_isolated (fuel level : nat) (q : list Node)
    (d : ScopeData) (up : list (option ScopeData)) (h : Heap)
    (c2 : Ctx Heap) (name : text) (data : Macro) :
  Forall (fun n => clean n = true) q ->
  templates_only h ->
  macros d < length h ->
  _do_filter_loop _process fuel level
    (mkCtx (enqueue q) [] (None :: Some d :: up) h) = Ok c2 ->
  (let '(d', h') := _check_macros d h in
   deref (define name data d' h') (macros d') !! name = Some data
   /\ parent_scope (None :: Some d' :: up)
      = Ok (mkScope (macros d') false, Some d' :: up))
  /\ parent_scope (None :: Some d :: up)
     = Ok (mkScope (macros d) false, Some d :: up)
  /\ tail (chain c2) = Some d :: up
  /\ (forall l, l < length h -> store c2 !! l = h !! l)
  /\ deref (store c2) (macros d) = deref h (macros d).
Proof.
  intros Hq Ht Hl H. split; [|split; [done|]].
  - destruct (_check_macros d h) as [d' h'] eqn:Ec.
    destruct (_check_macros_valid _ _ _ _ Hl Ec) as (Hl' & _ & _).
    split; [|done]. rewrite deref_define by done. apply lookup_insert_eq.
  - apply (_do_filter_loop_frame _ _ _ _ None (Some d :: up)) in H
      as (hd' & Hch & _ & (_ & Hf & _)); cbn [queue chain store];
      [|done|by apply clean_enqueue|done].
    cbn [store] in Hf. rewrite Hch. split; [done|].
    assert (forall l, l < length h -> store c2 !! l = h !! l) as Hs.
    { intros l Hlt. by apply Hf. }
    split; [done|]. unfold deref. by rewrite Hs.
Qed.

Lemma group_scope_isolated_witness :
  let q := [CommandNode (lit "newcommand");
            BracketNode None [CommandNode (lit "f")];
            BracketNode None [TextNode (lit "x")];
            CommandNode (lit "f")] in
  exists c2,
    _do_filter_loop _process 20 1
      (mkCtx (enqueue q) [] [None; Some (mkScope 0 false)] [∅]) = Ok c2
    /\ out c2 = [TextNode (lit "x")]
    /\ tail (chain c2) = [Some (mkScope 0 false)]
    /\ deref (store c2) 0 = deref [∅] 0.
Proof.
  intros q.
  assert (exists c2,
            _do_filter_loop _process 20 1
              (mkCtx (enqueue q) [] [None; Some (mkScope 0 false)] [∅])
            = Ok c2 /\ out c2 = [TextNode (lit "x")]) as (c2 & H & Ho).
  { eexists. split; vm_compute; reflexivity. }
  exists c2. split; [exact H|]. split; [exact Ho|].
  destruct (group_scope_isolated 20 1 q (mkScope 0 false) [] [∅] c2
              (lit "f") (mkMacro 0 None (Template (GroupNode None []))))
    as (_ & _ & Hc & _ & Hd).
  - repeat constructor.
  - repeat constructor. intros k m Hk. by rewrite lookup_empty in Hk.
  - simpl. lia.
  - exact H.
  - split; [exact Hc|exact Hd].
Defined.

(** A definition in a group serves the group and the groups in it, not
    what follows the group; a redefinition in a group ends with it. *)
Example scoping_examples :
  expand_text 100 "{\newcommand{\f}{x}\f{\f}}\f" = Ok (lit "{x{x}}\f")
  /\ expand_text 100 "\newcommand{\f}{x}{\f\renewcommand{\f}{y}\f{\f}}\f"
     = Ok (lit "{xy{y}}x").
Proof. by vm_compute. Qed.

(** ** Expansion without macros *)

Lemma strip_measures n :
  node_size (strip n) = node_size n /\ depth (strip n) = depth n
  /\ is_group (strip n) = is_group n.
Proof.
  induction n as [d|d|d|d|h p|d cs IH|d cs IH] using Node_induction;
    try done.
  - rewrite (node_size_group (strip _)), (node_size_group (GroupNode d cs)),
      (depth_group (strip _)), (depth_group (GroupNode d cs)) by done.
    simpl. induction IH as [|c cs (H1 & H2 & H3) _ (IH1 & IH2 & _)];
      [done|].
    simpl. rewrite H1, H2, H3. injection IH1 as ->. by rewrite IH2.
  - rewrite (node_size_group (strip _)), (node_size_group (BracketNode d cs)),
      (depth_group (strip _)), (depth_group (BracketNode d cs)) by done.
    simpl. induction IH as [|c cs (H1 & H2 & H3) _ (IH1 & IH2 & _)];
      [done|].
    simpl. rewrite H1, H2, H3. injection IH1 as ->. by rewrite IH2.
Qed.

Lemma Node_str_strip n : Node_str (strip n) = Node_str n.
Proof.
  induction n as [d|d|d|d|h p|d cs IH|d cs IH] using Node_induction;
    try done.
  - cbn [strip]. rewrite !Node_str_group.
    induction IH as [|c cs Hc _ IH]; simpl; [done|]. by rewrite Hc, IH.
  - cbn [strip]. rewrite !Node_str_bracket. f_equal.
    induction IH as [|c cs Hc _ IH]; simpl; [done|]. by rewrite Hc, IH.
Qed.

Lemma strip_group n :
  is_group n = true -> strip n = rebuild n None (map strip (node_children n)).
Proof. by destruct n. Qed.

(** The loop of the filter under [_clear_data]. *)
Lemma _do_filter_loop_clear_data fuel : forall level q o ch,
  nodes_size (map qnode q) < fuel ->
  level <= MAX_RECURSE_LEVEL ->
  _do_filter_loop _clear_data fuel level (mkCtx q o ch tt)
  = if MAX_RECURSE_LEVEL <? level + depth_list (map qnode q)
    then Err RecursionLimitExceeded
    else Ok (mkCtx [] (o ++ map strip (map qnode q)) ch tt).
Proof.
  induction fuel as [|fuel IH]; intros level q o ch Hf Hl; [lia|].
  destruct q as [|[at_ n] q].
  - simpl. rewrite app_nil_r, Nat.add_0_r.
    destruct (MAX_RECURSE_LEVEL <? level) eqn:E; [|done].
    apply Nat.ltb_lt in E. lia.
  - cbn [_do_filter_loop queue _clear_data qnode mbind res_bind out chain
         store].
    cbn [map qnode depth_list nodes_size] in *.
    pose proof (node_size_pos n) as Hpos.
    destruct (is_group n) eqn:Hg.
    + rewrite (node_size_group n Hg) in Hf.
      assert (is_group (rebuild n None (node_children n)) = true) as ->
        by by destruct n.
      assert (node_children (rebuild n None (node_children n))
              = node_children n) as -> by by destruct n.
      assert (node_gdata (rebuild n None (node_children n)) = None) as ->
        by by destruct n.
      destruct (MAX_RECURSE_LEVEL <? level + 1) eqn:E1.
      * apply Nat.ltb_lt in E1.
        destruct (MAX_RECURSE_LEVEL <? _) eqn:E2; [done|].
        apply Nat.ltb_ge in E2. lia.
      * apply Nat.ltb_ge in E1.
        rewrite IH; rewrite ?qnode_enqueue; [|lia..].
        rewrite <- (depth_group n Hg).
        destruct (MAX_RECURSE_LEVEL <? level + 1 + depth n) eqn:E2.
        -- apply Nat.ltb_lt in E2. simpl.
           destruct (MAX_RECURSE_LEVEL <? _) eqn:E3; [done|].
           apply Nat.ltb_ge in E3. lia.
        -- apply Nat.ltb_ge in E2.
           cbn [mbind res_bind out chain store head tail mjoin option_join
                queue app].
           rewrite IH by lia.
           assert (rebuild (rebuild n None (node_children n)) None
                     (map strip (node_children n)) = strip n) as ->
             by by destruct n.
           destruct (MAX_RECURSE_LEVEL <? level + depth_list _) eqn:E3.
           ++ apply Nat.ltb_lt in E3.
              destruct (MAX_RECURSE_LEVEL <? _) eqn:E4; [done|].
              apply Nat.ltb_ge in E4. lia.
           ++ apply Nat.ltb_ge in E3.
              destruct (MAX_RECURSE_LEVEL <? _) eqn:E4.
              ** apply Nat.ltb_lt in E4. lia.
              ** by rewrite <- app_assoc.
    + rewrite Hg, IH by lia. rewrite Nat.max_0_l.
      assert (strip n = n) as -> by by destruct n.
      destruct (MAX_RECURSE_LEVEL <? _); [done|]. by rewrite <- app_assoc.
Qed.

Lemma clear_data_strip root :
  is_group root = true ->
  clear_data root
  = if MAX_RECURSE_LEVEL <? depth root then Err RecursionLimitExceeded
    else Ok (strip root).
Proof.
  intros Hg. unfold clear_data, filter.
  cbn [_clear_data qnode mbind res_bind store]. rewrite Hg.
  assert (is_group (rebuild root None (node_children root)) = true) as ->
    by by destruct root.
  assert (node_children (rebuild root None (node_children root))
          = node_children root) as -> by by destruct root.
  rewrite _do_filter_loop_clear_data; rewrite ?qnode_enqueue.
  - rewrite <- (depth_group root Hg). simpl.
    destruct (MAX_RECURSE_LEVEL <? depth root); [done|].
    simpl. by destruct root.
  - rewrite (node_size_group root Hg). lia.
  - unfold MAX_RECURSE_LEVEL. lia.
Qed.

Lemma plain_group n :
  is_group n = true -> plain n = plain_list (node_children n).
Proof.
  destruct n as [| | | | |d cs|d cs]; try done; intros _; simpl;
    induction cs as [|c cs IH]; simpl; congruence.
Qed.

Lemma weight_group n :
  is_group n = true -> weight n = S (weight_list (node_children n)).
Proof.
  destruct n as [| | | | |d cs|d cs]; try done; intros _; simpl; f_equal;
    induction cs as [|c cs IH]; simpl; congruence.
Qed.

Lemma weight_pos n : 0 < weight n.
Proof. destruct n; simpl; lia. Qed.

Lemma join_str_cons_ok n l x :
  join_str (n :: l) = Ok x ->
  exists a b, Node_str n = Ok a /\ join_str l = Ok b /\ x = a ++ b.
Proof.
  simpl. destruct (Node_str n) as [a| |]; simpl; [|done..].
  destruct (join_str l) as [b| |]; simpl; [|done..].
  intros [= <-]. eauto.
Qed.

Lemma name_in_definitions cmd :
  is_definition_command (CommandNode cmd) = false ->
  name_in cmd ["newcommand"; "renewcommand"; "providecommand"]%string = false
  /\ name_in cmd ["newenvironment"; "renewenvironment"]%string = false.
Proof.
  unfold is_definition_command, name_in. intros Hn.
  apply bool_decide_eq_false in Hn.
  split; apply bool_decide_eq_false; intros H; apply Hn;
    simpl in *; rewrite !elem_of_cons in *; tauto.
Qed.

Lemma parent_scope_ok hd rest :
  chain_ok (hd :: rest) -> parent_scope (hd :: rest) = Ok (s0, rest).
Proof.
  destruct hd as [d|]; simpl.
  - by intros ->.
  - destruct rest as [|[d|] rest']; try done. by intros ->.
Qed.

(** One call of the rule on a node of a plain queue, with the empty table:
    the node is kept; after [\begin] and [\end] the text that follows may
    be split, which leaves the string of the queue as it is. *)
Lemma _process_plain at_ n q o hd rest x :
  plain_list (n :: map qnode q) = true ->
  queue_ok q ->
  chain_ok (hd :: rest) ->
  join_str (map qnode q) = Ok x ->
  exists q1 hd1,
    _process (mkQ at_ n) (mkCtx q o (hd :: rest) [∅])
    = Ok (Some n, mkCtx q1 o (hd1 :: rest) [∅])
    /\ chain_ok (hd1 :: rest)
    /\ (at_ = true -> hd1 = Some s0)
    /\ weight_list (map qnode q1) < weight n + weight_list (map qnode q)
    /\ (is_group n = true -> q1 = q)
    /\ join_str (map qnode q1) = Ok x
    /\ depth_list (map qnode q1) = depth_list (map qnode q)
    /\ plain_list (map qnode q1) = true
    /\ queue_ok q1.
Proof.
  intros Hp Hq Hc Hx. pose proof (weight_pos n) as Hw.
  cbn [plain_list] in Hp.
  apply andb_prop in Hp as [Hp Hpl]. apply andb_prop in Hp as [Hpn Hbe].
  unfold _process. cbn [attached negb qnode chain].
  destruct at_; cbn [negb].
  2: { exists q, hd. repeat split; try done. lia. }
  rewrite (parent_scope_ok _ _ Hc).
  cbn [mbind res_bind queue out chain store]. cbv zeta.
  assert (deref [∅] (macros s0) = (∅ : Table)) as Hd by done.
  destruct n as [d|d|cmd|d|h p|d cs|d cs];
    try (exists q, (Some s0); repeat split; try done; lia).
  simpl in Hpn. apply negb_true_iff in Hpn.
  destruct (name_in_definitions cmd Hpn) as [-> ->].
  rewrite Hd, lookup_empty. cbn [is_begin_end] in Hbe.
  destruct (name_in cmd ["begin"; "end"]%string) eqn:Eb.
  2: { exists q, (Some s0). repeat split; try done. lia. }
  destruct q as [|[am m] q2]; [done|].
  cbn [map qnode] in *. apply negb_true_iff in Hbe.
  apply Forall_cons in Hq as [[Ham Hcm] Hq2]. cbn [qnode attached] in *.
  apply join_str_cons_ok in Hx as (a & b & Hm & Hb & ->).
  cbn [plain_list] in Hpl.
  apply andb_prop in Hpl as [Hpl1 Hpl2].
  apply andb_prop in Hpl1 as [Hpm Hbm].
  assert (exists t q1,
            read_next1 (mkQ am m :: q2) = Ok (t, q1)
            /\ Node_str (qnode t) <> OutOfFuel
            /\ (forall e, Node_str (qnode t) <> Err e)
            /\ weight_list (map qnode (t :: q1))
               <= 1 + weight_list (m :: map qnode q2)
            /\ join_str (map qnode (t :: q1)) = Ok (a ++ b)
            /\ depth_list (map qnode (t :: q1))
               = depth_list (m :: map qnode q2)
            /\ plain_list (map qnode (t :: q1)) = true
            /\ queue_ok (t :: q1))
    as (t & q1 & Hr & Hs1 & Hs2 & Hw1 & Hj1 & Hd1 & Hp1 & Hq1).
  { unfold read_next1. cbn [read_next qnode attached]. rewrite Hbe.
    destruct m as [[|c [|c' r]]|d0|d0|d0|h0 p0|d0 cs0|d0 cs0];
      cbn [mbind res_bind];
      (eexists _, _; split; [reflexivity|]; cbn [qnode map];
       repeat split; try done;
       try solve [ lia
                 | cbn [join_str]; rewrite ?Hm, ?Hb; done
                 | cbn [plain_list]; rewrite ?Hpm, ?Hbm, ?Hpl2; done
                 | constructor; [split; [auto|done] | done] ]).
    - simpl in Hm. injection Hm as <-. simpl. by rewrite Hb.
    - constructor; [by split; [right|]|].
      constructor; [by split; [right|]|done]. }
  rewrite Hr. cbn [mbind res_bind]. unfold env_name.
  destruct (Node_str (qnode t)) as [nm|e|] eqn:Est;
    [|by destruct (Hs2 e)|done].
  cbn [mbind res_bind]. rewrite lookup_empty.
  exists (t :: q1), (Some s0). repeat split; try done.
  cbn [weight]. cbn [weight_list] in *. lia.
Qed.

Lemma Node_str_rebuild n d cs x :
  is_group n = true -> join_str cs = join_str (node_children n) ->
  Node_str n = Ok x -> Node_str (rebuild n d cs) = Ok x.
Proof.
  destruct n as [| | | | |d0 cs0|d0 cs0]; try done; intros _ Hj; simpl rebuild;
    rewrite ?Node_str_group, ?Node_str_bracket, Hj; done.
Qed.

Lemma depth_rebuild n d cs :
  is_group n = true -> depth (rebuild n d cs) = depth_list cs.
Proof.
  intros Hg. rewrite depth_group by by destruct n. by destruct n.
Qed.

Lemma Node_str_children n x :
  is_group n = true -> Node_str n = Ok x ->
  exists y, join_str (node_children n) = Ok y.
Proof.
  destruct n as [| | | | |d cs|d cs]; try done; intros _;
    rewrite ?Node_str_group, ?Node_str_bracket; simpl node_children.
  - eauto.
  - destruct (join_str cs) as [y| |]; simpl; [eauto|done..].
Qed.

Lemma queue_ok_enqueue l :
  Forall (fun n => clean n = true) l -> queue_ok (enqueue l).
Proof.
  unfold queue_ok, enqueue. rewrite Forall_fmap. intros H.
  eapply Forall_impl; [exact H|].
  intros n Hn. simpl. split; [by left|done].
Qed.

(** The loop of the filter under [_process] on a plain queue, with the
    empty table: it ends, and its output has the string and the depth of
    the queue. *)
Lemma _do_filter_loop_plain fuel : forall level q o hd rest x,
  weight_list (map qnode q) < fuel ->
  level + depth_list (map qnode q) <= MAX_RECURSE_LEVEL ->
  plain_list (map qnode q) = true ->
  queue_ok q ->
  chain_ok (hd :: rest) ->
  join_str (map qnode q) = Ok x ->
  exists o' hd',
    _do_filter_loop _process fuel level (mkCtx q o (hd :: rest) [∅])
    = Ok (mkCtx [] (o ++ o') (hd' :: rest) [∅])
    /\ chain_ok (hd' :: rest)
    /\ join_str o' = Ok x
    /\ depth_list o' = depth_list (map qnode q).
Proof.
  induction fuel as [|fuel IH]; intros level q o hd rest x Hf Hl Hp Hq Hc Hx;
    [lia|].
  destruct q as [|[at_ n] q].
  { exists [], hd. simpl. rewrite app_nil_r. by injection Hx as <-. }
  cbn [map qnode] in *.
  apply join_str_cons_ok in Hx as (a & b & Hn & Hb & ->).
  pose proof Hq as Hq0. apply Forall_cons in Hq as [[Hat Hcn] Hq].
  cbn [qnode attached] in *.
  destruct (_process_plain at_ n q o hd rest b Hp Hq Hc Hb)
    as (q1 & hd1 & Hr & Hc1 & Hh1 & Hw1 & Hg1 & Hj1 & Hd1 & Hp1 & Hq1).
  cbn [_do_filter_loop queue out chain store]. rewrite Hr.
  cbn [mbind res_bind queue out chain store].
  cbn [weight_list depth_list] in *.
  destruct (is_group n) eqn:Hg.
  - rewrite (Hg1 eq_refl) in *. clear Hg1.
    destruct Hat as [->|?]; [|done]. rewrite (Hh1 eq_refl) in *.
    rewrite (weight_group n Hg) in *.
    rewrite (depth_group n Hg) in Hl.
    destruct (MAX_RECURSE_LEVEL <? level + 1) eqn:E1;
      [apply Nat.ltb_lt in E1; lia|].
    destruct (Node_str_children n a Hg Hn) as [y Hy].
    rewrite (clean_group n Hg) in Hcn.
    destruct (node_gdata n) eqn:Hgd; [done|].
    apply andb_prop in Hp as [Hp _]. apply andb_prop in Hp as [Hpn _].
    rewrite (plain_group n Hg) in Hpn.
    destruct (IH (level + 1) (enqueue (node_children n)) [] None
                (Some s0 :: rest) y) as (o2 & hd2 & -> & Hc2 & Hj2 & Hd2);
      rewrite ?qnode_enqueue; try done; try lia.
    { by apply queue_ok_enqueue, forallb_clean. }
    cbn [mbind res_bind queue out chain store head tail mjoin option_join
         app].
    destruct (IH level q (o ++ [rebuild n hd2 o2])
                (Some s0) rest b) as (o3 & hd3 & -> & Hc3 & Hj3 & Hd3);
      try done; try lia.
    rewrite qnode_enqueue in Hd2.
    exists (rebuild n hd2 o2 :: o3), hd3.
    rewrite <- app_assoc. repeat split; try done.
    + cbn [join_str].
      rewrite (Node_str_rebuild n _ o2 a Hg), Hj3; [done| |done].
      by rewrite Hj2, Hy.
    + cbn [depth_list].
      assert (is_group (rebuild n hd2 o2) = true) as ->
        by by destruct n.
      rewrite (depth_rebuild n _ _ Hg), Hd2, Hd3.
      by rewrite (depth_group n Hg).
  - destruct (IH level q1 (o ++ [n]) hd1 rest b)
      as (o3 & hd3 & -> & Hc3 & Hj3 & Hd3); try done; try lia.
    exists (n :: o3), hd3. rewrite <- app_assoc. repeat split; try done.
    + cbn [join_str]. by rewrite Hn, Hj3.
    + cbn [depth_list]. by rewrite Hg, Hd3, Hd1.
Qed.




(** * Further properties *)

(** ** Copies and [clear_data] *)

Lemma Node_str_copy n : Node_str (copy n) = Node_str n.
Proof.
  induction n as [d|d|d|d|h p|d cs IH|d cs IH] using Node_induction;
    try done.
  - cbn [copy]. rewrite !Node_str_group.
    induction IH as [|c cs Hc _ IH]; simpl; [done|]. by rewrite Hc, IH.
  - cbn [copy]. rewrite !Node_str_bracket. f_equal.
    induction IH as [|c cs Hc _ IH]; simpl; [done|]. by rewrite Hc, IH.
Qed.

Lemma copy_clean n : clean n = true -> copy n = n.
Proof.
  induction n as [d|d|d|d|h p|d cs IH|d cs IH] using Node_induction;
    try done; destruct d; simpl; try done; intros Hc; f_equal;
    induction IH as [|c cs Hc1 _ IH]; simpl in *; try done;
    apply andb_prop in Hc as [H1 H2]; by rewrite Hc1, IH.
Qed.

(** X1: a copy has the string, the depth and the number of nodes of the
    tree, carries no data on any group, and copying it again gives the
    same tree. *)
Theorem copy_preserves (n : Node) :
  Node_str (copy n) = Node_str n
  /\ depth (copy n) = depth n
  /\ node_size (copy n) = node_size n
  /\ clean (copy n) = true
  /\ copy (copy n) = copy n.
Proof.
  destruct (copy_measures n) as (Hs & Hd & _).
  repeat split; try done.
  - apply Node_str_copy.
  - apply clean_copy.
  - apply copy_clean, clean_copy.
Qed.

Lemma clean_strip n : clean (strip n) = true.
Proof.
  induction n as [d|d|d|d|h p|d cs IH|d cs IH] using Node_induction;
    try done; simpl; induction IH as [|c cs Hc _ IH]; simpl;
    try done; by rewrite Hc, IH.
Qed.

(** X2: [clear_data] on a group nested at most 256 levels deep returns the
    tree without data on any group, of the same string; on a deeper group
    it raises [RecursionLimitExceeded], and on a node that is no group an
    [AttributeError]. *)
Theorem clear_data_result (root : Node) :
  clear_data root
  = (if is_group root then
       if MAX_RECURSE_LEVEL <? depth root then Err RecursionLimitExceeded
       else Ok (strip root)
     else Err PyAttributeError)
  /\ clean (strip root) = true
  /\ Node_str (strip root) = Node_str root.
Proof.
  split; [|split; [apply clean_strip|apply Node_str_strip]].
  destruct (is_group root) eqn:Hg; [by apply clear_data_strip|].
  unfold clear_data, filter. cbn [_clear_data qnode mbind res_bind].
  by rewrite Hg, Hg.
Qed.

(** X3: whatever the tree, the table and the macros met, a tree that
    [demacro] returns is a group without data on any group, nested at most
    256 levels deep. *)
Theorem demacro_returns_clean (fuel : nat) (tbl tbl' : Table)
    (root r : Node) :
  demacro fuel tbl root = Ok (r, tbl') ->
  is_group r = true /\ clean r = true /\ depth r <= MAX_RECURSE_LEVEL.
Proof.
  unfold demacro. destruct (is_group root); [|done].
  destruct (filter _process fuel _ false [tbl]) as [[root1 h]| |] eqn:Ef;
    cbn [mbind res_bind]; [|done..].
  assert (is_group root1 = true) as Hg.
  { unfold filter in Ef.
    destruct (_process _ _) as [[[obj|] c0]| |]; cbn [mbind res_bind] in Ef;
      try done.
    destruct (is_group obj) eqn:Ho; [|done].
    destruct (_do_filter_loop _ _ _ _) as [c| |]; cbn [mbind res_bind] in Ef;
      [|done..].
    injection Ef as <- _. by destruct obj. }
  rewrite (clear_data_strip root1 Hg).
  destruct (MAX_RECURSE_LEVEL <? depth root1) eqn:E; [done|].
  cbn [mbind res_bind]. intros [= <- _].
  destruct (strip_measures root1) as (_ & -> & ->).
  apply Nat.ltb_ge in E. split; [done|]. split; [apply clean_strip|done].
Qed.

Lemma demacro_returns_clean_witness :
  exists r tbl',
    demacro 30 ∅
      (GroupNode None [CommandNode (lit "newcommand");
                       BracketNode None [CommandNode (lit "f")];
                       BracketNode None [TextNode (lit "x")];
                       BracketNode None [CommandNode (lit "f")]])
    = Ok (r, tbl')
    /\ is_group r = true /\ clean r = true /\ depth r <= MAX_RECURSE_LEVEL.
Proof.
  assert (exists r tbl',
            demacro 30 ∅
              (GroupNode None [CommandNode (lit "newcommand");
                               BracketNode None [CommandNode (lit "f")];
                               BracketNode None [TextNode (lit "x")];
                               BracketNode None [CommandNode (lit "f")]])
            = Ok (r, tbl')) as (r & tbl' & H).
  { eexists _, _. vm_compute. reflexivity. }
  exists r, tbl'. split; [exact H|].
  exact (demacro_returns_clean _ _ _ _ _ H).
Defined.

(** ** Tokens and parsed trees *)

Lemma Scan_literal_gaps patterns txt i toks :
  Scan patterns txt i toks -> literal_gaps patterns txt toks.
Proof.
  induction 1 as [i Hd|i l1 p l2 t rest Hi -> Hp H1 H2 Hr IH].
  - destruct (i <? length txt) eqn:Ei; [|done]. apply Nat.ltb_lt in Ei.
    simpl. split; [|done]. split; [|done].
    intros p t' Hin Hs. destruct Hd as [Hd|Hd]; [lia|].
    by rewrite Hd in Hs.
  - pose proof (search_bounds _ _ _ _ Hp) as (Hpt & _).
    assert (literal_gaps (l1 ++ p :: l2) txt (t :: rest)) as Ht.
    { cbn [literal_gaps]. rewrite Hpt. split; [|done].
      apply elem_of_app. right. by left. }
    destruct (i <? start t); [|done].
    cbn [app literal_gaps NoMatch pattern start end_].
    split; [|done]. split; [|by rewrite Hpt].
    intros q t' Hin Hs.
    apply elem_of_app in Hin as [Hin|Hin]; [specialize (H1 q t' Hin Hs); lia|].
    apply elem_of_cons in Hin as [->|Hin]; [|by apply (H2 q t')].
    rewrite Hp in Hs. by injection Hs as <-.
Qed.

(** X4: in the token sequence of a text, every matched token belongs to a
    pattern of the list, no two no-match tokens follow one another, and no
    pattern of the list has a match that starts inside a no-match token: a
    no-match token is a longest stretch of text without a match. *)
Theorem tokenize_literal_gaps (patterns : list Pattern) (txt : text) :
  exists toks,
    tokenize patterns txt = Some toks /\ literal_gaps patterns txt toks.
Proof.
  destruct (tokenize_scan patterns txt) as (toks & Ht & _ & _ & Hs).
  exists toks. split; [done|]. by eapply Scan_literal_gaps.
Qed.

Lemma no_float_join cs :
  forallb no_float cs = true -> exists x, join_str cs = Ok x.
Proof.
  assert (forall n, no_float n = true -> exists x, Node_str n = Ok x) as Hn.
  { induction n as [d|d|d|d|h p|d cs0 IH|d cs0 IH] using Node_induction;
      try (simpl; eauto; fail).
    - destruct h; simpl; [eauto|done].
    - cbn [no_float]. rewrite Node_str_group. intros Hf.
      induction IH as [|c cs1 Hc _ IH]; simpl in *; [eauto|].
      apply andb_prop in Hf as [H1 H2].
      destruct (Hc H1) as [a ->]. destruct (IH H2) as [b ->]. simpl. eauto.
    - cbn [no_float]. rewrite Node_str_bracket. intros Hf.
      assert (exists y, join_str cs0 = Ok y) as [y ->]; [|simpl; eauto].
      induction IH as [|c cs1 Hc _ IH]; simpl in *; [eauto|].
      apply andb_prop in Hf as [H1 H2].
      destruct (Hc H1) as [a ->]. destruct (IH H2) as [b ->]. simpl. eauto. }
  induction cs as [|c cs IH]; simpl; [eauto|].
  intros [H1 H2]%andb_prop.
  destruct (Hn c H1) as [a ->]. destruct (IH H2) as [b ->]. simpl. eauto.
Qed.

Lemma built_snoc l n :
  built l -> clean n = true -> no_float n = true -> built (l ++ [n]).
Proof.
  intros [H1 H2] Hc Hf. unfold built. rewrite !forallb_app. simpl.
  by rewrite H1, H2, Hc, Hf.
Qed.

Lemma to_ast_step_built txt c t c' :
  to_ast_step txt c t = Ok c' ->
  built (cur c) -> Forall built (up c) ->
  built (cur c') /\ Forall built (up c').
Proof.
  unfold to_ast_step, cursor_add. intros H Hc Hu.
  destruct (pattern t) as [[]|].
  - destruct (groups t) as [|g0 ?]; [done|]. injection H as <-.
    simpl. split; [by apply built_snoc|done].
  - destruct (groups t) as [|g0 ?]; [done|]. injection H as <-.
    simpl. split; [by apply built_snoc|done].
  - destruct (groups t) as [|g0 [|g1 ?]]; try done.
    destruct (py_int g1); [|done]. injection H as <-.
    simpl. split; [by apply built_snoc|done].
  - injection H as <-. simpl. split; [done|]. by constructor.
  - destruct (up c) as [|p u]; [done|]. injection H as <-.
    apply Forall_cons in Hu as [Hp Hu]. simpl. split; [|done].
    destruct Hc as [Hc1 Hc2]. apply built_snoc; [done|by simpl..].
  - injection H as <-. simpl. split; [by apply built_snoc|done].
  - injection H as <-. simpl. split; [by apply built_snoc|done].
Qed.

Lemma to_ast_loop_built txt toks : forall c c',
  to_ast_loop txt c toks = Ok c' ->
  built (cur c) -> Forall built (up c) ->
  built (cur c') /\ Forall built (up c').
Proof.
  induction toks as [|t toks IH]; intros c c'; simpl.
  - by intros [= <-].
  - destruct (to_ast_step txt c t) as [c1| |] eqn:E; simpl; [|done..].
    intros H Hc Hu. apply to_ast_step_built in E as [Hc1 Hu1]; [|done..].
    by apply (IH c1).
Qed.

Lemma covers_app i l1 l2 n :
  covers i (l1 ++ l2) n <-> exists m, covers i l1 m /\ covers m l2 n.
Proof.
  revert i. induction l1 as [|t l1 IH]; intros i; simpl.
  - split; [eauto|]. by intros (m & -> & H).
  - rewrite IH. split.
    + intros (H1 & H2 & m & H3 & H4). eauto 10.
    + intros (m & (H1 & H2 & H3) & H4). eauto 10.
Qed.

Lemma brace_depth_app d l1 l2 :
  brace_depth d (l1 ++ l2) = d' ← brace_depth d l1; brace_depth d' l2.
Proof.
  revert d. induction l1 as [|t l1 IH]; intros d; simpl; [done|].
  destruct (brace_step d t) as [d1|]; simpl; [apply IH|done].
Qed.

Lemma brace_depth_shift k l : forall d d',
  brace_depth d l = Some d' -> brace_depth (k + d) l = Some (k + d').
Proof.
  induction l as [|t l IH]; intros d d'; simpl.
  - by intros [= <-].
  - unfold brace_step. destruct (pattern t) as [[]|]; simpl;
      try (apply IH).
    + intros H. replace (S (k + d)) with (k + S d) by lia. by apply IH.
    + destruct d as [|d0]; [done|].
      replace (k + S d0) with (S (k + d0)) by lia. simpl. apply IH.
Qed.

(** The last left brace that is not closed: what follows it is balanced. *)
Lemma brace_depth_open n : forall toks d,
  length toks <= n ->
  brace_depth 0 toks = Some (S d) ->
  exists toks1 t toks2,
    toks = toks1 ++ t :: toks2 /\ pattern t = Some TOKEN_LCB
    /\ brace_depth 0 toks1 = Some d /\ brace_depth 0 toks2 = Some 0.
Proof.
  induction n as [|n IH]; intros toks d Hn.
  - destruct toks; [done|simpl in Hn; lia].
  - destruct toks as [|x l _] using rev_ind; [done|].
    rewrite length_app in Hn. simpl in Hn.
    rewrite brace_depth_app. 
    destruct (brace_depth 0 l) as [e|] eqn:El; simpl; [|done].
    unfold brace_step at 1.
    destruct (pattern x) as [p|] eqn:Hp.
    + destruct p; simpl.
      * intros [= ->].
        destruct (IH l d ltac:(lia) El) as (l1 & t & l2 & -> & Ht & H1 & H2).
        exists l1, t, (l2 ++ [x]). rewrite <- app_assoc. simpl.
        split; [done|]. split; [done|]. split; [done|].
        rewrite brace_depth_app, H2. simpl. unfold brace_step. by rewrite Hp.
      * intros [= ->].
        destruct (IH l d ltac:(lia) El) as (l1 & t & l2 & -> & Ht & H1 & H2).
        exists l1, t, (l2 ++ [x]). rewrite <- app_assoc. simpl.
        split; [done|]. split; [done|]. split; [done|].
        rewrite brace_depth_app, H2. simpl. unfold brace_step. by rewrite Hp.
      * intros [= ->].
        destruct (IH l d ltac:(lia) El) as (l1 & t & l2 & -> & Ht & H1 & H2).
        exists l1, t, (l2 ++ [x]). rewrite <- app_assoc. simpl.
        split; [done|]. split; [done|]. split; [done|].
        rewrite brace_depth_app, H2. simpl. unfold brace_step. by rewrite Hp.
      * intros [= ->]. exists l, x, []. by rewrite El.
      * destruct e as [|e]; [done|]. intros [= ->].
        destruct (IH l (S d) ltac:(lia) El)
          as (l1 & t & l2 & -> & Ht & H1 & H2).
        rewrite length_app in Hn. simpl in Hn.
        destruct (IH l1 d ltac:(lia) H1)
          as (l1' & t' & l2' & -> & Ht' & H1' & H2').
        exists l1', t', (l2' ++ t :: l2 ++ [x]).
        split; [by rewrite <- !app_assoc|]. split; [done|]. split; [done|].
        rewrite brace_depth_app, H2'. simpl.
        unfold brace_step at 1. rewrite Ht. simpl.
        rewrite brace_depth_app.
        pose proof (brace_depth_shift 1 l2 0 0 H2) as H3. simpl in H3.
        rewrite H3. simpl. unfold brace_step. by rewrite Hp.
      * intros [= ->].
        destruct (IH l d ltac:(lia) El) as (l1 & t & l2 & -> & Ht & H1 & H2).
        exists l1, t, (l2 ++ [x]). rewrite <- app_assoc. simpl.
        split; [done|]. split; [done|]. split; [done|].
        rewrite brace_depth_app, H2. simpl. unfold brace_step. by rewrite Hp.
    + simpl. intros [= ->].
      destruct (IH l d ltac:(lia) El) as (l1 & t & l2 & -> & Ht & H1 & H2).
      exists l1, t, (l2 ++ [x]). rewrite <- app_assoc. simpl.
      split; [done|]. split; [done|]. split; [done|].
      rewrite brace_depth_app, H2. simpl. unfold brace_step. by rewrite Hp.
Qed.

Lemma to_ast_loop_app txt c l1 l2 :
  to_ast_loop txt c (l1 ++ l2)
  = c1 ← to_ast_loop txt c l1; to_ast_loop txt c1 l2.
Proof.
  revert c. induction l1 as [|t l1 IH]; intros c; simpl; [done|].
  destruct (to_ast_step txt c t) as [c1| |]; simpl; [apply IH|done..].
Qed.

(** Tokens whose braces are balanced leave the groups above the cursor as
    they are. *)
Lemma to_ast_loop_up txt toks : forall c c' u1 u0 d',
  to_ast_loop txt c toks = Ok c' ->
  up c = u1 ++ u0 -> brace_depth (length u1) toks = Some d' ->
  exists u1', up c' = u1' ++ u0 /\ length u1' = d'.
Proof.
  induction toks as [|t toks IH]; intros c c' u1 u0 d'; simpl.
  - intros [= <-] Hu [= <-]. eauto.
  - destruct (to_ast_step txt c t) as [c1| |] eqn:E; simpl; [|done..].
    intros Hl Hu.
    destruct (brace_step (length u1) t) as [d1|] eqn:Eb; simpl; [|done].
    intros Hd. 
    assert (exists u1', up c1 = u1' ++ u0 /\ length u1' = d1)
      as (u1' & Hu1 & <-).
    { unfold to_ast_step, cursor_add in E. unfold brace_step in Eb.
      destruct (pattern t) as [[]|].
      - destruct (groups t) as [|g0 ?]; [done|]. injection E as <-.
        injection Eb as <-. eauto.
      - destruct (groups t) as [|g0 ?]; [done|]. injection E as <-.
        injection Eb as <-. eauto.
      - destruct (groups t) as [|g0 [|g1 ?]]; try done.
        destruct (py_int g1); [|done]. injection E as <-.
        injection Eb as <-. eauto.
      - injection E as <-. injection Eb as <-. simpl.
        exists (cur c :: u1). by rewrite Hu.
      - destruct u1 as [|p u1]; [done|]. simpl in Eb. injection Eb as <-.
        rewrite Hu in E. simpl in E. injection E as <-. simpl. eauto.
      - injection E as <-. injection Eb as <-. eauto.
      - injection E as <-. injection Eb as <-. eauto. }
    by apply (IH c1 c' u1' u0 d').
Qed.

(** The builder on a text with a left brace left open: the cursor ends on
    the bracket group of the last such brace, whose children are the tree
    of the text after it. *)
Lemma to_ast_loop_open txt toks d0 :
  covers 0 toks (length txt) -> Forall (genuine txt) toks ->
  brace_depth 0 toks = Some (S d0) ->
  exists toks1 t toks2 c,
    toks = toks1 ++ t :: toks2 /\ pattern t = Some TOKEN_LCB
    /\ brace_depth 0 toks1 = Some d0 /\ brace_depth 0 toks2 = Some 0
    /\ to_ast_loop txt (mkCursor [] []) toks = Ok c
    /\ length (up c) = S d0
    /\ join_str (cur c) = Ok (drop (end_ t) txt).
Proof.
  intros Hc Hg Hd.
  destruct (brace_depth_open (length toks) toks d0 ltac:(lia) Hd)
    as (toks1 & t & toks2 & -> & Ht & H1 & H2).
  exists toks1, t, toks2.
  change (toks1 ++ t :: toks2) with (toks1 ++ [t] ++ toks2) in *.
  rewrite app_assoc in *.
  apply covers_app in Hc as (m & Hc1 & Hc2).
  apply Forall_app in Hg as [Hg1 Hg2].
  assert (m = end_ t) as ->.
  { apply covers_app in Hc1 as (j & _ & Hj). simpl in Hj. by destruct Hj as (_ & _ & ->). }
  assert (brace_depth 0 (toks1 ++ [t]) = Some (S d0)) as Hd1.
  { rewrite brace_depth_app, H1. simpl. unfold brace_step. by rewrite Ht. }
  pose proof (to_ast_loop_text txt (end_ t) (toks1 ++ [t]) (mkCursor [] [])
                [] [] 0 Hg1 Hc1 eq_refl eq_refl eq_refl) as Ha.
  cbn [up length] in Ha. rewrite Hd1 in Ha.
  destruct Ha as (c1 & a1 & b1 & Hl1 & Hu1 & Ha1 & Hb1 & Hab1).
  assert (cur c1 = []) as Hcur.
  { rewrite to_ast_loop_app in Hl1.
    destruct (to_ast_loop txt (mkCursor [] []) toks1) as [c0| |];
      simpl in Hl1; [|done..].
    unfold to_ast_step in Hl1. rewrite Ht in Hl1. simpl in Hl1.
    by injection Hl1 as <-. }
  rewrite Hcur in Hb1. injection Hb1 as <-. rewrite app_nil_r in Hab1.
  subst a1.
  assert (join_str (cur c1) = Ok []) as Hj1 by by rewrite Hcur.
  assert (take (end_ t) txt ++ [] = take (end_ t) txt) as Hnil
    by apply app_nil_r.
  pose proof (to_ast_loop_text txt (length txt) toks2 c1 _ [] (end_ t)
                Hg2 Hc2 Ha1 Hj1 Hnil) as Hb.
  pose proof (brace_depth_shift (S d0) toks2 0 0 H2) as Hs.
  rewrite Nat.add_0_r in Hs. rewrite Hu1, Hs in Hb.
  destruct Hb as (c' & a' & b' & Hl' & Hu' & Ha' & Hb' & Hab').
  exists c'. split; [by rewrite <- app_assoc|].
  split; [done|]. split; [done|]. split; [done|].
  split; [by rewrite to_ast_loop_app, Hl1|]. split; [done|].
  destruct (to_ast_loop_up txt toks2 c1 c' [] (up c1) 0 Hl' eq_refl H2)
    as (u & Hu & Hlen).
  destruct u; [|done]. simpl in Hu. rewrite Hu, Ha1 in Ha'.
  injection Ha' as <-. rewrite Hb'. f_equal.
  rewrite (take_ge txt (length txt)) in Hab' by done.
  rewrite <- (take_drop (end_ t) txt) in Hab' at 2.
  by apply app_inv_head in Hab'.
Qed.

(** X5: [to_ast] on a text fails with [UnbalancedBrackets] only.  The tree
    it returns has no data on any group and no float hash count, so that
    its string exists.  When every left-brace token is closed it is the
    root [GroupNode], and the string of its children is the text.  Otherwise
    it is the [BracketNode] of the last left-brace token that is not
    closed, the innermost group still open: the tokens after that brace
    are balanced, and the string of its children is the text after it. *)
Theorem to_ast_tree (txt : text) :
  exists toks,
    tokenize def_tokenizer txt = Some toks
    /\ match brace_depth 0 toks with
       | None => to_ast (Some txt) None None = Err UnbalancedBrackets
       | Some d =>
           exists cs x,
             to_ast (Some txt) None None
             = Ok (if d =? 0 then GroupNode None cs else BracketNode None cs)
             /\ forallb clean cs = true
             /\ forallb no_float cs = true
             /\ join_str cs = Ok x
             /\ match d with
                | 0 => x = txt
                | S d0 =>
                    exists toks1 t toks2,
                      toks = toks1 ++ t :: toks2
                      /\ pattern t = Some TOKEN_LCB
                      /\ brace_depth 0 toks1 = Some d0
                      /\ brace_depth 0 toks2 = Some 0
                      /\ x = drop (end_ t) txt
                end
       end.
Proof.
  destruct (tokenize_scan def_tokenizer txt) as (toks & Ht & Hc & _ & Hs).
  apply Scan_genuine in Hs.
  destruct (to_ast_by_brace_depth txt) as (toks' & Ht' & H).
  rewrite Ht in Ht'. injection Ht' as <-.
  exists toks. split; [done|].
  destruct (brace_depth 0 toks) as [d|] eqn:Hd; [|done].
  destruct H as (cs & Hr & Hx).
  assert (built cs) as [Hcl Hf].
  { unfold to_ast in Hr. cbn [mbind res_bind default] in Hr.
    rewrite Ht in Hr.
    destruct (to_ast_loop txt (mkCursor [] []) toks) as [c| |] eqn:El;
      cbn [mbind res_bind] in Hr; [|done..].
    apply to_ast_loop_built in El as [Hb _]; [|done|constructor].
    destruct (up c), (d =? 0); by simplify_eq. }
  destruct d as [|d0].
  - exists cs, txt. by rewrite (Hx eq_refl).
  - destruct (to_ast_loop_open txt toks d0 Hc Hs Hd)
      as (toks1 & t & toks2 & c & Ha & Hp & H1 & H2 & Hl & Hu & Hj).
    unfold to_ast in Hr. cbn [mbind res_bind default] in Hr.
    rewrite Ht, Hl in Hr. cbn [mbind res_bind] in Hr.
    destruct (up c) as [|pa u] eqn:Eu; [done|]. simpl in Hr.
    injection Hr as <-.
    exists (cur c), (drop (end_ t) txt).
    split.
    { unfold to_ast. cbn [mbind res_bind default].
      rewrite Ht, Hl. cbn [mbind res_bind]. by rewrite Eu. }
    split; [done|]. split; [done|]. split; [done|].
    by exists toks1, t, toks2.
Qed.

(** ** Argument counts *)

Lemma read_next1_unit it n it' :
  read_next1 it = Ok (n, it') -> unit_node (qnode n) = true.
Proof.
  unfold read_next1. destruct (read_next it true) as [[[q|] r]| |] eqn:E;
    simpl; try done.
  intros [= <- <-]. clear -E. induction it as [|q0 it IH]; simpl in E; [done|].
  destruct (is_skipped (qnode q0)) eqn:Hs; [by apply IH|].
  unfold unit_node.
  destruct (qnode q0) as [[|c [|c' d]]| | | | | |] eqn:Eq;
    injection E as <- _; simpl; rewrite ?Eq; done.
Qed.

Lemma _read_until_end_bracket_loop_units fuel : forall it acc g it',
  _read_until_end_bracket_loop fuel it acc = Ok (g, it') ->
  forallb unit_node acc = true ->
  exists cs, g = GroupNode None cs /\ forallb unit_node cs = true.
Proof.
  induction fuel as [|fuel IH]; intros it acc g it'; simpl; [done|].
  destruct (read_next1 it) as [[n it1]|e|] eqn:E; simpl; [|done..].
  apply read_next1_unit in E.
  destruct (is_text (qnode n) "]").
  - intros [= <- <-] Hacc. eauto.
  - intros H Hacc. apply (IH _ _ _ _ H).
    rewrite forallb_app. simpl. by rewrite Hacc, E.
Qed.

Lemma py_int_char c :
  py_int [c] = if is_digit c then Some (Z.of_nat (digit_value c)) else None.
Proof. destruct c as [[] [] [] [] [] [] [] []]; by vm_compute. Qed.

Lemma digit_value_range c :
  is_digit c = true ->
  ((0 <=? Z.of_nat (digit_value c)) && (Z.of_nat (digit_value c) <? 10))%Z
  = true.
Proof. destruct c as [[] [] [] [] [] [] [] []]; by vm_compute. Qed.

Lemma _filter_children_units d cs :
  forallb unit_node cs = true ->
  _filter_children (GroupNode d cs) true
  = match cs with [c] => Some c | _ => None end.
Proof.
  intros H. unfold _filter_children. cbn [is_group node_children].
  rewrite filter_all; [done|].
  apply forallb_forall. intros x Hx.
  rewrite forallb_forall in H. specialize (H x Hx). by destruct x.
Qed.

(** X6: the argument count of a definition is accepted exactly when the
    brackets hold, whitespace and comments apart, one digit and nothing
    else: the count is that digit, and any other content, also a number of
    two digits or a digit in braces, raises [MalformedArgumentCount]. *)
Theorem argument_count_single_digit (it it' : Queue) (g : Node) :
  _read_until_end_bracket it = Ok (g, it') ->
  _extract_arguments g
  = match node_children g with
    | [TextNode [d]] =>
        if is_digit d then Ok (digit_value d) else Err MalformedArgumentCount
    | _ => Err MalformedArgumentCount
    end.
Proof.
  intros H. apply _read_until_end_bracket_loop_units in H as (cs & -> & Hcs);
    [|done].
  unfold _extract_arguments. rewrite (_filter_children_units _ cs Hcs).
  destruct cs as [|c [|c2 cs]]; cbn [default node_children].
  - done.
  - simpl in Hcs. rewrite andb_true_r in Hcs.
    destruct c as [[|ch [|ch2 d]]| | | | | |]; try done.
    unfold id. rewrite py_int_char. destruct (is_digit ch) eqn:Hd; [|done].
    by rewrite (digit_value_range ch Hd), Nat2Z.id.
  - by destruct c as [[|ch [|ch2 d]]| | | | | |].
Qed.

Lemma argument_count_single_digit_witness :
  let it := enqueue [WhitespaceNode (lit " "); TextNode (lit "2");
                     CommentNode (lit "c"); TextNode (lit "]x")] in
  _read_until_end_bracket it
  = Ok (GroupNode None [TextNode (lit "2")], [mkQ true (TextNode (lit "x"))])
  /\ _extract_arguments (GroupNode None [TextNode (lit "2")]) = Ok 2.
Proof.
  intros it. split; [reflexivity|].
  exact (argument_count_single_digit it [mkQ true (TextNode (lit "x"))]
           (GroupNode None [TextNode (lit "2")]) eq_refl).
Defined.

(** ** Macros that do not end *)

(** X7: a macro without arguments whose body is its own name makes the
    filter run without end: at a level whose table holds it, no number of
    iterations ends the loop on a queue that starts with its invocation;
    the recursion cap does not apply, as the expansion stays on one
    level. *)
Theorem self_reference_diverges (fuel level : nat) (name : text)
    (dflt : option Node) (dd : option ScopeData) (q : Queue)
    (o : list Node) (d : ScopeData) (up : list (option ScopeData))
    (h : Heap) :
  is_definition_command (CommandNode name) = false ->
  deref h (macros d) !! name
  = Some (mkMacro 0 dflt (Template (GroupNode dd [CommandNode name]))) ->
  _do_filter_loop _process fuel level
    (mkCtx (mkQ true (CommandNode name) :: q) o (Some d :: up) h)
  = OutOfFuel.
Proof.
  intros Hn Hd. induction fuel as [|fuel IH]; [done|].
  cbn [_do_filter_loop queue out chain store].
  rewrite (_process_invocation name _ d up h q o Hn Hd).
  unfold _expand_macro. cbn [m_args m_body Nat.ltb Nat.leb mbind res_bind].
  assert (_replace_parameters (GroupNode dd [CommandNode name]) []
          = Ok (GroupNode None [CommandNode name])) as -> by done.
  cbn [mbind res_bind is_group node_children enqueue map app queue out chain
       store].
  exact IH.
Qed.

Lemma self_reference_diverges_witness :
  let m := mkMacro 0 None (Template (GroupNode None [CommandNode (lit "f")])) in
  _do_filter_loop _process 1000 0
    (mkCtx [mkQ true (CommandNode (lit "f")); mkQ true (TextNode (lit "x"))]
           [] [Some (mkScope 0 false)] [{[ lit "f" := m ]}])
  = OutOfFuel.
Proof.
  intros m.
  exact (self_reference_diverges 1000 0 (lit "f") None None
           [mkQ true (TextNode (lit "x"))] [] (mkScope 0 false) []
           [{[ lit "f" := m ]}] eq_refl eq_refl).
Defined.

(** ** Parameters that are kept *)

Lemma join_str_outcome cs :
  Forall (fun n => (exists x, Node_str n = Ok x)
                   \/ Node_str n = Err PyTypeError) cs ->
  (exists x, join_str cs = Ok x) \/ join_str cs = Err PyTypeError.
Proof.
  induction 1 as [|c cs Hc _ IH]; simpl; [eauto|].
  destruct Hc as [[a ->]| ->]; [|by right].
  destruct IH as [[b ->]| ->]; simpl; eauto.
Qed.

Lemma Node_str_outcome n :
  (exists x, Node_str n = Ok x) \/ Node_str n = Err PyTypeError.
Proof.
  induction n as [d|d|d|d|h p|d cs IH|d cs IH] using Node_induction;
    try (left; simpl; eauto; fail).
  - destruct h; simpl; eauto.
  - rewrite Node_str_group. by apply join_str_outcome.
  - rewrite Node_str_bracket.
    destruct (join_str_outcome cs IH) as [[x ->]| ->]; simpl; eauto.
Qed.

Lemma join_str_float cs :
  Forall (fun n => no_float n = false -> Node_str n = Err PyTypeError) cs ->
  forallb no_float cs = false -> join_str cs = Err PyTypeError.
Proof.
  induction 1 as [|c cs Hc _ IH]; simpl; [done|].
  intros Hf. destruct (no_float c) eqn:E.
  - simpl in Hf. rewrite (IH Hf).
    by destruct (Node_str_outcome c) as [[a ->]| ->].
  - by rewrite Hc.
Qed.

Lemma Node_str_float n : no_float n = false -> Node_str n = Err PyTypeError.
Proof.
  induction n as [d|d|d|d|h p|d cs IH|d cs IH] using Node_induction;
    try done.
  - by destruct h.
  - cbn [no_float]. rewrite Node_str_group. by apply join_str_float.
  - cbn [no_float]. rewrite Node_str_bracket. intros Hf.
    by rewrite (join_str_float cs IH Hf).
Qed.

Lemma has_kept_parameter_copy n :
  has_kept_parameter (copy n) = has_kept_parameter n.
Proof.
  induction n as [d|d|d|d|h p|d cs IH|d cs IH] using Node_induction;
    try done; simpl; induction IH as [|c cs Hc _ IH]; simpl;
    try done; by rewrite Hc, IH.
Qed.

Lemma forallb_no_float_app l1 l2 :
  forallb no_float (l1 ++ l2) = forallb no_float l1 && forallb no_float l2.
Proof. apply forallb_app. Qed.

Lemma subst_list_kept params cs :
  Forall (fun n => has_kept_parameter n = true ->
                   forall rs, subst_node params n = Ok rs ->
                              forallb no_float rs = false) cs ->
  existsb has_kept_parameter cs = true ->
  forall r, subst_list params cs = Ok r -> forallb no_float r = false.
Proof.
  induction 1 as [|c cs Hc _ IH]; simpl; [done|].
  intros Hk r.
  destruct (subst_node params c) as [a| |] eqn:Ea; simpl; [|done..].
  destruct (subst_list params cs) as [b| |] eqn:Eb; simpl; [|done..].
  intros [= <-]. rewrite forallb_no_float_app.
  apply orb_prop in Hk as [Hk|Hk].
  - by rewrite (Hc Hk a eq_refl).
  - rewrite (IH Hk b eq_refl). apply andb_false_r.
Qed.

Lemma subst_node_kept params n :
  has_kept_parameter n = true ->
  forall rs, subst_node params n = Ok rs -> forallb no_float rs = false.
Proof.
  induction n as [d|d|d|d|h p|d cs IH|d cs IH] using Node_induction;
    try done.
  - simpl. intros Hk rs. apply negb_true_iff in Hk. rewrite Hk.
    destruct (halve h) as [h'| |] eqn:E; simpl; [|done..].
    apply halve_float in E as [v ->]. by intros [= <-].
  - intros Hk rs. rewrite subst_node_group by done.
    cbn [node_children has_kept_parameter] in *.
    destruct (subst_list params cs) as [cs'| |] eqn:E; simpl; [|done..].
    intros [= <-]. simpl.
    by rewrite (subst_list_kept params cs IH Hk cs' E).
  - intros Hk rs. rewrite subst_node_group by done.
    cbn [node_children has_kept_parameter] in *.
    destruct (subst_list params cs) as [cs'| |] eqn:E; simpl; [|done..].
    intros [= <-]. simpl.
    by rewrite (subst_list_kept params cs IH Hk cs' E).
Qed.

(** The substitution of a body within the recursion cap, by the loop of
    the filter. *)
Lemma _replace_parameters_subst d cs params :
  depth (GroupNode d cs) <= MAX_RECURSE_LEVEL ->
  forallb params_positive cs = true ->
  _replace_parameters (GroupNode d cs) params
  = cs' ← subst_list params (map copy cs); Ok (GroupNode None cs').
Proof.
  intros Hd Hp. unfold _replace_parameters, filter.
  cbn [copy _do_replace qnode mbind res_bind is_group node_children
       node_gdata store].
  destruct (copy_measures (GroupNode d cs)) as (Hs & Hd' & _).
  rewrite (node_size_group (copy _)), (depth_group (copy _)) in * by done.
  cbn [copy node_children] in Hs, Hd'.
  rewrite _do_filter_loop_replace.
  - destruct (subst_list params (map copy cs)) as [r| |]; simpl; done.
  - rewrite <- Hs. lia.
  - simpl. lia.
  - clear -Hp. induction cs as [|c cs IH]; [done|]. simpl in *.
    apply andb_prop in Hp as [H1 H2].
    by rewrite params_positive_copy, H1, IH.
Qed.

(** X8: when the body of a macro holds a parameter of a hash count other
    than 1, the tree its substitution returns cannot be printed: the halved
    count is a float, and the string of the tree is a [TypeError]. *)
Theorem kept_parameter_unprintable (d : option ScopeData)
    (cs params : list Node) (r : Node) :
  depth (GroupNode d cs) <= MAX_RECURSE_LEVEL ->
  forallb params_positive cs = true ->
  existsb has_kept_parameter cs = true ->
  _replace_parameters (GroupNode d cs) params = Ok r ->
  Node_str r = Err PyTypeError.
Proof.
  intros Hd Hp Hk. rewrite _replace_parameters_subst by done.
  destruct (subst_list params (map copy cs)) as [cs'| |] eqn:E;
    simpl; [|done..].
  intros [= <-]. apply Node_str_float. cbn [no_float].
  apply (subst_list_kept params (map copy cs)); [| |done].
  - apply Forall_forall. intros n _. apply subst_node_kept.
  - clear -Hk. induction cs as [|c cs IH]; [done|]. simpl in *.
    rewrite has_kept_parameter_copy.
    apply orb_prop in Hk as [->|Hk]; [done|]. rewrite (IH Hk).
    apply orb_true_r.
Qed.

Lemma kept_parameter_unprintable_witness :
  let body := [TextNode (lit "a"); ParameterNode (PyInt 1) 1;
               BracketNode None [ParameterNode (PyInt 2) 1]] in
  _replace_parameters (GroupNode None body) [TextNode (lit "x")]
  = Ok (GroupNode None [TextNode (lit "a"); TextNode (lit "x");
                        BracketNode None [ParameterNode (PyFloat 1) 1]])
  /\ Node_str (GroupNode None [TextNode (lit "a"); TextNode (lit "x");
                               BracketNode None [ParameterNode (PyFloat 1) 1]])
     = Err PyTypeError.
Proof.
  intros body. split; [reflexivity|].
  apply (kept_parameter_unprintable None body [TextNode (lit "x")]).
  - vm_compute. lia.
  - reflexivity.
  - reflexivity.
  - reflexivity.
Defined.

(** ** Parsing, then expanding *)

Lemma to_ast_built txt root :
  to_ast (Some txt) None None = Ok root -> built (node_children root).
Proof.
  unfold to_ast. cbn [mbind res_bind default].
  destruct (tokenize def_tokenizer txt) as [toks|]; [|done].
  destruct (to_ast_loop txt (mkCursor [] []) toks) as [c| |] eqn:El;
    cbn [mbind res_bind]; [|done..].
  apply to_ast_loop_built in El as [Hb _]; [|done|constructor].
  intros [= <-]. by destruct (up c).
Qed.

(** The expansion of a plain tree with the empty table. *)
Lemma demacro_plain cs fuel x :
  plain_list cs = true ->
  forallb clean cs = true ->
  depth_list cs <= MAX_RECURSE_LEVEL ->
  weight_list cs < fuel ->
  join_str cs = Ok x ->
  exists r, demacro fuel ∅ (GroupNode None cs) = Ok (r, ∅)
            /\ Node_str r = Ok x.
Proof.
  intros Hp Hc Hd Hw Hx.
  destruct (_do_filter_loop_plain fuel 0 (enqueue cs) [] (Some s0) [] x)
    as (o' & hd' & Hl & Hc' & Hj & Hd'); rewrite ?qnode_enqueue;
    try done.
  { by apply queue_ok_enqueue, forallb_clean. }
  rewrite qnode_enqueue in Hd'.
  unfold demacro, filter.
  cbn [is_group rebuild node_children _process attached negb qnode mbind
       res_bind store node_gdata].
  fold s0. rewrite Hl.
  cbn [mbind res_bind chain out store head mjoin option_join app rebuild
       node_gdata].
  destruct hd' as [d|]; [|done]. simpl in Hc'. subst d.
  rewrite clear_data_strip by done.
  rewrite (depth_group (GroupNode (Some s0) o')) by done.
  cbn [node_children]. rewrite Hd'.
  destruct (MAX_RECURSE_LEVEL <? depth_list cs) eqn:E;
    [apply Nat.ltb_lt in E; lia|].
  cbn [mbind res_bind fmap option_fmap option_map default macros s0].
  eexists. split; [done|].
  by rewrite Node_str_strip, Node_str_group.
Qed.

(** X9: parsing, expanding and printing compose to the identity on plain
    text: when [to_ast] returns the root group for a text, the tree holds
    no definition command, every [\begin] and [\end] is followed at once by
    a node that is neither whitespace nor comment, and the nesting is at
    most 256 levels deep, then [demacro] with the empty table returns a tree
    whose string is the text, and the table stays empty. *)
Theorem parse_demacro_roundtrip (txt : text) (cs : list Node) (fuel : nat) :
  to_ast (Some txt) None None = Ok (GroupNode None cs) ->
  plain (GroupNode None cs) = true ->
  depth (GroupNode None cs) <= MAX_RECURSE_LEVEL ->
  weight (GroupNode None cs) <= fuel ->
  exists r, demacro fuel ∅ (GroupNode None cs) = Ok (r, ∅)
            /\ Node_str r = Ok txt.
Proof.
  intros Ht Hp Hd Hw.
  rewrite (plain_group (GroupNode None cs)) in Hp by done.
  rewrite (depth_group (GroupNode None cs)) in Hd by done.
  rewrite (weight_group (GroupNode None cs)) in Hw by done.
  cbn [node_children] in *.
  destruct (to_ast_built txt _ Ht) as [Hc _].
  destruct (to_ast_by_brace_depth txt) as (toks & _ & H).
  destruct (brace_depth 0 toks) as [d|]; [|congruence].
  destruct H as (cs' & Hr & Hj). rewrite Ht in Hr.
  destruct (d =? 0) eqn:E; [|done]. injection Hr as ->.
  apply Nat.eqb_eq in E.
  apply demacro_plain; [done|done|done|lia|by apply Hj].
Qed.

Lemma parse_demacro_roundtrip_witness :
  exists cs r,
    to_ast (Some (lit "\begin{doc} \LaTeX{a#1}%c
\end{doc}")) None None = Ok (GroupNode None cs)
    /\ demacro 200 ∅ (GroupNode None cs) = Ok (r, ∅)
    /\ Node_str r = Ok (lit "\begin{doc} \LaTeX{a#1}%c
\end{doc}").
Proof.
  assert (exists cs,
            to_ast (Some (lit "\begin{doc} \LaTeX{a#1}%c
\end{doc}")) None None = Ok (GroupNode None cs)
            /\ plain (GroupNode None cs) = true
            /\ depth (GroupNode None cs) <= MAX_RECURSE_LEVEL
            /\ weight (GroupNode None cs) <= 200)
    as (cs & Ht & Hp & Hd & Hw).
  { eexists. split; [vm_compute; reflexivity|].
    split; [vm_compute; reflexivity|]. split; vm_compute; lia. }
  destruct (parse_demacro_roundtrip _ cs 200 Ht Hp Hd Hw) as (r & Hr & Hs).
  exists cs, r. split; [exact Ht|]. split; [exact Hr|exact Hs].
Defined.

(** ** [add_macros] *)

Lemma to_ast_outcome x :
  (exists root, to_ast (Some x) None None = Ok root)
  \/ to_ast (Some x) None None = Err UnbalancedBrackets.
Proof.
  destruct (to_ast_by_brace_depth x) as (toks & _ & H).
  destruct (brace_depth 0 toks) as [d|]; [|by right].
  destruct H as (cs & -> & _). eauto.
Qed.

(** What a table [t1] keeps of a table [t0]: every entry when nothing is
    replaced, every name otherwise. *)
Lemma add_macro_result replace tbl k v :
  match add_macro replace tbl k v with
  | Ok t1 =>
      (if replace then map_Forall (fun n _ => is_Some (t1 !! n)) tbl
       else tbl ⊆ t1)
      /\ is_Some (t1 !! k)
  | Err e => e = UnbalancedBrackets
  | OutOfFuel => False
  end.
Proof.
  unfold add_macro.
  assert (forall (A : Type) (f : Node -> A) x,
            match (r ← to_ast (Some x) None None; Ok (f r)) with
            | Ok _ => True
            | Err e => e = UnbalancedBrackets
            | OutOfFuel => False
            end) as Hto.
  { intros A f x. by destruct (to_ast_outcome x) as [[root ->]| ->]. }
  assert (forall args body dflt,
            (if replace then
               map_Forall (fun n _ => is_Some
                 ((if replace || negb (bool_decide (is_Some (tbl !! k)))
                   then <[k := mkMacro args dflt body]> tbl else tbl) !! n))
                 tbl
             else tbl ⊆ (if replace || negb (bool_decide (is_Some (tbl !! k)))
                         then <[k := mkMacro args dflt body]> tbl else tbl))
            /\ is_Some ((if replace || negb (bool_decide (is_Some (tbl !! k)))
                         then <[k := mkMacro args dflt body]> tbl else tbl)
                        !! k)) as Hins.
  { intros args body dflt. destruct replace; simpl.
    - split; [|by rewrite lookup_insert_eq].
      intros n m Hn. destruct (decide (k = n)) as [->|Hne].
      + by rewrite lookup_insert_eq.
      + by rewrite lookup_insert_ne, Hn.
    - case_bool_decide as Hk; simpl.
      + done.
      + split; [|by rewrite lookup_insert_eq].
        apply insert_subseteq. by apply eq_None_not_Some. }
  destruct (sp_body v) as [b|arity f].
  - pose proof (Hto _ (fun temp => (0, Template (GroupNode None
                                                   (take_node [] temp)))) b)
      as Hb.
    match type of Hb with
    | match ?m with _ => _ end => destruct m as [[a0 body]|e|]
    end; cbn [mbind res_bind]; [|done..].
    destruct (sp_default v) as [x|].
    + pose proof (Hto _ (fun r => Some (_extract_optional_argument r)) x)
        as Hx.
      match type of Hx with
      | match ?m with _ => _ end => destruct m as [dflt|e|]
      end; cbn [mbind res_bind]; [|done..].
      apply Hins.
    + cbn [mbind res_bind]. apply Hins.
  - cbn [mbind res_bind].
    destruct (sp_default v) as [x|].
    + pose proof (Hto _ (fun r => Some (_extract_optional_argument r)) x)
        as Hx.
      match type of Hx with
      | match ?m with _ => _ end => destruct m as [dflt|e|]
      end; cbn [mbind res_bind]; [|done..].
      apply Hins.
    + cbn [mbind res_bind]. apply Hins.
Qed.

(** X10: [add_macros] fails with [UnbalancedBrackets] only, from a body or
    a default that does not parse.  When it returns, every name of the
    given macros is defined in the table; without [replace] every entry the
    table had is unchanged, and with [replace] every name it had is still
    defined. *)
Theorem add_macros_result (replace : bool) (l : list (text * MacroSpec))
    (tbl : Table) :
  match add_macros replace tbl l with
  | Ok t1 =>
      (if replace then map_Forall (fun n _ => is_Some (t1 !! n)) tbl
       else tbl ⊆ t1)
      /\ Forall (fun kv => is_Some (t1 !! kv.1)) l
  | Err e => e = UnbalancedBrackets
  | OutOfFuel => False
  end.
Proof.
  revert tbl. induction l as [|[k v] l IH]; intros tbl.
  - simpl. split; [|done]. destruct replace; [|done].
    intros n m Hn. by rewrite Hn.
  - cbn [add_macros]. pose proof (add_macro_result replace tbl k v) as H1.
    destruct (add_macro replace tbl k v) as [t1|e|]; cbn [mbind res_bind];
      [|done..].
    specialize (IH t1).
    destruct (add_macros replace t1 l) as [t2|e|]; [|done..].
    destruct H1 as [H1 Hk], IH as [H2 Hl].
    assert (forall n, is_Some (t1 !! n) -> is_Some (t2 !! n)) as Hkeep.
    { intros n [m Hm]. destruct replace.
      - by apply (H2 n m).
      - exists m. by apply (lookup_weaken t1 t2). }
    split.
    + destruct replace.
      * intros n m Hn. apply Hkeep. by apply (H1 n m).
      * by etrans.
    + constructor; [by apply Hkeep|done].
Qed.

(** X11: a macro given to [add_macros] as a text whose brace tokens are
    balanced is registered with a body whose string is that text, with the
    argument count given (0 when none is). *)
Theorem add_macro_text_body (tbl : Table) (k b : text) (args : option nat) :
  brace_tokens_balanced b ->
  exists g,
    add_macro true tbl k (mkSpec (BodyText b) args None)
    = Ok (<[k := mkMacro (default 0 args) None (Template g)]> tbl)
    /\ Node_str g = Ok b.
Proof.
  intros (toks & Ht & Hd).
  destruct (to_ast_by_brace_depth b) as (toks' & Ht' & H).
  rewrite Ht in Ht'. injection Ht' as <-. rewrite Hd in H.
  destruct H as (cs & Hr & Hs). simpl in Hr.
  exists (GroupNode None cs). unfold add_macro.
  cbn [sp_body sp_args sp_default]. rewrite Hr.
  cbn [mbind res_bind orb take_node is_group node_children app].
  split; [done|]. rewrite Node_str_group. by apply Hs.
Qed.

Lemma add_macro_text_body_witness :
  exists g,
    add_macro true ∅ (lit "hi") (mkSpec (BodyText (lit "Hello, {#1}!"))
                                        (Some 1) None)
    = Ok (<[lit "hi" := mkMacro 1 None (Template g)]> ∅)
    /\ Node_str g = Ok (lit "Hello, {#1}!").
Proof.
  apply (add_macro_text_body ∅ (lit "hi") (lit "Hello, {#1}!") (Some 1)).
  eexists. split; vm_compute; reflexivity.
Defined.

(** ** [fix_whitespace] *)

Lemma fix_node_group n :
  is_group n = true ->
  fix_node n = rebuild n (node_gdata n) (fix_list (node_children n)).
Proof.
  destruct n as [| | | | |d cs|d cs]; try done; intros _; simpl; f_equal;
    try (induction cs as [|c cs IH]; simpl; congruence).
Qed.

Lemma fix_node_leaf n : is_group n = false -> fix_node n = n.
Proof. by destruct n. Qed.

Lemma needs_space_group n l : is_group n = true -> needs_space n l = false.
Proof. by destruct n. Qed.

Lemma weight_copy n : weight (copy n) = weight n.
Proof.
  induction n as [d|d|d|d|h p|d cs IH|d cs IH] using Node_induction;
    try done.
  - rewrite (weight_group (copy _)), (weight_group (GroupNode d cs)) by done.
    simpl. f_equal. induction IH as [|c cs Hc _ IH]; simpl; [done|].
    by rewrite Hc, IH.
  - rewrite (weight_group (copy _)), (weight_group (BracketNode d cs))
      by done.
    simpl. f_equal. induction IH as [|c cs Hc _ IH]; simpl; [done|].
    by rewrite Hc, IH.
Qed.

Lemma nonempty_data_copy n : nonempty_data (copy n) = nonempty_data n.
Proof.
  induction n as [d|d|d|d|h p|d cs IH|d cs IH] using Node_induction;
    try done; simpl; induction IH as [|c cs Hc _ IH]; simpl;
    try done; by rewrite Hc, IH.
Qed.

(** One call of the rule of [fix_whitespace] on nodes without empty
    data. *)
Lemma _fix_whitespace_step a n (q : Queue) o ch :
  nonempty_data n = true ->
  forallb nonempty_data (map qnode q) = true ->
  _fix_whitespace (mkQ a n) (mkCtx q o ch tt)
  = Ok (Some n,
        mkCtx (if needs_space n (map qnode q)
               then mkQ a (WhitespaceNode (lit " ")) :: q else q) o ch tt).
Proof.
  intros Hn Hq. unfold _fix_whitespace. cbn [queue qnode attached].
  destruct q as [|[am m] q]; [by destruct n as [|?|[|? ?]| | | |]|].
  cbn [map qnode forallb] in *. apply andb_prop in Hq as [Hm _].
  destruct n as [d|d|[|c0 d]|d|h p|d cs|d cs]; try done.
  cbn [first_alpha mbind res_bind needs_space].
  destruct (is_alpha c0); [|by destruct m as [[|? ?]| | | | | |]].
  destruct m as [[|c' d']| | | | | |]; try done.
  cbn [first_alpha mbind res_bind]. by destruct (is_alpha c').
Qed.

(** The loop of the filter under the rule of [fix_whitespace]. *)
Lemma _do_filter_loop_fix_whitespace fuel : forall level q o ch,
  weight_list (map qnode q) < fuel ->
  level + depth_list (map qnode q) <= MAX_RECURSE_LEVEL ->
  forallb nonempty_data (map qnode q) = true ->
  _do_filter_loop _fix_whitespace fuel level (mkCtx q o ch tt)
  = Ok (mkCtx [] (o ++ fix_list (map qnode q)) ch tt).
Proof.
  induction fuel as [|fuel IH]; intros level q o ch Hf Hl Hp; [lia|].
  destruct q as [|[a n] q].
  { simpl. by rewrite app_nil_r. }
  cbn [map qnode weight_list depth_list forallb] in *.
  apply andb_prop in Hp as [Hn Hq].
  cbn [_do_filter_loop queue out chain store].
  rewrite (_fix_whitespace_step a n q o ch Hn Hq).
  cbn [mbind res_bind queue out chain store fix_list].
  pose proof (weight_pos n) as Hpos.
  destruct (is_group n) eqn:Hg.
  - rewrite (needs_space_group n _ Hg).
    rewrite (weight_group n Hg) in Hf. rewrite (depth_group n Hg) in Hl.
    destruct (MAX_RECURSE_LEVEL <? level + 1) eqn:E1;
      [apply Nat.ltb_lt in E1; lia|].
    rewrite IH; rewrite ?qnode_enqueue; try lia.
    2: { by destruct n. }
    cbn [mbind res_bind queue out chain store head tail mjoin option_join
         app].
    rewrite IH by (done || lia).
    rewrite (fix_node_group n Hg), <- app_assoc. done.
  - rewrite (fix_node_leaf n Hg).
    destruct (needs_space n (map qnode q)) eqn:Hs.
    + assert (weight n = 3) as Hw by by destruct n as [| |[|? ?]| | | |].
      rewrite IH; cbn [map qnode weight_list depth_list forallb weight
                       is_group nonempty_data fix_list fix_node
                       needs_space]; try (done || lia).
      by rewrite <- app_assoc.
    + rewrite IH by (done || lia). by rewrite <- app_assoc.
Qed.

Lemma fix_whitespace_fix_node root :
  is_group root = true ->
  nonempty_data root = true ->
  depth root <= MAX_RECURSE_LEVEL ->
  fix_whitespace root = Ok (fix_node (copy root)).
Proof.
  intros Hg Hn Hd. unfold fix_whitespace, filter.
  cbn [_fix_whitespace queue qnode mbind res_bind store].
  destruct (copy_measures root) as (_ & Hdc & Hgc).
  rewrite Hgc, Hg.
  assert (is_group (copy root) = true) as Hg' by by rewrite Hgc.
  rewrite _do_filter_loop_fix_whitespace; rewrite ?qnode_enqueue.
  - cbn [mbind res_bind chain out head mjoin option_join app].
    by rewrite (fix_node_group _ Hg').
  - rewrite <- (weight_copy root), (weight_group _ Hg'). lia.
  - rewrite <- (depth_group _ Hg'), Hdc. lia.
  - rewrite <- nonempty_data_copy in Hn. by destruct (copy root).
Qed.

Lemma spaced_group n :
  is_group n = true -> spaced n = spaced_list (node_children n).
Proof.
  destruct n as [| | | | |d cs|d cs]; try done; intros _; simpl;
    try (induction cs as [|c cs IH]; simpl; congruence).
Qed.

Lemma is_group_fix_node n : is_group (fix_node n) = is_group n.
Proof. by destruct n. Qed.

Lemma needs_space_fix c l :
  needs_space (fix_node c) (fix_list l) = needs_space c l.
Proof.
  destruct c as [d|d|[|c0 d]|d|h p|d cs|d cs]; try done.
  destruct l as [|m l]; [done|].
  by destruct m as [[|c' d']| | | | | |].
Qed.

Lemma needs_space_whitespace c w l :
  needs_space c (WhitespaceNode w :: l) = false.
Proof. by destruct c as [d|d|[|c0 d]|d|h p|d cs|d cs]. Qed.

Lemma fix_list_props l :
  Forall (fun c => spaced (fix_node c) = true
                   /\ depth (fix_node c) = depth c
                   /\ nonempty_data (fix_node c) = nonempty_data c
                   /\ clean (fix_node c) = clean c) l ->
  spaced_list (fix_list l) = true
  /\ depth_list (fix_list l) = depth_list l
  /\ forallb nonempty_data (fix_list l) = forallb nonempty_data l
  /\ forallb clean (fix_list l) = forallb clean l.
Proof.
  induction 1 as [|c l (H1 & H2 & H3 & H4) _ (IH1 & IH2 & IH3 & IH4)];
    [done|].
  cbn [fix_list]. destruct (needs_space c l) eqn:Hs.
  - cbn [spaced_list depth_list forallb].
    rewrite H1, H2, H3, H4, IH1, IH2, IH3, IH4, is_group_fix_node.
    rewrite needs_space_whitespace. by destruct l.
  - cbn [spaced_list depth_list forallb].
    rewrite H1, H2, H3, H4, IH1, IH2, IH3, IH4, is_group_fix_node.
    by rewrite needs_space_fix, Hs.
Qed.

Lemma fix_node_props n :
  spaced (fix_node n) = true
  /\ depth (fix_node n) = depth n
  /\ nonempty_data (fix_node n) = nonempty_data n
  /\ clean (fix_node n) = clean n.
Proof.
  induction n as [d|d|d|d|h p|d cs IH|d cs IH] using Node_induction;
    try done.
  - destruct (fix_list_props cs IH) as (H1 & H2 & H3 & H4).
    rewrite (fix_node_group (GroupNode d cs)) by done.
    cbn [node_children node_gdata rebuild].
    rewrite (spaced_group (GroupNode d _)), (depth_group (GroupNode d _)),
      (depth_group (GroupNode d cs)) by done.
    cbn [node_children nonempty_data clean]. by rewrite H1, H2, H3, H4.
  - destruct (fix_list_props cs IH) as (H1 & H2 & H3 & H4).
    rewrite (fix_node_group (BracketNode d cs)) by done.
    cbn [node_children node_gdata rebuild].
    rewrite (spaced_group (BracketNode d _)), (depth_group (BracketNode d _)),
      (depth_group (BracketNode d cs)) by done.
    cbn [node_children nonempty_data clean]. by rewrite H1, H2, H3, H4.
Qed.

Lemma fix_list_spaced l :
  Forall (fun c => spaced c = true -> fix_node c = c) l ->
  spaced_list l = true -> fix_list l = l.
Proof.
  induction 1 as [|c l Hc _ IH]; [done|]. cbn [spaced_list fix_list].
  intros [[H1 H2]%andb_prop H3]%andb_prop.
  apply negb_true_iff in H2. by rewrite H2, (Hc H1), (IH H3).
Qed.

Lemma fix_node_spaced n : spaced n = true -> fix_node n = n.
Proof.
  induction n as [d|d|d|d|h p|d cs IH|d cs IH] using Node_induction;
    try done; intros Hs.
  - rewrite (spaced_group (GroupNode d cs)) in Hs by done.
    rewrite (fix_node_group (GroupNode d cs)) by done.
    cbn [node_children node_gdata rebuild] in *.
    by rewrite (fix_list_spaced cs IH Hs).
  - rewrite (spaced_group (BracketNode d cs)) in Hs by done.
    rewrite (fix_node_group (BracketNode d cs)) by done.
    cbn [node_children node_gdata rebuild] in *.
    by rewrite (fix_list_spaced cs IH Hs).
Qed.

(** X12: on a group nested at most 256 levels deep, without empty command
    or text, [fix_whitespace] returns the copy of the tree with one space
    put between every command and text that follow one another and both
    begin with a letter; in the tree returned no such place is left. *)
Theorem fix_whitespace_result (root : Node) :
  is_group root = true ->
  nonempty_data root = true ->
  depth root <= MAX_RECURSE_LEVEL ->
  fix_whitespace root = Ok (fix_node (copy root))
  /\ spaced (fix_node (copy root)) = true.
Proof.
  intros Hg Hn Hd. split; [by apply fix_whitespace_fix_node|].
  apply fix_node_props.
Qed.

Lemma fix_whitespace_result_witness :
  let root := GroupNode None [CommandNode (lit "nop"); TextNode (lit "lol");
                              BracketNode None [CommandNode (lit "a");
                                                TextNode (lit "1");
                                                CommandNode (lit "%");
                                                TextNode (lit "b")]] in
  fix_whitespace root
  = Ok (GroupNode None [CommandNode (lit "nop"); WhitespaceNode (lit " ");
                        TextNode (lit "lol");
                        BracketNode None [CommandNode (lit "a");
                                          TextNode (lit "1");
                                          CommandNode (lit "%");
                                          TextNode (lit "b")]])
  /\ spaced (fix_node (copy root)) = true.
Proof.
  intros root. apply (fix_whitespace_result root).
  - reflexivity.
  - reflexivity.
  - vm_compute. lia.
Defined.

(** X13: [fix_whitespace] is idempotent: on the tree it returns, it returns
    that tree again. *)
Theorem fix_whitespace_idempotent (root r : Node) :
  is_group root = true ->
  nonempty_data root = true ->
  depth root <= MAX_RECURSE_LEVEL ->
  fix_whitespace root = Ok r ->
  fix_whitespace r = Ok r.
Proof.
  intros Hg Hn Hd. rewrite (fix_whitespace_fix_node root Hg Hn Hd).
  intros [= <-].
  destruct (fix_node_props (copy root)) as (H1 & H2 & H3 & H4).
  destruct (copy_measures root) as (_ & Hdc & Hgc).
  rewrite fix_whitespace_fix_node.
  - rewrite (copy_clean (fix_node (copy root))).
    + by rewrite (fix_node_spaced _ H1).
    + by rewrite H4, clean_copy.
  - by rewrite is_group_fix_node, Hgc.
  - by rewrite H3, nonempty_data_copy.
  - by rewrite H2, Hdc.
Qed.

Lemma fix_whitespace_idempotent_witness :
  let root := GroupNode None [CommandNode (lit "nop"); TextNode (lit "lol")] in
  let r := GroupNode None [CommandNode (lit "nop"); WhitespaceNode (lit " ");
                           TextNode (lit "lol")] in
  fix_whitespace root = Ok r /\ fix_whitespace r = Ok r.
Proof.
  intros root r. split; [reflexivity|].
  apply (fix_whitespace_idempotent root r).
  - reflexivity.
  - reflexivity.
  - vm_compute. lia.
  - reflexivity.
Defined.

(** ** The table of the engine *)

Lemma parent_scope_ref ch d up :
  parent_scope ch = Ok (d, up) -> scope_ref ch = Some (macros d).
Proof.
  destruct ch as [|[d0|] [|[pd|] ch']]; simpl; try done;
    by intros [= <- _].
Qed.

(** What one call of the rule does to the store: nothing, or definitions
    in the table the level owns, copied first when it was not. *)
Lemma _process_store n c r c1 hd rest :
  _process n c = Ok (r, c1) ->
  chain c = hd :: rest ->
  (store c1 = store c
   /\ (chain c1 = hd :: rest
       \/ exists d, parent_scope (hd :: rest) = Ok (d, rest)
                    /\ chain c1 = Some d :: rest))
  \/ (exists d d' h' defs,
        parent_scope (hd :: rest) = Ok (d, rest)
        /\ _check_macros d (store c) = (d', h')
        /\ chain c1 = Some d' :: rest
        /\ store c1
           = foldl (fun h (nm : text * Macro) => define nm.1 nm.2 d' h)
               h' defs).
Proof.
  intros H Hch. unfold _process in H.
  destruct (attached n); cbn [negb] in H.
  2: { injection H as <- <-. left. split; [done|by left]. }
  rewrite Hch in H.
  destruct (parent_scope (hd :: rest)) as [[d up]|e|] eqn:Ep;
    cbn [mbind res_bind] in H; [|done..].
  pose proof (parent_scope_own _ _ _ _ Ep) as [-> _].
  cbn [queue out chain store] in H. cbv zeta in H.
  assert (forall q o (m : option Node),
            (store (mkCtx q o (Some d :: rest) (store c)) = store c
             /\ (chain (mkCtx q o (Some d :: rest) (store c)) = hd :: rest
                 \/ exists d0, Ok (d, rest) = Ok (d0, rest)
                               /\ chain (mkCtx q o (Some d :: rest) (store c))
                                  = Some d0 :: rest))
            \/ (exists d0 d' h' defs,
                  Ok (d, rest) = Ok (d0, rest)
                  /\ _check_macros d0 (store c) = (d', h')
                  /\ chain (mkCtx q o (Some d :: rest) (store c))
                     = Some d' :: rest
                  /\ store (mkCtx q o (Some d :: rest) (store c))
                     = foldl (fun h (nm : text * Macro) =>
                                define nm.1 nm.2 d' h) h' defs)) as Hsame.
  { intros q o _. left. split; [done|]. right. by exists d. }
  destruct (qnode n) as [x|x|cmd|x|h p|dd cs|dd cs];
    try (injection H as <- <-; by apply (Hsame _ _ None)).
  destruct (name_in cmd ["newcommand"; "renewcommand";
                         "providecommand"]%string).
  { destruct (_read_command_name (queue c)) as [[name it]|e|];
      cbn [mbind res_bind] in H; [|done..].
    destruct (_get_bracket_args it) as [[[[args dflt] temp] it2]|e|];
      cbn [mbind res_bind] in H; [|done..].
    destruct (_ && _); [done|].
    destruct (_ || _).
    - destruct (_check_macros d (store c)) as [d' h'] eqn:Ec.
      injection H as <- <-. right.
      exists d, d', h',
        [(name, mkMacro args dflt
                  (Template (GroupNode None (take_node [] (qnode temp)))))].
      done.
    - injection H as <- <-. by apply (Hsame _ _ None). }
  destruct (name_in cmd ["newenvironment"; "renewenvironment"]%string).
  { destruct (read_next1 (queue c)) as [[t0 it0]|e|];
      cbn [mbind res_bind] in H; [|done..].
    destruct (env_name (qnode t0)) as [name|e|];
      cbn [mbind res_bind] in H; [|done..].
    destruct (_get_bracket_args it0) as [[[[args dflt] temp] it2]|e|];
      cbn [mbind res_bind] in H; [|done..].
    destruct (read_next1 it2) as [[t3 it3]|e|];
      cbn [mbind res_bind] in H; [|done..].
    destruct (_ && _); [done|].
    destruct (_check_macros d (store c)) as [d' h'] eqn:Ec.
    injection H as <- <-. right.
    exists d, d', h',
      [(name, mkMacro args dflt
                (Template (GroupNode None (take_node [] (qnode temp)))));
       (lit "end" ++ name,
        mkMacro 0 None (Template (GroupNode None (take_node [] (qnode t3)))))].
    done. }
  destruct (deref (store c) (macros d) !! cmd) as [data|].
  { destruct (_expand_macro (queue c) data) as [it|e|];
      cbn [mbind res_bind] in H; [|done..].
    injection H as <- <-. by apply (Hsame _ _ None). }
  destruct (name_in cmd ["begin"; "end"]%string).
  2: { injection H as <- <-. by apply (Hsame _ _ None). }
  destruct (read_next1 (queue c)) as [[t0 it0]|e|];
    cbn [mbind res_bind] in H; [|done..].
  destruct (env_name (qnode t0)) as [name|e|];
    cbn [mbind res_bind] in H; [|done..].
  match type of H with
  | context [deref ?hh ?ll !! ?nm] =>
      destruct (deref hh ll !! nm) as [data|]
  end.
  - destruct (_expand_macro it0 data) as [it|e|];
      cbn [mbind res_bind] in H; [|done..].
    injection H as <- <-. by apply (Hsame _ _ None).
  - injection H as <- <-. by apply (Hsame _ _ None).
Qed.

Lemma defines_grow d' defs : forall h0,
  macros d' < length h0 ->
  let h1 := foldl (fun h (nm : text * Macro) => define nm.1 nm.2 d' h)
              h0 defs in
  macros d' < length h1
  /\ forall name, is_Some (deref h0 (macros d') !! name) ->
                  is_Some (deref h1 (macros d') !! name).
Proof.
  induction defs as [|[k m] defs IH]; intros h0 Hl; simpl; [done|].
  destruct (IH (define k m d' h0)) as [Hl1 Hg];
    [by rewrite define_length|].
  split; [done|]. intros name Hn. apply Hg.
  rewrite deref_define by done. apply lookup_insert_is_Some.
  destruct (decide (k = name)); [by left|by right].
Qed.

(** One call of the rule: the table the level reads keeps its names. *)
Lemma _process_grows n c r c1 hd rest l :
  _process n c = Ok (r, c1) ->
  chain c = hd :: rest ->
  scope_ref (hd :: rest) = Some l -> l < length (store c) ->
  exists hd1 l1,
    chain c1 = hd1 :: rest
    /\ scope_ref (hd1 :: rest) = Some l1 /\ l1 < length (store c1)
    /\ forall name, is_Some (deref (store c) l !! name) ->
                    is_Some (deref (store c1) l1 !! name).
Proof.
  intros H Hch Hl Hv.
  destruct (_process_store _ _ _ _ _ _ H Hch)
    as [[Hs [Hc|(d & Hp & Hc)]]|(d & d' & h' & defs & Hp & Hck & Hc & Hs)].
  - exists hd, l. rewrite Hs. done.
  - exists (Some d), l. rewrite Hs.
    apply parent_scope_ref in Hp. rewrite Hl in Hp. injection Hp as ->.
    done.
  - apply parent_scope_ref in Hp. rewrite Hl in Hp. injection Hp as ->.
    destruct (_check_macros_valid _ _ _ _ Hv Hck) as (Hl' & _ & Hd).
    destruct (defines_grow d' defs h' Hl') as [Hl1 Hg].
    exists (Some d'), (macros d'). rewrite Hs. repeat split; try done.
    intros name Hn. apply Hg. by rewrite Hd.
Qed.

(** The loop of the filter under [_process]: the table the level reads at
    the end holds every name the table it read at the start held. *)
Lemma _do_filter_loop_grows fuel : forall level c c' hd rest l,
  _do_filter_loop _process fuel level c = Ok c' ->
  chain c = hd :: rest ->
  scope_ref (hd :: rest) = Some l -> l < length (store c) ->
  clean_queue (queue c) -> templates_only (store c) ->
  exists hd' l',
    chain c' = hd' :: rest
    /\ scope_ref (hd' :: rest) = Some l' /\ l' < length (store c')
    /\ forall name, is_Some (deref (store c) l !! name) ->
                    is_Some (deref (store c') l' !! name).
Proof.
  induction fuel as [|fuel IH]; intros level c c' hd rest l; [done|].
  destruct c as [q o ch st]. cbn [_do_filter_loop queue out chain store].
  destruct q as [|n q].
  { intros [= <-] -> Hl Hv _ _. by exists hd, l. }
  intros H -> Hl Hv [Hn Hq]%Forall_cons Ht.
  destruct (_process n (mkCtx q o (hd :: rest) st)) as [[r c1]|e|] eqn:E;
    cbn [mbind res_bind] in H; [|done..].
  pose proof E as E'.
  apply (_process_frame _ _ _ _ hd rest) in E
    as (hd1 & Hch1 & _ & Hq1 & Hr & Ht1 & Hf1); try done.
  apply (_process_grows _ _ _ _ hd rest l) in E'
    as (hd1' & l1 & Hch1' & Hl1 & Hv1 & Hg1); try done.
  rewrite Hch1 in Hch1'. injection Hch1' as <-.
  destruct c1 as [q1 o1 ch1 st1]. cbn [queue out chain store] in *.
  subst ch1.
  destruct r as [n'|].
  2: { apply (IH _ _ _ hd1 rest l1) in H
         as (hd' & l' & Hch' & Hl' & Hv' & Hg'); try done.
       exists hd', l'. repeat split; try done. intros name Hx.
       by apply Hg', Hg1. }
  specialize (Hr n' eq_refl).
  destruct (is_group n') eqn:Hg.
  - destruct (MAX_RECURSE_LEVEL <? level + 1); [done|].
    destruct (_do_filter_loop _process fuel (level + 1) _)
      as [c2| |] eqn:E2; cbn [mbind res_bind] in H; [|done..].
    rewrite (clean_group n' Hg) in Hr.
    destruct (node_gdata n') eqn:Hgd; [done|].
    apply (_do_filter_loop_frame _ _ _ _ None (hd1 :: rest)) in E2
      as (hd2 & Hch2 & Ht2 & (Hlen & Hsame & _));
      cbn [queue out chain store]; try done.
    2: { by apply clean_enqueue, forallb_clean. }
    cbn [store] in *. rewrite Hch2 in H. cbn [tail] in H.
    apply (IH _ _ _ hd1 rest l1) in H
      as (hd' & l' & Hch' & Hl' & Hv' & Hg'); try done;
      [|cbn [store]; lia].
    exists hd', l'. repeat split; try done. intros name Hx.
    apply Hg'. cbn [store]. unfold deref. rewrite Hsame by done.
    by apply Hg1.
  - apply (IH _ _ _ hd1 rest l1) in H
      as (hd' & l' & Hch' & Hl' & Hv' & Hg'); try done.
    exists hd', l'. repeat split; try done. intros name Hx.
    by apply Hg', Hg1.
Qed.

(** X14: [demacro] never takes a name out of the table of the engine:
    every macro the table held before the call is still defined after it
    (with the entry it had, or with one a definition of the tree gave
    it). *)
Theorem demacro_keeps_names (fuel : nat) (tbl tbl' : Table)
    (d : option ScopeData) (cs : list Node) (r : Node) (name : text) :
  forallb clean cs = true ->
  map_Forall (fun _ m => is_template m) tbl ->
  demacro fuel tbl (GroupNode d cs) = Ok (r, tbl') ->
  is_Some (tbl !! name) -> is_Some (tbl' !! name).
Proof.
  intros Hc Ht. unfold demacro, filter.
  cbn [is_group rebuild node_children _process attached negb qnode mbind
       res_bind store node_gdata].
  destruct (_do_filter_loop _process fuel 0 _) as [c| |] eqn:El;
    cbn [mbind res_bind]; [|done..].
  apply (_do_filter_loop_grows _ _ _ _ (Some (mkScope 0 false)) [] 0) in El
    as (hd' & l' & Hch & Hl' & Hv' & Hg); cbn [queue chain store];
    try done.
  2: { simpl. lia. }
  2: { by apply clean_enqueue, forallb_clean. }
  2: { by repeat constructor. }
  rewrite Hch. cbn [head mjoin option_join rebuild node_gdata].
  destruct (clear_data _) as [r1| |]; cbn [mbind res_bind]; [|done..].
  intros [= _ <-] Hn.
  destruct hd' as [d'|]; [|done]. injection Hl' as <-.
  cbn [fmap option_fmap option_map default]. by apply Hg.
Qed.

Lemma demacro_keeps_names_witness :
  let m := mkMacro 0 None (Template (GroupNode None [TextNode (lit "x")])) in
  let tbl : Table := {[ lit "f" := m ]} in
  let cs := [CommandNode (lit "renewcommand");
             BracketNode None [CommandNode (lit "f")];
             BracketNode None [TextNode (lit "y")];
             CommandNode (lit "f")] in
  exists r tbl',
    demacro 30 tbl (GroupNode None cs) = Ok (r, tbl')
    /\ Node_str r = Ok (lit "y")
    /\ is_Some (tbl' !! lit "f").
Proof.
  intros m tbl cs.
  assert (exists r tbl',
            demacro 30 tbl (GroupNode None cs) = Ok (r, tbl')
            /\ Node_str r = Ok (lit "y")) as (r & tbl' & H & Hs).
  { eexists _, _. split; vm_compute; reflexivity. }
  exists r, tbl'. split; [exact H|]. split; [exact Hs|].
  apply (demacro_keeps_names 30 tbl tbl' None cs r (lit "f")).
  - reflexivity.
  - intros k x Hk. apply lookup_singleton_Some in Hk as [_ <-]. exact I.
  - exact H.
  - exists m. apply lookup_singleton_eq.
Defined.

(** ** Environments *)

Lemma _process_environment (cmd : string) c d up t0 it0 name args dflt temp
    it2 t3 it3 :
  List.In cmd ["newenvironment"; "renewenvironment"]%string ->
  chain c = Some d :: up ->
  read_next1 (queue c) = Ok (t0, it0) ->
  env_name (qnode t0) = Ok name ->
  _get_bracket_args it0 = Ok (args, dflt, temp, it2) ->
  read_next1 it2 = Ok (t3, it3) ->
  _process (mkQ true (CommandNode (lit cmd))) c
  = if String.eqb cmd "newenvironment"
       && bool_decide (is_Some (deref (store c) (macros d) !! name))
    then Err DuplicateMacro
    else
      let '(d', h') := _check_macros d (store c) in
      Ok (None,
          mkCtx it3 (out c) (Some d' :: up)
            (define (lit "end" ++ name)
               (mkMacro 0 None
                  (Template (GroupNode None (take_node [] (qnode t3)))))
               d'
               (define name
                  (mkMacro args dflt
                     (Template (GroupNode None (take_node [] (qnode temp)))))
                  d' h'))).
Proof.
  intros Hcmd Hch H0 Hn Ha H3. unfold _process.
  cbn [attached negb qnode]. rewrite Hch.
  cbn [parent_scope mbind res_bind queue out chain store].
  destruct Hcmd as [<-|[<-|[]]].
  - assert (name_in (lit "newenvironment")
              ["newcommand"; "renewcommand"; "providecommand"]%string
            = false) as -> by done.
    assert (name_in (lit "newenvironment")
              ["newenvironment"; "renewenvironment"]%string = true) as ->
      by done.
    rewrite H0. cbn [mbind res_bind]. rewrite Hn. cbn [mbind res_bind].
    rewrite Ha. cbn [mbind res_bind]. rewrite H3. cbn [mbind res_bind].
    done.
  - assert (name_in (lit "renewenvironment")
              ["newcommand"; "renewcommand"; "providecommand"]%string
            = false) as -> by done.
    assert (name_in (lit "renewenvironment")
              ["newenvironment"; "renewenvironment"]%string = true) as ->
      by done.
    rewrite H0. cbn [mbind res_bind]. rewrite Hn. cbn [mbind res_bind].
    rewrite Ha. cbn [mbind res_bind]. rewrite H3. cbn [mbind res_bind].
    done.
Qed.

Lemma env_registered_define name begin_m end_m d up h it o :
  macros d < length h ->
  env_registered
    (let '(d', h') := _check_macros d h in
     Ok (None, mkCtx it o (Some d' :: up)
                 (define (lit "end" ++ name) end_m d'
                    (define name begin_m d' h'))))
    name begin_m end_m it.
Proof.
  intros Hl. destruct (_check_macros d h) as [d' h'] eqn:E.
  destruct (_check_macros_valid _ _ _ _ Hl E) as (Hl' & _ & _).
  eexists _, _. split; [done|]. split; [done|]. split; [done|].
  cbn [store]. rewrite deref_define by by rewrite define_length.
  rewrite deref_define by done.
  split; [|apply lookup_insert_eq].
  rewrite lookup_insert_ne; [apply lookup_insert_eq|].
  intros Heq. apply (f_equal length) in Heq.
  rewrite length_app in Heq. simpl in Heq. lia.
Qed.

(** X15: an environment definition whose name, begin code and end code are
    read at a level.  [newenvironment] raises [DuplicateMacro] on a name the
    table of the level holds; otherwise, and always for [renewenvironment],
    the table the level owns gets the begin code under the name and the end
    code, without arguments, under [end] followed by the name. *)
Theorem define_environment (c : Ctx Heap) (d : ScopeData)
    (up : list (option ScopeData)) (t0 temp t3 : QNode)
    (it0 it2 it3 : Queue) (name : text) (args : nat) (dflt : option Node) :
  chain c = Some d :: up ->
  macros d < length (store c) ->
  read_next1 (queue c) = Ok (t0, it0) ->
  env_name (qnode t0) = Ok name ->
  _get_bracket_args it0 = Ok (args, dflt, temp, it2) ->
  read_next1 it2 = Ok (t3, it3) ->
  let begin_m := mkMacro args dflt
                   (Template (GroupNode None (take_node [] (qnode temp)))) in
  let end_m := mkMacro 0 None
                 (Template (GroupNode None (take_node [] (qnode t3)))) in
  match deref (store c) (macros d) !! name with
  | Some _ =>
      _process (mkQ true (CommandNode (lit "newenvironment"))) c
      = Err DuplicateMacro
  | None =>
      env_registered
        (_process (mkQ true (CommandNode (lit "newenvironment"))) c)
        name begin_m end_m it3
  end
  /\ env_registered
       (_process (mkQ true (CommandNode (lit "renewenvironment"))) c)
       name begin_m end_m it3.
Proof.
  intros Hch Hl H0 Hn Ha H3 begin_m end_m.
  pose proof (fun cmd Hcmd =>
                _process_environment cmd c d up t0 it0 name args dflt temp
                  it2 t3 it3 Hcmd Hch H0 Hn Ha H3) as Hrun.
  fold begin_m end_m in Hrun.
  pose proof (env_registered_define name begin_m end_m d up (store c) it3
                (out c) Hl) as Hr.
  rewrite !Hrun by (simpl; tauto).
  destruct (deref (store c) (macros d) !! name) as [old|] eqn:E.
  - rewrite (bool_decide_eq_true_2 (is_Some (Some old))) by eauto.
    simpl. done.
  - rewrite (bool_decide_eq_false_2 (is_Some None)) by (by intros [? ?]).
    simpl. done.
Qed.

Lemma define_environment_witness :
  let q := enqueue [BracketNode None [TextNode (lit "e")];
                    BracketNode None [TextNode (lit "b")];
                    BracketNode None [TextNode (lit "x")]] in
  let c := mkCtx q [] [Some (mkScope 0 false)] [∅] in
  env_registered
    (_process (mkQ true (CommandNode (lit "newenvironment"))) c)
    (lit "e")
    (mkMacro 0 None (Template (GroupNode None [TextNode (lit "b")])))
    (mkMacro 0 None (Template (GroupNode None [TextNode (lit "x")])))
    []
  /\ env_registered
       (_process (mkQ true (CommandNode (lit "renewenvironment"))) c)
       (lit "e")
       (mkMacro 0 None (Template (GroupNode None [TextNode (lit "b")])))
       (mkMacro 0 None (Template (GroupNode None [TextNode (lit "x")])))
       [].
Proof.
  intros q c.
  exact (define_environment c (mkScope 0 false) []
           (mkQ true (BracketNode None [TextNode (lit "e")]))
           (mkQ true (BracketNode None [TextNode (lit "b")]))
           (mkQ true (BracketNode None [TextNode (lit "x")]))
           (enqueue [BracketNode None [TextNode (lit "b")];
                     BracketNode None [TextNode (lit "x")]])
           (enqueue [BracketNode None [TextNode (lit "x")]]) []
           (lit "e") 0 None
           eq_refl Nat.lt_0_1 eq_refl eq_refl eq_refl eq_refl).
Defined.

(** ** The arguments of an invocation *)

(** One [read_next]: what it returns, what it leaves, and when it finds
    nothing. *)
Lemma read_next_units it error :
  match read_next it error with
  | Ok (Some q, it') =>
      units it = S (units it') /\ unit_node (qnode q) = true
      /\ after_lookahead it = q :: it'
      /\ forall ch, is_text (qnode q) (String ch EmptyString) = next_is ch it
  | Ok (None, it') =>
      units it = 0 /\ it' = [] /\ error = false
      /\ forall ch, next_is ch it = false
  | Err e => units it = 0 /\ e = UnexpectedEndOfInput /\ error = true
  | OutOfFuel => False
  end.
Proof.
  induction it as [|q it IH]; simpl; [by destruct error|].
  unfold put_back.
  destruct (is_skipped (qnode q)) eqn:Hq; [exact IH|].
  destruct (qnode q) as [[|c [|c' d]]| | | | | |] eqn:E; simpl in *;
    rewrite ?E; simpl; try done.
  all: repeat split; try done; try lia.
  all: intros ch; apply bool_decide_ext; split; congruence.
Qed.

Lemma read_next1_units it :
  match read_next1 it with
  | Ok (q, it') =>
      units it = S (units it') /\ unit_node (qnode q) = true
      /\ after_lookahead it = q :: it'
      /\ forall ch, is_text (qnode q) (String ch EmptyString) = next_is ch it
  | Err e => units it = 0 /\ e = UnexpectedEndOfInput
  | OutOfFuel => False
  end.
Proof.
  unfold read_next1. pose proof (read_next_units it true) as H.
  destruct (read_next it true) as [[[q|] it']|e|]; simpl; try done.
  - by destruct H as (_ & _ & ? & _).
  - by destruct H as (? & ? & _).
Qed.

Lemma units_after_lookahead it : units (after_lookahead it) = units it.
Proof.
  induction it as [|q it IH]; simpl; [done|]. unfold put_back.
  destruct (is_skipped (qnode q)) eqn:Hq; [done|].
  destruct (qnode q) as [[|c [|c' d]]| | | | | |] eqn:E; simpl;
    rewrite ?Hq, ?E; simpl; try done; lia.
Qed.

Lemma after_lookahead_end it : units it = 0 -> after_lookahead it = [].
Proof.
  induction it as [|q it IH]; simpl; [done|]. unfold put_back.
  destruct (is_skipped (qnode q)); [done|].
  destruct (qnode q) as [[|c [|c' d]]| | | | | |]; simpl; lia.
Qed.






(** ** [\begin] and [\end] of an environment that is not defined *)

Lemma name_in_begin_end cmd :
  name_in cmd ["begin"; "end"]%string = true ->
  name_in cmd ["newcommand"; "renewcommand"; "providecommand"]%string = false
  /\ name_in cmd ["newenvironment"; "renewenvironment"]%string = false.
Proof.
  unfold name_in. intros H. apply bool_decide_eq_true in H.
  simpl in H. rewrite !elem_of_cons, elem_of_nil in H.
  destruct H as [->|[->|[]]]; by vm_compute.
Qed.

(** X18: [\begin] or [\end] at a level whose table holds neither the
    command nor the environment named after it.  The command is kept and the
    name is put back, but the queue is the one after the lookahead: the
    whitespace and comments between the command and the name are gone and a
    text of several characters is in two pieces.  When only whitespace and
    comments follow the command, [UnexpectedEndOfInput] is raised. *)
Theorem begin_end_unknown (cmd name : text) (it it' ws : Queue) (t : QNode)
    (o : list Node) (d : ScopeData) (up : list (option ScopeData))
    (h : Heap) :
  name_in cmd ["begin"; "end"]%string = true ->
  deref h (macros d) !! cmd = None ->
  units ws = 0 ->
  after_lookahead it = t :: it' ->
  env_name (qnode t) = Ok name ->
  deref h (macros d)
    !! (if name_in cmd ["end"]%string then lit "end" ++ name else name)
  = None ->
  _process (mkQ true (CommandNode cmd)) (mkCtx it o (Some d :: up) h)
  = Ok (Some (CommandNode cmd),
        mkCtx (after_lookahead it) o (Some d :: up) h)
  /\ _process (mkQ true (CommandNode cmd)) (mkCtx ws o (Some d :: up) h)
     = Err UnexpectedEndOfInput.
Proof.
  intros Hc Hcmd Hws Hal Hn Hname.
  destruct (name_in_begin_end cmd Hc) as [H1 H2].
  unfold _process.
  cbn [attached negb chain parent_scope mbind res_bind qnode queue out
       store].
  rewrite H1, H2, Hcmd, Hc. split.
  - pose proof (read_next1_units it) as H.
    pose proof (units_after_lookahead it) as Hu.
    destruct (read_next1 it) as [[q it1]|e|]; [| |done].
    + destruct H as (_ & _ & Hq & _). rewrite Hq in Hal.
      injection Hal as -> ->. cbn [mbind res_bind]. rewrite Hn.
      cbn [mbind res_bind]. by rewrite Hname, Hq.
    + destruct H as [H _]. by rewrite (after_lookahead_end it H) in Hal.
  - pose proof (read_next1_units ws) as H.
    destruct (read_next1 ws) as [[q it1]|e|]; [| |done].
    + destruct H as (H & _). lia.
    + by destruct H as [_ ->].
Qed.

Lemma begin_end_unknown_witness :
  let it := [mkQ true (WhitespaceNode (lit " "));
             mkQ true (BracketNode None [TextNode (lit "e")])] in
  let ws := [mkQ true (CommentNode (lit "c"))] in
  _process (mkQ true (CommandNode (lit "begin")))
    (mkCtx it [] [Some (mkScope 0 false)] [∅])
  = Ok (Some (CommandNode (lit "begin")),
        mkCtx (after_lookahead it) [] [Some (mkScope 0 false)] [∅])
  /\ _process (mkQ true (CommandNode (lit "begin")))
       (mkCtx ws [] [Some (mkScope 0 false)] [∅])
     = Err UnexpectedEndOfInput.
Proof.
  intros it ws.
  exact (begin_end_unknown (lit "begin") (lit "e") it [] ws
           (mkQ true (BracketNode None [TextNode (lit "e")]))
           [] (mkScope 0 false) [] [∅]
           eq_refl eq_refl eq_refl eq_refl eq_refl eq_refl).
Defined.

(** ** The name in a definition *)

Lemma units_app ws l : units (ws ++ l) = units ws + units l.
Proof. induction ws as [|q ws IH]; simpl; [done|]. rewrite IH. lia. Qed.

Lemma units_unskipped m rest :
  is_skipped (qnode m) = false -> 0 < units (m :: rest).
Proof.
  intros H. simpl. rewrite H.
  destruct (qnode m) as [[|c d]| | | | | |]; simpl; lia.
Qed.

Lemma after_lookahead_app ws m rest :
  units ws = 0 -> is_skipped (qnode m) = false ->
  after_lookahead (ws ++ m :: rest) = put_back m ++ rest.
Proof.
  intros Hw Hm. induction ws as [|q ws IH]; simpl; [by rewrite Hm|].
  destruct (is_skipped (qnode q)) eqn:Hq.
  - apply IH. simpl in Hw. rewrite Hq in Hw. lia.
  - pose proof (units_unskipped q ws Hq). lia.
Qed.

Lemma after_lookahead_split it q it' :
  after_lookahead it = q :: it' ->
  exists ws m rest,
    it = ws ++ m :: rest /\ units ws = 0 /\ is_skipped (qnode m) = false
    /\ put_back m ++ rest = q :: it'.
Proof.
  induction it as [|x it IH]; simpl; [done|].
  destruct (is_skipped (qnode x)) eqn:Hx.
  - intros H. destruct (IH H) as (ws & m & rest & -> & Hw & Hm & Hp).
    exists (x :: ws), m, rest. simpl. rewrite Hx. done.
  - intros H. by exists [], x, it.
Qed.

Lemma read_next1_app ws m rest :
  units ws = 0 -> is_skipped (qnode m) = false -> put_back m = [m] ->
  read_next1 (ws ++ m :: rest) = Ok (m, rest).
Proof.
  intros Hw Hm Hp. pose proof (read_next1_units (ws ++ m :: rest)) as H.
  rewrite (after_lookahead_app ws m rest Hw Hm), Hp in H.
  rewrite units_app in H. pose proof (units_unskipped m rest Hm) as Hu.
  destruct (read_next1 (ws ++ m :: rest)) as [[q it']|e|]; [| |done].
  - destruct H as (_ & _ & H & _). simpl in H. congruence.
  - lia.
Qed.

(** The two forms [_read_command_name] accepts. *)
Lemma names_spec n d :
  names n d <-> default n (_filter_children n true) = CommandNode d.
Proof.
  unfold names, _filter_children.
  rewrite (List.filter_ext
             (fun n0 =>
                negb (match n0 with CommentNode _ => true | _ => false end)
                && (negb (match n0 with WhitespaceNode _ => true
                                   | _ => false end)
                    || negb true))
             (fun m => negb (is_skipped m))) by (by intros []).
  destruct (is_group n) eqn:Hg.
  - destruct (List.filter _ (node_children n)) as [|c [|c' l]]; simpl.
    + split; [intros [->|[_ ?]]; done|]. by intros ->.
    + split; [intros [->|[_ ?]]; [done|congruence]|].
      intros ->. by right.
    + split; [intros [->|[_ ?]]; done|]. by intros ->.
  - simpl. split; [by intros [->|[? _]]|]. by left.
Qed.

Lemma names_unit n d :
  names n d ->
  is_skipped n = false /\ (forall x, is_text n x = false)
  /\ forall a, put_back (mkQ a n) = [mkQ a n].
Proof.
  intros [->|[Hg _]]; [done|]. by destruct n.
Qed.

Lemma put_back_names m rest q r d :
  put_back m ++ rest = q :: r -> names (qnode q) d -> m = q /\ rest = r.
Proof.
  unfold put_back. intros H Hn.
  destruct (qnode m) as [[|c [|c' d']]| | | | | |] eqn:E; simpl in H;
    try (by injection H as <- <-).
  injection H as <- <-. simpl in Hn. by destruct Hn as [?|[? _]].
Qed.

(** X19: [_read_command_name] returns a name exactly when the queue begins
    with whitespace and comments, among them one text [*] at most, followed
    by the command or by a group whose only child apart from whitespace and
    comments is the command; it takes these nodes and no more. *)
Theorem read_command_name_forms (it it' : Queue) (d : text) :
  _read_command_name it = Ok (d, it')
  <-> exists pre n,
        it = pre ++ n :: it' /\ name_prefix pre /\ names (qnode n) d.
Proof.
  unfold _read_command_name. split.
  - pose proof (read_next1_units it) as H.
    destruct (read_next1 it) as [[n1 it1]|e|]; try done.
    destruct H as (_ & _ & Hl & _). cbn [mbind res_bind].
    apply after_lookahead_split in Hl
      as (ws & m & rest & -> & Hw & Hm & Hp).
    destruct (is_text (qnode n1) "*") eqn:Hs.
    + pose proof (read_next1_units it1) as H.
      destruct (read_next1 it1) as [[n2 it2]|e|]; try done.
      destruct H as (_ & _ & Hl & _). cbn [mbind res_bind].
      destruct (default (qnode n2) (_filter_children (qnode n2) true))
        as [| |d0| | | |] eqn:Hd; try done.
      intros [= -> ->]. apply names_spec in Hd.
      apply after_lookahead_split in Hl
        as (ws2 & m2 & rest2 & -> & Hw2 & Hm2 & Hp2).
      destruct (put_back_names _ _ _ _ _ Hp2 Hd) as [-> ->].
      destruct n1 as [a1 [x| | | | | |]]; try done. simpl in Hs.
      apply bool_decide_eq_true in Hs as ->.
      revert Hp. unfold put_back.
      destruct (qnode m) as [[|c [|c' d']]| | | | | |] eqn:E; simpl;
        intros Hp; try (by simplify_eq/=).
      * injection Hp as Hp1 Hp3. subst m rest.
        exists (ws ++ [mkQ a1 (TextNode (lit "*"))] ++ ws2), n2.
        split; [by rewrite <- !app_assoc|]. split; [|done].
        exists ws, [mkQ a1 (TextNode (lit "*"))], ws2. eauto 10.
      * injection Hp as _ _ Hr. destruct ws2 as [|w ws2]; simpl in Hr.
        -- injection Hr as <- <-. simpl in Hd.
           by destruct Hd as [?|[? _]].
        -- injection Hr as <- _. simpl in Hw2. lia.
    + cbn [mbind res_bind].
      destruct (default (qnode n1) (_filter_children (qnode n1) true))
        as [| |d0| | | |] eqn:Hd; try done.
      intros [= -> ->]. apply names_spec in Hd.
      destruct (put_back_names _ _ _ _ _ Hp Hd) as [-> ->].
      exists ws, n1. split; [done|]. split; [|done].
      exists ws, [], []. rewrite app_nil_r. eauto 10.
  - intros (pre & n & -> & (ws1 & star & ws2 & -> & Hw1 & Hw2 & Hstar) & Hn).
    destruct n as [a n]. simpl in Hn.
    destruct (names_unit _ _ Hn) as (Hk & Ht & Hp).
    pose proof (proj1 (names_spec _ _) Hn) as Hd.
    destruct Hstar as [->|[a1 ->]].
    + simpl.
      rewrite read_next1_app;
        [|rewrite units_app; lia|done|apply Hp].
      cbn [mbind res_bind qnode]. rewrite Ht. cbn [mbind res_bind qnode].
      by rewrite Hd.
    + rewrite <- !app_assoc. simpl.
      rewrite read_next1_app; [|done|done|done].
      cbn [mbind res_bind qnode].
      change (is_text (TextNode ["*"]) "*") with true. cbn iota.
      rewrite read_next1_app; [|done|done|apply Hp].
      cbn [mbind res_bind qnode]. by rewrite Hd.
Qed.

Lemma read_command_name_forms_witness :
  _read_command_name
    [mkQ true (TextNode (lit "*"));
     mkQ true (BracketNode None [WhitespaceNode (lit " ");
                                 CommandNode (lit "a")]);
     mkQ true (BracketNode None [])]
  = Ok (lit "a", [mkQ true (BracketNode None [])]).
Proof.
  apply (proj2 (read_command_name_forms _ _ _)).
  exists [mkQ true (TextNode (lit "*"))],
    (mkQ true (BracketNode None [WhitespaceNode (lit " ");
                                 CommandNode (lit "a")])).
  split; [reflexivity|]. split.
  - exists [], [mkQ true (TextNode (lit "*"))], [].
    split; [reflexivity|]. split; [reflexivity|]. split; [reflexivity|].
    right. by exists true.
  - right. split; reflexivity.
Defined.
(** ** Expanding an open bracket group *)

(** Without parents, [demacro_at] is [demacro]. *)
Lemma demacro_at_root fuel self_macros root :
  demacro_at [] fuel self_macros root = demacro fuel self_macros root.
Proof.
  unfold demacro_at, demacro. destruct (is_group root); [|done].
  reflexivity.
Qed.

(** X20: [Demacro.demacro] on the tree [to_ast] returns for a text with a
    left brace that is not closed.  That tree is a bracket group with a
    parent, so the rule is applied to it as to any node: it looks for the
    table in the data of the parent of its parent, and raises
    [AttributeError] when one brace is open, the parent being the root, and
    [TypeError] when more are, the data of that group being [None]. *)
Theorem demacro_open_bracket (txt : text) (toks : list Token) (d0 fuel : nat)
    (self_macros : Table) :
  tokenize def_tokenizer txt = Some toks ->
  brace_depth 0 toks = Some (S d0) ->
  exists root,
    to_ast (Some txt) None None = Ok root
    /\ is_bracket root = true
    /\ length (to_ast_parents txt) = S d0
    /\ demacro_at (to_ast_parents txt) fuel self_macros root
       = Err (if d0 =? 0 then PyAttributeError else PyTypeError).
Proof.
  intros Ht Hd.
  destruct (tokenize_scan def_tokenizer txt) as (toks' & Ht' & Hc & _ & Hs).
  rewrite Ht in Ht'. injection Ht' as <-. apply Scan_genuine in Hs.
  destruct (to_ast_loop_open txt toks d0 Hc Hs Hd)
    as (toks1 & t & toks2 & c & _ & _ & _ & _ & Hl & Hu & _).
  exists (BracketNode None (cur c)).
  unfold to_ast, to_ast_parents. cbn [mbind res_bind default].
  rewrite Ht, Hl. cbn [mbind res_bind].
  destruct (up c) as [|pa u]; [done|]. simpl in Hu.
  split; [done|]. split; [done|].
  split; [simpl; by rewrite length_map|].
  unfold demacro_at, filter_at.
  cbn [is_group rebuild node_children map _process attached negb chain
       parent_scope mbind res_bind].
  destruct u as [|pb u]; simpl in Hu.
  - by replace d0 with 0 by lia.
  - by replace d0 with (S (length u)) by lia.
Qed.

Lemma demacro_open_bracket_witness :
  exists root,
    to_ast (Some (lit "{a{b")) None None = Ok root
    /\ is_bracket root = true
    /\ length (to_ast_parents (lit "{a{b")) = 2
    /\ demacro_at (to_ast_parents (lit "{a{b")) 10 ∅ root = Err PyTypeError.
Proof.
  eapply (demacro_open_bracket (lit "{a{b") _ 1 10 ∅).
  - vm_compute. reflexivity.
  - reflexivity.
Defined.
(** ** The guard on the hash count *)

Lemma float_of_int_small n : (n < 2 ^ 53)%N -> float_of_int n = n.
Proof.
  intros H. unfold float_of_int.
  assert (N.size n <= 53)%N as Hs.
  { destruct (N.eq_dec n 0%N) as [->|Hn]; [done|].
    pose proof (N.size_le n) as Hle.
    assert (2 ^ N.size n < 2 ^ 54)%N as Hlt.
    { change (2 ^ 54)%N with (2 * 2 ^ 53)%N. lia. }
    apply N.pow_lt_mono_r_iff in Hlt; lia. }
  replace (N.size n - 53)%N with 0%N by lia. done.
Qed.

Lemma float_of_int_large n :
  (2 ^ 53 <= n)%N -> N.even (float_of_int n) = true.
Proof.
  intros H. unfold float_of_int.
  assert (53 < N.size n)%N as Hs.
  { pose proof (N.size_gt n) as Hgt.
    assert (2 ^ 53 < 2 ^ N.size n)%N as Hlt by lia.
    apply N.pow_lt_mono_r_iff in Hlt; lia. }
  destruct (N.size n - 53 =? 0)%N eqn:E; [apply N.eqb_eq in E; lia|].
  rewrite <- N.negb_odd, <- N.bit0_odd, N.shiftl_spec_low; [done|lia].
Qed.

(** X21: the guard of [_do_replace] by the hash count.  For an [int]
    below 2^53 and for a float the half is exact: an even count is kept
    with its half, as a float, and an odd one raises [MalformedParameter].
    An [int] from 2^53 on is rounded before it is halved, so that its half
    is always integral: no such count raises [MalformedParameter], odd or
    not. *)
Theorem halve_by_count (n : nat) :
  (if (N.of_nat n <? 2 ^ 53)%N
   then halve (PyInt n)
        = (if Nat.even n then Ok (PyFloat (n / 2))
           else Err MalformedParameter)
   else halve (PyInt n) <> Err MalformedParameter)
  /\ halve (PyFloat n)
     = (if Nat.even n then Ok (PyFloat (n / 2)) else Err MalformedParameter).
Proof.
  split; [|done]. unfold halve.
  destruct (N.of_nat n <? 2 ^ 53)%N eqn:E.
  - apply N.ltb_lt in E. rewrite float_of_int_small by done.
    destruct (N.shiftl 1 1025 <=? N.of_nat n)%N eqn:E2.
    { apply N.leb_le in E2. rewrite N.shiftl_1_l in E2.
      assert (2 ^ 53 < 2 ^ 1025)%N by (apply N.pow_lt_mono_r; lia). lia. }
    replace (N.even (N.of_nat n)) with (Nat.even n).
    + destruct (Nat.even n); [|done]. do 2 f_equal.
      rewrite N.div2_div, <- (Nat2N.id (n / 2)). f_equal.
      by rewrite Nat2N.inj_div.
    + destruct (Nat.Even_or_Odd n) as [[k ->]|[k ->]].
      * rewrite Nat2N.inj_mul. change (N.of_nat 2) with 2%N.
        by rewrite Nat.even_even, N.even_even.
      * rewrite Nat2N.inj_add, Nat2N.inj_mul.
        change (N.of_nat 2) with 2%N. change (N.of_nat 1) with 1%N.
        by rewrite Nat.even_odd, N.even_odd.
  - apply N.ltb_ge in E. rewrite float_of_int_large by done.
    by destruct (_ <=? _)%N.
Qed.
